(** * project-clippi: the Dolphin playback recorder and its queue files

    A shallow embedding of [src/renderer/lib/dolphin.ts]:

    - the class [DolphinRecorder]: its fields, [loadJSON], the two
      asynchronous routines [_handleDolphinPlayback] and [_stopRecording],
      and the three subscriptions its constructor sets up;
    - the module-level functions that build and persist queue files
      ([loadSlpFilesInDolphin], [loadQueueIntoDolphin], [saveQueueToFile]).

    JavaScript runs one macrotask at a time and drains the microtask queue
    before the next one.  The model therefore advances by _inputs_ (a stream
    emits, a timer fires, a promise settles, the caller invokes a method):
    each input is processed to quiescence and yields the list of effects it
    caused, in program order. *)

From stdpp Require Import base option list strings pretty gmap.
From Stdlib Require Import ZArith Ascii.
Local Open Scope Z_scope.

(** ** Collaborators' data types *)

(** Modelled from the spec: the enum [OBSRecordingAction] of [@/lib/obs]
    (the spec's RecordingAction), restricted to the four members the
    recorder uses. *)
Inductive OBSRecordingAction := START | PAUSE | UNPAUSE | STOP.

(** [DolphinPlaybackStatus] of slp-realtime.  The recorder's [switch] names
    three members; every other member falls through it. *)
Inductive DolphinPlaybackStatus :=
| PLAYBACK_START
| PLAYBACK_END
| QUEUE_EMPTY
| OTHER_STATUS (tag : string).

(** [payload.data]: only [gameEnded] is read; it may be missing. *)
Record PlaybackData := { gameEnded : option bool }.

Record DolphinPlaybackPayload := {
  status : DolphinPlaybackStatus;
  data : option PlaybackData
}.

(** Truthiness of [payload.data && payload.data.gameEnded]. *)
Definition game_ended (payload : DolphinPlaybackPayload) : bool :=
  match data payload with
  | Some d => default false (gameEnded d)
  | None => false
  end.

(** A property of a [Partial<_>] object: left out ([None]), or present with
    a value that may itself be [undefined] ([Some None]). *)
Definition partial_field (A : Type) : Type := option (option A).

Record PartialDolphinPlayerOptions := {
  partial_record : partial_field bool;
  partial_pauseBetweenEntries : partial_field bool
}.

(** [DolphinPlayerOptions] after [Object.assign]: a copied property may
    hold [undefined]. *)
Record DolphinPlayerOptions := {
  record : option bool;
  pauseBetweenEntries : option bool
}.

Definition defaultDolphinPlayerOptions : DolphinPlayerOptions :=
  {| record := Some false; pauseBetweenEntries := Some true |}.

(** JavaScript truthiness of a [boolean | undefined]. *)
Definition truthy (v : option bool) : bool := default false v.

Definition assign_field {A} (dflt : option A) (f : partial_field A) : option A :=
  match f with
  | None => dflt
  | Some v => v
  end.

(** [Object.assign({}, defaultDolphinPlayerOptions, options)]; a missing
    [options] argument contributes nothing. *)
Definition Object_assign (dflt : DolphinPlayerOptions)
    (options : option PartialDolphinPlayerOptions) : DolphinPlayerOptions :=
  match options with
  | None => dflt
  | Some o =>
      {| record := assign_field (record dflt) (partial_record o);
         pauseBetweenEntries :=
           assign_field (pauseBetweenEntries dflt) (partial_pauseBetweenEntries o) |}
  end.

Definition DELAY_AMOUNT_MS : Z := 1000.

(** ** Node's [path] module: [basename] and [extname] *)

Module NodePath.

Inductive platform := posix | win32.

Definition CHAR_DOT : ascii := "."%char.
Definition CHAR_COLON : ascii := ":"%char.
Definition CHAR_FORWARD_SLASH : ascii := "/"%char.
Definition CHAR_BACKWARD_SLASH : ascii := "092"%char.

Definition ascii_eqb (a b : ascii) : bool := bool_decide (a = b).

Definition isPathSeparator (os : platform) (code : ascii) : bool :=
  match os with
  | posix => ascii_eqb code CHAR_FORWARD_SLASH
  | win32 => ascii_eqb code CHAR_FORWARD_SLASH || ascii_eqb code CHAR_BACKWARD_SLASH
  end.

Definition isWindowsDeviceRoot (code : ascii) : bool :=
  let n := Z.of_nat (nat_of_ascii code) in
  ((65 <=? n) && (n <=? 90)) || ((97 <=? n) && (n <=? 122)).

(** Index at which the scan stops: past a drive-letter prefix on win32. *)
Definition scan_start (os : platform) (p : list ascii) : Z :=
  match os, p with
  | win32, c0 :: c1 :: _ =>
      if isWindowsDeviceRoot c0 && ascii_eqb c1 CHAR_COLON then 2 else 0
  | _, _ => 0
  end.

(** The characters at indices [length - 1] down to [start], each with its
    index: the order in which both loops visit them. *)
Definition downward (start : Z) (p : list ascii) : list (Z * ascii) :=
  reverse (drop (Z.to_nat start) (zip (Z.of_nat <$> seq 0 (length p)) p)).

(** [path.slice(from, to)] for indices within the string. *)
Definition slice (from to : Z) (p : list ascii) : list ascii :=
  take (Z.to_nat (to - from)) (drop (Z.to_nat from) p).

Record BaseScan := {
  b_start : Z;
  b_end : Z;
  b_matchedSlash : bool
}.

Fixpoint basename_scan (os : platform) (cs : list (Z * ascii)) (st : BaseScan) : BaseScan :=
  match cs with
  | [] => st
  | (i, code) :: cs' =>
      if isPathSeparator os code then
        if negb (b_matchedSlash st)
        then {| b_start := i + 1; b_end := b_end st; b_matchedSlash := b_matchedSlash st |}
        else basename_scan os cs' st
      else if b_end st =? -1 then
        basename_scan os cs' {| b_start := b_start st; b_end := i + 1; b_matchedSlash := false |}
      else basename_scan os cs' st
  end.

Definition basename_chars (os : platform) (p : list ascii) : list ascii :=
  let start := scan_start os p in
  let st := basename_scan os (downward start p)
              {| b_start := start; b_end := -1; b_matchedSlash := true |} in
  if b_end st =? -1 then [] else slice (b_start st) (b_end st) p.

Definition basename (os : platform) (p : string) : string :=
  String.string_of_list_ascii (basename_chars os (String.list_ascii_of_string p)).

Record ExtScan := {
  startDot : Z;
  startPart : Z;
  e_end : Z;
  matchedSlash : bool;
  preDotState : Z
}.

Definition see_char (i : Z) (code : ascii) (st : ExtScan) : ExtScan :=
  let st1 :=
    if e_end st =? -1
    then {| startDot := startDot st; startPart := startPart st; e_end := i + 1;
            matchedSlash := false; preDotState := preDotState st |}
    else st in
  if ascii_eqb code CHAR_DOT then
    if startDot st1 =? -1
    then {| startDot := i; startPart := startPart st1; e_end := e_end st1;
            matchedSlash := matchedSlash st1; preDotState := preDotState st1 |}
    else if negb (preDotState st1 =? 1)
    then {| startDot := startDot st1; startPart := startPart st1; e_end := e_end st1;
            matchedSlash := matchedSlash st1; preDotState := 1 |}
    else st1
  else if negb (startDot st1 =? -1)
  then {| startDot := startDot st1; startPart := startPart st1; e_end := e_end st1;
          matchedSlash := matchedSlash st1; preDotState := -1 |}
  else st1.

Fixpoint extname_scan (os : platform) (cs : list (Z * ascii)) (st : ExtScan) : ExtScan :=
  match cs with
  | [] => st
  | (i, code) :: cs' =>
      if isPathSeparator os code then
        if negb (matchedSlash st)
        then {| startDot := startDot st; startPart := i + 1; e_end := e_end st;
                matchedSlash := matchedSlash st; preDotState := preDotState st |}
        else extname_scan os cs' st
      else extname_scan os cs' (see_char i code st)
  end.

Definition extname_chars (os : platform) (p : list ascii) : list ascii :=
  let start := scan_start os p in
  let st := extname_scan os (downward start p)
              {| startDot := -1; startPart := start; e_end := -1;
                 matchedSlash := true; preDotState := 0 |} in
  if (startDot st =? -1) || (e_end st =? -1) || (preDotState st =? 0)
     || ((preDotState st =? 1) && (startDot st =? e_end st - 1)
         && (startDot st =? startPart st + 1))
  then []
  else slice (startDot st) (e_end st) p.

Definition extname (os : platform) (p : string) : string :=
  String.string_of_list_ascii (extname_chars os (String.list_ascii_of_string p)).

End NodePath.

(** ** The recorder and the world it reads *)

(** The fields of one [DolphinRecorder], the device-side state that
    [obsConnection] reports, and the clock.  [recordingEnabled] holds the
    truthiness of the stored value (every use in the source is a truth
    test); [dolphin] says whether [this.dolphin] holds a process handle (the
    base class [DolphinLauncher] of slp-realtime owns that field).

    [obsConnection] of [@/lib/obs] is not part of the recorder: what
    [isConnected()] and [isRecording()] answer is whatever the device state
    is at the time of the call ([obs_connected], [obs_recording]), and that
    state changes only from outside.  [setRecordingState(action)] returns a
    promise that is fulfilled or rejected later, also from outside. *)
Record World := {
  recordingEnabled : bool;
  startAction : OBSRecordingAction;
  endAction : OBSRecordingAction;
  currentBasename : string;
  dolphin : bool;
  obs_connected : bool;
  obs_recording : bool;
  now : Z
}.

Definition with_basename (name : string) (w : World) : World :=
  {| recordingEnabled := recordingEnabled w; startAction := startAction w;
     endAction := endAction w; currentBasename := name; dolphin := dolphin w;
     obs_connected := obs_connected w; obs_recording := obs_recording w; now := now w |}.

Definition with_mode (enabled : bool) (sa ea : OBSRecordingAction) (w : World) : World :=
  {| recordingEnabled := enabled; startAction := sa; endAction := ea;
     currentBasename := currentBasename w; dolphin := dolphin w;
     obs_connected := obs_connected w; obs_recording := obs_recording w; now := now w |}.

Definition with_obs (connected recording : bool) (w : World) : World :=
  {| recordingEnabled := recordingEnabled w; startAction := startAction w;
     endAction := endAction w; currentBasename := currentBasename w; dolphin := dolphin w;
     obs_connected := connected; obs_recording := recording; now := now w |}.

Definition with_dolphin (handle : bool) (w : World) : World :=
  {| recordingEnabled := recordingEnabled w; startAction := startAction w;
     endAction := endAction w; currentBasename := currentBasename w; dolphin := handle;
     obs_connected := obs_connected w; obs_recording := obs_recording w; now := now w |}.

Definition with_now (t : Z) (w : World) : World :=
  {| recordingEnabled := recordingEnabled w; startAction := startAction w;
     endAction := endAction w; currentBasename := currentBasename w; dolphin := dolphin w;
     obs_connected := obs_connected w; obs_recording := obs_recording w; now := t |}.

(** What the program does to the outside, as an observer sees it. *)
Inductive Effect :=
| EConsoleLog (payload : DolphinPlaybackPayload)  (* console.log(payload) *)
| EIsConnected (answer : bool)                    (* obsConnection.isConnected() *)
| EIsRecording (answer : bool)                    (* obsConnection.isRecording() *)
| ESetRecordingState (action : OBSRecordingAction) (* obsConnection.setRecordingState(action) *)
| EDelay (ms : Z)                                 (* delay(ms) *)
| EBasenameNext (name : string)                   (* currentBasenameSource.next(name) *)
| EKill                                           (* this.dolphin.kill() *)
| ESuperLoadJSON (comboFilePath : string)         (* super.loadJSON(comboFilePath) *)
| EUnhandledError.                                (* an error no subscriber handles *)

#[global] Instance OBSRecordingAction_eq_dec : EqDecision OBSRecordingAction.
Proof. solve_decision. Defined.
#[global] Instance DolphinPlaybackStatus_eq_dec : EqDecision DolphinPlaybackStatus.
Proof. solve_decision. Defined.
#[global] Instance PlaybackData_eq_dec : EqDecision PlaybackData.
Proof. solve_decision. Defined.
#[global] Instance DolphinPlaybackPayload_eq_dec : EqDecision DolphinPlaybackPayload.
Proof. solve_decision. Defined.
#[global] Instance Effect_eq_dec : EqDecision Effect.
Proof. solve_decision. Defined.

(** ** Asynchronous routines

    The body of an [async] function: synchronous statements, and [await]s
    on the two promises that really suspend (a device command, a timer). *)
Inductive Proc (A : Type) : Type :=
| Ret (a : A)
| Log (payload : DolphinPlaybackPayload) (k : Proc A)
| QueryRecording (k : bool → Proc A)
| ReadStartAction (k : OBSRecordingAction → Proc A)
| ReadEndAction (k : OBSRecordingAction → Proc A)
| ReadDolphin (k : bool → Proc A)
| NextBasename (name : string) (k : Proc A)
| Kill (k : Proc A)
| AwaitCommand (action : OBSRecordingAction) (k : Proc A)
| AwaitDelay (ms : Z) (k : Proc A).
Arguments Ret {A} a.
Arguments Log {A} payload k.
Arguments QueryRecording {A} k.
Arguments ReadStartAction {A} k.
Arguments ReadEndAction {A} k.
Arguments ReadDolphin {A} k.
Arguments NextBasename {A} name k.
Arguments Kill {A} k.
Arguments AwaitCommand {A} action k.
Arguments AwaitDelay {A} ms k.

Fixpoint Proc_bind {A B} (f : A → Proc B) (m : Proc A) : Proc B :=
  match m with
  | Ret a => f a
  | Log p k => Log p (Proc_bind f k)
  | QueryRecording k => QueryRecording (λ b, Proc_bind f (k b))
  | ReadStartAction k => ReadStartAction (λ a, Proc_bind f (k a))
  | ReadEndAction k => ReadEndAction (λ a, Proc_bind f (k a))
  | ReadDolphin k => ReadDolphin (λ b, Proc_bind f (k b))
  | NextBasename n k => NextBasename n (Proc_bind f k)
  | Kill k => Kill (Proc_bind f k)
  | AwaitCommand a k => AwaitCommand a (Proc_bind f k)
  | AwaitDelay ms k => AwaitDelay ms (Proc_bind f k)
  end.

#[global] Instance Proc_ret : MRet Proc := @Ret.
#[global] Instance Proc_mbind : MBind Proc := @Proc_bind.

Definition console_log (payload : DolphinPlaybackPayload) : Proc unit := Log payload (Ret ()).
Definition obsConnection_isRecording : Proc bool := QueryRecording Ret.
Definition this_startAction : Proc OBSRecordingAction := ReadStartAction Ret.
Definition this_endAction : Proc OBSRecordingAction := ReadEndAction Ret.
Definition this_dolphin : Proc bool := ReadDolphin Ret.
Definition currentBasenameSource_next (name : string) : Proc unit := NextBasename name (Ret ()).
Definition dolphin_kill : Proc unit := Kill (Ret ()).
Definition await_setRecordingState (action : OBSRecordingAction) : Proc unit :=
  AwaitCommand action (Ret ()).
Definition await_delay (ms : Z) : Proc unit := AwaitDelay ms (Ret ()).

Definition _stopRecording (killDolphin : bool) : Proc unit :=
  currentBasenameSource_next EmptyString ;;
  recording ← obsConnection_isRecording;
  (if recording : bool then await_setRecordingState STOP else mret ()) ;;
  handle ← this_dolphin;
  if killDolphin && handle then dolphin_kill else mret ().

Definition _handleDolphinPlayback (payload : DolphinPlaybackPayload) : Proc unit :=
  console_log payload ;;
  match status payload with
  | PLAYBACK_START =>
      recording ← obsConnection_isRecording;
      action ← (if recording : bool then this_startAction else mret START);
      await_setRecordingState action
  | PLAYBACK_END =>
      (if game_ended payload then await_delay DELAY_AMOUNT_MS else mret ()) ;;
      action ← this_endAction;
      await_setRecordingState action
  | QUEUE_EMPTY => _stopRecording true
  | OTHER_STATUS _ => mret ()
  end.

(** What a suspended routine waits for. *)
Inductive Wait :=
| WaitDelay (deadline : Z)
| WaitCommand (action : OBSRecordingAction).

Inductive Outcome (A : Type) : Type :=
| Finished (a : A)
| Suspended (wt : Wait) (k : Proc A).
Arguments Finished {A} a.
Arguments Suspended {A} wt k.

(** Modelled from the spec: [delay] of [@/lib/utils], the settle delay.  It
    returns a timer promise: called at time [t] with [ms], the promise
    resolves no earlier than [t + ms], and it never rejects. *)
Definition delay_deadline (t ms : Z) : Z := t + ms.

(** Runs a routine up to its next real suspension. *)
Fixpoint run_sync {A} (m : Proc A) (w : World) : World * list Effect * Outcome A :=
  match m with
  | Ret a => (w, [], Finished a)
  | Log p k =>
      let '(w', out, r) := run_sync k w in (w', EConsoleLog p :: out, r)
  | QueryRecording k =>
      let '(w', out, r) := run_sync (k (obs_recording w)) w in
      (w', EIsRecording (obs_recording w) :: out, r)
  | ReadStartAction k => run_sync (k (startAction w)) w
  | ReadEndAction k => run_sync (k (endAction w)) w
  | ReadDolphin k => run_sync (k (dolphin w)) w
  | NextBasename n k =>
      let '(w', out, r) := run_sync k (with_basename n w) in
      (w', EBasenameNext n :: out, r)
  | Kill k =>
      let '(w', out, r) := run_sync k w in (w', EKill :: out, r)
  | AwaitCommand a k => (w, [ESetRecordingState a], Suspended (WaitCommand a) k)
  | AwaitDelay ms k => (w, [EDelay ms], Suspended (WaitDelay (delay_deadline (now w) ms)) k)
  end.

(** ** [concatMap]

    One subscription [source.pipe(filter(..), concatMap(e => from(h(e))))]:
    nothing in progress, an inner promise pending with the later events
    buffered, or torn down by an error. *)
Inductive Pipe (E : Type) : Type :=
| Idle
| Busy (wt : Wait) (k : Proc unit) (buffer : list E)
| Errored.
Arguments Idle {E}.
Arguments Busy {E} wt k buffer.
Arguments Errored {E}.

(** Starts the buffered events one after the other until a handler
    suspends or the buffer is empty. *)
Fixpoint drain {E} (project : E → Proc unit) (buffer : list E) (w : World)
    : World * list Effect * Pipe E :=
  match buffer with
  | [] => (w, [], Idle)
  | e :: rest =>
      let '(w1, out, r) := run_sync (project e) w in
      match r with
      | Finished _ =>
          let '(w2, out2, p) := drain project rest w1 in (w2, out ++ out2, p)
      | Suspended wt k => (w1, out, Busy wt k rest)
      end
  end.

(** [concatMap] receives a value. *)
Definition pipe_next {E} (project : E → Proc unit) (e : E) (p : Pipe E) (w : World)
    : World * list Effect * Pipe E :=
  match p with
  | Idle => drain project [e] w
  | Busy wt k buffer => (w, [], Busy wt k (buffer ++ [e]))
  | Errored => (w, [], Errored)
  end.

(** The pending promise resolves: the handler continues, and when it
    returns the next buffered event is started. *)
Definition pipe_resume {E} (project : E → Proc unit) (k : Proc unit) (buffer : list E)
    (w : World) : World * list Effect * Pipe E :=
  let '(w1, out, r) := run_sync k w in
  match r with
  | Finished _ =>
      let '(w2, out2, p) := drain project buffer w1 in (w2, out ++ out2, p)
  | Suspended wt k' => (w1, out, Busy wt k' buffer)
  end.

(** ** The recorder as a transition system *)

Inductive Source :=
| playbackStatus      (* this.output.playbackStatus$ ... .subscribe() *)
| dolphinQuit         (* this.dolphinQuit$ ... .subscribe() *)
| playbackFilename    (* this.playbackFilename$ ... .subscribe(..) *)
| caller.             (* a method called from outside *)

#[global] Instance Source_eq_dec : EqDecision Source.
Proof. solve_decision. Defined.

Record State : Type := {
  world : World;
  playback_pipe : Pipe DolphinPlaybackPayload;
  quit_pipe : Pipe unit
}.

Inductive Input : Type :=
| playbackStatus_emits (payload : DolphinPlaybackPayload)
| dolphinQuit_emits
| playbackFilename_emits (fullpath : string)
| call_loadJSON (comboFilePath : string) (options : option PartialDolphinPlayerOptions)
| timer_fires (src : Source)
| command_settles (src : Source) (fulfilled : bool)
| obs_changes (connected recording : bool)
| launcher_sets_dolphin (handle : bool)
| clock_advances (dt : Z).

Definition Output : Type := Source * Effect.

Definition tag (src : Source) (out : list Effect) : list Output := (src,.) <$> out.

(** [DolphinRecorder.loadJSON], up to the call into the base class. *)
Definition loadJSON (options : option PartialDolphinPlayerOptions) (w : World) : World :=
  let opts := Object_assign defaultDolphinPlayerOptions options in
  let enabled := truthy (record opts) in
  if enabled then
    with_mode enabled
      (if truthy (pauseBetweenEntries opts) then UNPAUSE else START)
      (if truthy (pauseBetweenEntries opts) then PAUSE else STOP) w
  else with_mode enabled (startAction w) (endAction w) w.

(** The predicate of both [filter]s, with the device query it makes:
    [this.recordingEnabled && obsConnection.isConnected()]. *)
Definition armed (w : World) : bool := recordingEnabled w && obs_connected w.

Definition gate_effects (w : World) : list Effect :=
  if recordingEnabled w then [EIsConnected (obs_connected w)] else [].

(** The handler [concatMap] projects an event of each subscription to. *)
Definition quit_handler (_ : unit) : Proc unit := _stopRecording false.

Definition set_world (w : World) (s : State) : State :=
  {| world := w; playback_pipe := playback_pipe s; quit_pipe := quit_pipe s |}.

(** The method call [dolphinPlayer.loadJSON(comboFilePath, options)]. *)
Definition dolphinPlayer_loadJSON (comboFilePath : string)
    (options : option PartialDolphinPlayerOptions) (s : State) : State * list Output :=
  (set_world (loadJSON options (world s)) s, [(caller, ESuperLoadJSON comboFilePath)]).

Section Step.
Variable os : NodePath.platform.

Definition emit_playback (payload : DolphinPlaybackPayload) (s : State)
    : State * list Output :=
  match playback_pipe s with
  | Errored => (s, [])
  | p =>
      if armed (world s) then
        let '(w, out, p') := pipe_next _handleDolphinPlayback payload p (world s) in
        ({| world := w; playback_pipe := p'; quit_pipe := quit_pipe s |},
         tag playbackStatus (gate_effects (world s) ++ out))
      else (s, tag playbackStatus (gate_effects (world s)))
  end.

Definition emit_quit (s : State) : State * list Output :=
  match quit_pipe s with
  | Errored => (s, [])
  | p =>
      if armed (world s) then
        let '(w, out, p') := pipe_next quit_handler () p (world s) in
        ({| world := w; playback_pipe := playback_pipe s; quit_pipe := p' |},
         tag dolphinQuit (gate_effects (world s) ++ out))
      else (s, tag dolphinQuit (gate_effects (world s)))
  end.

Definition resume_playback (k : Proc unit) (buffer : list DolphinPlaybackPayload)
    (s : State) : State * list Output :=
  let '(w, out, p') := pipe_resume _handleDolphinPlayback k buffer (world s) in
  ({| world := w; playback_pipe := p'; quit_pipe := quit_pipe s |}, tag playbackStatus out).

Definition resume_quit (k : Proc unit) (buffer : list unit) (s : State)
    : State * list Output :=
  let '(w, out, p') := pipe_resume quit_handler k buffer (world s) in
  ({| world := w; playback_pipe := playback_pipe s; quit_pipe := p' |}, tag dolphinQuit out).

(** One input, processed to quiescence.  [None]: the input cannot occur in
    this state (no such timer or command is pending, the timer is not yet
    due, time would run backwards). *)
Definition step (s : State) (i : Input) : option (State * list Output) :=
  match i with
  | playbackStatus_emits payload => Some (emit_playback payload s)
  | dolphinQuit_emits => Some (emit_quit s)
  | playbackFilename_emits fullpath =>
      let name := NodePath.basename os fullpath in
      Some (set_world (with_basename name (world s)) s, [(playbackFilename, EBasenameNext name)])
  | call_loadJSON comboFilePath options =>
      Some (dolphinPlayer_loadJSON comboFilePath options s)
  | timer_fires playbackStatus =>
      match playback_pipe s with
      | Busy (WaitDelay deadline) k buffer =>
          if deadline <=? now (world s) then Some (resume_playback k buffer s) else None
      | _ => None
      end
  | timer_fires dolphinQuit =>
      match quit_pipe s with
      | Busy (WaitDelay deadline) k buffer =>
          if deadline <=? now (world s) then Some (resume_quit k buffer s) else None
      | _ => None
      end
  | timer_fires _ => None
  | command_settles playbackStatus fulfilled =>
      match playback_pipe s with
      | Busy (WaitCommand _) k buffer =>
          if fulfilled then Some (resume_playback k buffer s)
          else Some ({| world := world s; playback_pipe := Errored; quit_pipe := quit_pipe s |},
                     [(playbackStatus, EUnhandledError)])
      | _ => None
      end
  | command_settles dolphinQuit fulfilled =>
      match quit_pipe s with
      | Busy (WaitCommand _) k buffer =>
          if fulfilled then Some (resume_quit k buffer s)
          else Some ({| world := world s; playback_pipe := playback_pipe s; quit_pipe := Errored |},
                     [(dolphinQuit, EUnhandledError)])
      | _ => None
      end
  | command_settles _ _ => None
  | obs_changes connected recording =>
      Some (set_world (with_obs connected recording (world s)) s, [])
  | launcher_sets_dolphin handle =>
      Some (set_world (with_dolphin handle (world s)) s, [])
  | clock_advances dt =>
      if 0 <=? dt then Some (set_world (with_now (now (world s) + dt) (world s)) s, [])
      else None
  end.

(** The record of a run: every input with the effects it caused. *)
Fixpoint run (s : State) (ins : list Input) : option (State * list (Input * list Output)) :=
  match ins with
  | [] => Some (s, [])
  | i :: rest =>
      match step s i with
      | None => None
      | Some (s1, out) =>
          match run s1 rest with
          | None => None
          | Some (s2, tr) => Some (s2, (i, out) :: tr)
          end
      end
  end.

End Step.

(** The recorder right after its constructor: the field initialisers, no
    process handle, both subscriptions idle.  The device state and the
    clock are whatever they are at that moment. *)
Definition new_DolphinRecorder (connected recording : bool) (t0 : Z) : State :=
  {| world := {| recordingEnabled := false; startAction := START; endAction := STOP;
                 currentBasename := EmptyString; dolphin := false;
                 obs_connected := connected; obs_recording := recording; now := t0 |};
     playback_pipe := Idle;
     quit_pipe := Idle |}.

(** ** Reading a record

    What an observer who sees only inputs and effects can check. *)

Definition Trace : Type := list (Input * list Output).

Inductive Item : Type :=
| Got (i : Input)
| Did (src : Source) (e : Effect).

Definition items (t : Input * list Output) : list Item :=
  Got t.1 :: ((λ o, Did o.1 o.2) <$> t.2).

(** The record as one sequence: each input, then its effects in order. *)
Definition flatten (tr : Trace) : list Item := tr ≫= items.

(** Where a subscription stands, as far as the record shows. *)
Inductive Phase := Ready | AwaitingDelay | AwaitingCommand | TornDown.

(** One item seen by the observer of subscription [sub].  [None]: the item
    breaks the discipline "one event at a time": a handler of [sub] acted
    while a delay or a command of [sub] was still outstanding, something
    settled that was not outstanding, or [sub] acted after it was torn
    down.  The filter's [isConnected] query is no part of a handler. *)
Definition observe (sub : Source) (ph : Phase) (it : Item) : option Phase :=
  match it with
  | Got (timer_fires src) =>
      if decide (src = sub)
      then match ph with AwaitingDelay => Some Ready | _ => None end
      else Some ph
  | Got (command_settles src fulfilled) =>
      if decide (src = sub)
      then match ph with
           | AwaitingCommand => Some (if fulfilled then Ready else TornDown)
           | _ => None
           end
      else Some ph
  | Got _ => Some ph
  | Did src e =>
      if decide (src = sub) then
        match ph, e with
        | TornDown, EUnhandledError => Some TornDown
        | TornDown, _ => None
        | _, EUnhandledError => None
        | _, EIsConnected _ => Some ph
        | Ready, ESetRecordingState _ => Some AwaitingCommand
        | Ready, EDelay _ => Some AwaitingDelay
        | Ready, _ => Some Ready
        | _, _ => None
        end
      else Some ph
  end.

Fixpoint observe_all (sub : Source) (ph : Phase) (its : list Item) : option Phase :=
  match its with
  | [] => Some ph
  | it :: rest =>
      match observe sub ph it with
      | Some ph' => observe_all sub ph' rest
      | None => None
      end
  end.

(** The record shows subscription [sub] handling one event at a time. *)
Definition serial (sub : Source) (tr : Trace) : Prop :=
  is_Some (observe_all sub Ready (flatten tr)).

(** No command is sent while another one, of any subscription, has not
    settled. *)
Fixpoint exclusive (in_flight : bool) (its : list Item) : bool :=
  match its with
  | [] => true
  | Did _ (ESetRecordingState _) :: rest =>
      if in_flight then false else exclusive true rest
  | Got (command_settles _ _) :: rest => exclusive false rest
  | _ :: rest => exclusive in_flight rest
  end.

(** No command of subscription [sub] is sent while another command of
    [sub] has not settled. *)
Fixpoint exclusive_of (sub : Source) (in_flight : bool) (its : list Item) : bool :=
  match its with
  | [] => true
  | Did src (ESetRecordingState _) :: rest =>
      if decide (src = sub)
      then if in_flight then false else exclusive_of sub true rest
      else exclusive_of sub in_flight rest
  | Got (command_settles src _) :: rest =>
      if decide (src = sub) then exclusive_of sub false rest
      else exclusive_of sub in_flight rest
  | _ :: rest => exclusive_of sub in_flight rest
  end.

(** The playback events that passed the filter, in emission order. *)
Definition accepted_step (t : Input * list Output) : list DolphinPlaybackPayload :=
  match t.1 with
  | playbackStatus_emits payload =>
      if bool_decide ((playbackStatus, EIsConnected true) ∈ t.2) then [payload] else []
  | _ => []
  end.

Definition accepted (tr : Trace) : list DolphinPlaybackPayload := tr ≫= accepted_step.

(** The playback events whose handler was started (its first statement logs
    the payload), in starting order. *)
Definition logged (o : Output) : list DolphinPlaybackPayload :=
  match o with
  | (playbackStatus, EConsoleLog payload) => [payload]
  | _ => []
  end.

Definition started (tr : Trace) : list DolphinPlaybackPayload :=
  tr ≫= λ t, t.2 ≫= logged.

(** The commands a subscription sent, in order. *)
Definition command_of (sub : Source) (o : Output) : list OBSRecordingAction :=
  match o with
  | (src, ESetRecordingState action) => if decide (src = sub) then [action] else []
  | _ => []
  end.

Definition commands (sub : Source) (out : list Output) : list OBSRecordingAction :=
  out ≫= command_of sub.

Definition commands_of_trace (sub : Source) (tr : Trace) : list OBSRecordingAction :=
  tr ≫= λ t, commands sub t.2.

(** The events a subscription holds back. *)
Definition waiting {E} (p : Pipe E) : list E :=
  match p with
  | Busy _ _ buffer => buffer
  | _ => []
  end.

Definition phase_of {E} (p : Pipe E) : Phase :=
  match p with
  | Idle => Ready
  | Busy (WaitDelay _) _ _ => AwaitingDelay
  | Busy (WaitCommand _) _ _ => AwaitingCommand
  | Errored => TornDown
  end.

(** The resolved options of the most recent [loadJSON] call of a run. *)
Fixpoint last_mode (ins : list Input) : option DolphinPlayerOptions :=
  match ins with
  | [] => None
  | i :: rest =>
      match last_mode rest with
      | Some o => Some o
      | None =>
          match i with
          | call_loadJSON _ options =>
              Some (Object_assign defaultDolphinPlayerOptions options)
          | _ => None
          end
      end
  end.

(** ** Notions used in the proofs *)

Definition outcome_phase {A} (r : Outcome A) : Phase :=
  match r with
  | Finished _ => Ready
  | Suspended (WaitDelay _) _ => AwaitingDelay
  | Suspended (WaitCommand _) _ => AwaitingCommand
  end.

Definition did (src : Source) (out : list Effect) : list Item := Did src <$> out.

(** A routine that never logs a payload: what is left of a handler once it
    has started. *)
Fixpoint log_free {A} (m : Proc A) : Prop :=
  match m with
  | Ret _ => True
  | Log _ _ => False
  | QueryRecording k => ∀ b, log_free (k b)
  | ReadStartAction k => ∀ a, log_free (k a)
  | ReadEndAction k => ∀ a, log_free (k a)
  | ReadDolphin k => ∀ b, log_free (k b)
  | NextBasename _ k => log_free k
  | Kill k => log_free k
  | AwaitCommand _ k => log_free k
  | AwaitDelay _ k => log_free k
  end.

Definition pipe_quiet {E} (p : Pipe E) : Prop :=
  match p with
  | Busy _ k _ => log_free k
  | _ => True
  end.

Definition logs (out : list Effect) : list DolphinPlaybackPayload :=
  out ≫= λ e, match e with EConsoleLog payload => [payload] | _ => [] end.

Definition is_command (ph : Phase) : bool :=
  match ph with AwaitingCommand => true | _ => false end.

(** Commands and their settlements belong to the playback subscription. *)
Definition playback_only (it : Item) : Prop :=
  match it with
  | Did src (ESetRecordingState _) => src = playbackStatus
  | Got (command_settles src _) => src = playbackStatus
  | _ => True
  end.

(** The engine-process-exited signal is not among the inputs. *)
Definition quit_free (ins : list Input) : bool :=
  forallb (λ i, match i with dolphinQuit_emits => false | _ => true end) ins.

(** Everything of a world but the displayed basename. *)
Definition fixed_part (w : World) : World := with_basename EmptyString w.

Definition mode_of (w : World) : bool * OBSRecordingAction * OBSRecordingAction :=
  (recordingEnabled w, startAction w, endAction w).

Definition is_load (i : Input) : bool :=
  match i with call_loadJSON _ _ => true | _ => false end.

(** The resume and suspend actions of a mode, as [loadJSON] derives them. *)
Definition resume_action (o : DolphinPlayerOptions) : OBSRecordingAction :=
  if truthy (pauseBetweenEntries o) then UNPAUSE else START.

Definition suspend_action (o : DolphinPlayerOptions) : OBSRecordingAction :=
  if truthy (pauseBetweenEntries o) then PAUSE else STOP.

(** The statements of [_handleDolphinPlayback] after [await delay(..)]. *)
Definition after_delay : Proc unit :=
  action ← this_endAction; await_setRecordingState action.

(** The statements of [_stopRecording] after
    [await obsConnection.setRecordingState(STOP)]. *)
Definition after_stop (killDolphin : bool) : Proc unit :=
  handle ← this_dolphin; if killDolphin && handle then dolphin_kill else mret ().

(** Sample inputs. *)
Definition record_on : option PartialDolphinPlayerOptions :=
  Some {| partial_record := Some (Some true); partial_pauseBetweenEntries := None |}.

Definition start_event : DolphinPlaybackPayload :=
  {| status := PLAYBACK_START; data := None |}.

Definition end_event (ended : bool) : DolphinPlaybackPayload :=
  {| status := PLAYBACK_END; data := Some {| gameEnded := Some ended |} |}.

Definition queue_empty_event : DolphinPlaybackPayload :=
  {| status := QUEUE_EMPTY; data := None |}.

Definition sample_inputs : list Input :=
  [call_loadJSON "queue.json" record_on;
   playbackStatus_emits start_event;
   playbackStatus_emits (end_event true);
   command_settles playbackStatus true;
   clock_advances 1000;
   timer_fires playbackStatus].

(** ** JSON text

    [JSON.stringify(value, undefined, 2)] and [JSON.parse] of ECMA-262, for
    the values a queue file holds: [null], booleans, strings, arrays and
    plain objects.  A string is a sequence of code units below 256; an
    object is the list of its properties in creation order.  Numbers (IEEE
    doubles) and [undefined] are outside the model. *)

Module JSON.
Local Open Scope char_scope.

#[warnings="-register-all"]
Inductive value :=
| Null
| Bool (b : bool)
| Str (s : string)
| Arr (elements : list value)
| Obj (properties : list (string * value)).

Definition QUOTE : ascii := "034"%char.
Definition BACKSLASH : ascii := "092"%char.
Definition LF : ascii := "010"%char.
Definition SPACE : ascii := " "%char.

Definition chars (s : string) : list ascii := String.list_ascii_of_string s.

(** [CreateDataProperty]: an existing key keeps its place and takes the new
    value, a new key goes last. *)
Fixpoint set_property (k : string) (v : value) (props : list (string * value))
    : list (string * value) :=
  match props with
  | [] => [(k, v)]
  | (k', v') :: rest =>
      if bool_decide (k' = k) then (k, v) :: rest else (k', v') :: set_property k v rest
  end.

Definition define_all (members : list (string * value)) : list (string * value) :=
  foldl (λ props m, set_property m.1 m.2 props) [] members.

(** [object[k]] for an own property. *)
Fixpoint get_property (k : string) (props : list (string * value)) : option value :=
  match props with
  | [] => None
  | (k', v') :: rest => if bool_decide (k' = k) then Some v' else get_property k rest
  end.

(** *** QuoteJSONString *)

Definition hex_digit (n : N) : ascii :=
  if (n <? 10)%N then ascii_of_N (48 + n) else ascii_of_N (87 + n).

Definition UnicodeEscape (c : ascii) : list ascii :=
  let n := N_of_ascii c in
  [BACKSLASH; "u"; "0"; "0"; hex_digit (n / 16); hex_digit (n mod 16)]%char.

Definition quote_char (c : ascii) : list ascii :=
  if Ascii.eqb c "008" then [BACKSLASH; "b"]
  else if Ascii.eqb c "009" then [BACKSLASH; "t"]
  else if Ascii.eqb c "010" then [BACKSLASH; "n"]
  else if Ascii.eqb c "012" then [BACKSLASH; "f"]
  else if Ascii.eqb c "013" then [BACKSLASH; "r"]
  else if Ascii.eqb c QUOTE then [BACKSLASH; QUOTE]
  else if Ascii.eqb c BACKSLASH then [BACKSLASH; BACKSLASH]
  else if (N_of_ascii c <? 32)%N then UnicodeEscape c
  else [c].

Fixpoint quote_chars (s : string) : list ascii :=
  match s with
  | EmptyString => []
  | String c s' => quote_char c ++ quote_chars s'
  end.

Definition QuoteJSONString (s : string) : list ascii :=
  QUOTE :: quote_chars s ++ [QUOTE].

(** *** SerializeJSONProperty, with gap = two spaces *)

Definition gap : list ascii := [SPACE; SPACE].

(** The members of an object or array, joined by the separator. *)
Fixpoint join (separator : list ascii) (partial : list (list ascii)) : list ascii :=
  match partial with
  | [] => []
  | p :: ps =>
      match ps with
      | [] => p
      | _ :: _ => p ++ separator ++ join separator ps
      end
  end.

(** The common end of SerializeJSONObject and SerializeJSONArray: the
    brackets alone when there is no member, else one member per line at the
    deeper indentation. *)
Definition wrap (open close : ascii) (stepback : list ascii) (partial : list (list ascii))
    : list ascii :=
  match partial with
  | [] => [open; close]
  | _ :: _ =>
      let indent := stepback ++ gap in
      let separator := "," :: LF :: indent in
      open :: LF :: indent ++ join separator partial ++ LF :: stepback ++ [close]
  end.

Fixpoint serialize (indent : list ascii) (v : value) : list ascii :=
  match v with
  | Null => chars "null"
  | Bool true => chars "true"
  | Bool false => chars "false"
  | Str s => QuoteJSONString s
  | Arr es => wrap "[" "]" indent (List.map (serialize (indent ++ gap)) es)
  | Obj ms =>
      wrap "{" "}" indent
        (List.map (λ m, QuoteJSONString m.1 ++ ":" :: SPACE :: serialize (indent ++ gap) m.2) ms)
  end.

(** [JSON.stringify(v, undefined, 2)]. *)
Definition stringify (v : value) : string :=
  String.string_of_list_ascii (serialize [] v).

(** *** JSON.parse *)

Definition is_ws (c : ascii) : bool :=
  Ascii.eqb c SPACE || Ascii.eqb c "009" || Ascii.eqb c LF || Ascii.eqb c "013".

Fixpoint skip_ws (cs : list ascii) : list ascii :=
  match cs with
  | c :: rest => if is_ws c then skip_ws rest else cs
  | [] => []
  end.

Fixpoint strip_prefix (lit cs : list ascii) : option (list ascii) :=
  match lit, cs with
  | [], _ => Some cs
  | l :: lit', c :: cs' => if Ascii.eqb l c then strip_prefix lit' cs' else None
  | _ :: _, [] => None
  end.

Definition hex_value (c : ascii) : option N :=
  let n := N_of_ascii c in
  if ((48 <=? n) && (n <=? 57))%N then Some (n - 48)%N
  else if ((97 <=? n) && (n <=? 102))%N then Some (n - 87)%N
  else if ((65 <=? n) && (n <=? 70))%N then Some (n - 55)%N
  else None.

Definition hex4 (h1 h2 h3 h4 : ascii) : option N :=
  a ← hex_value h1; b ← hex_value h2; c ← hex_value h3; d ← hex_value h4;
  Some (((a * 16 + b) * 16 + c) * 16 + d)%N.

Definition unescape (e : ascii) : option ascii :=
  if Ascii.eqb e QUOTE then Some QUOTE
  else if Ascii.eqb e BACKSLASH then Some BACKSLASH
  else if Ascii.eqb e "/" then Some "/"%char
  else if Ascii.eqb e "b" then Some "008"%char
  else if Ascii.eqb e "f" then Some "012"%char
  else if Ascii.eqb e "n" then Some "010"%char
  else if Ascii.eqb e "r" then Some "013"%char
  else if Ascii.eqb e "t" then Some "009"%char
  else None.

(** The characters after an opening quote, up to and including the closing
    one.  A [\u] escape above 255 has no code unit in this model. *)
Fixpoint parse_string_body (cs : list ascii) : option (string * list ascii) :=
  match cs with
  | [] => None
  | c :: rest =>
      if Ascii.eqb c QUOTE then Some (EmptyString, rest)
      else if Ascii.eqb c BACKSLASH then
        match rest with
        | [] => None
        | e :: rest1 =>
            if Ascii.eqb e "u" then
              match rest1 with
              | h1 :: h2 :: h3 :: h4 :: rest2 =>
                  match hex4 h1 h2 h3 h4 with
                  | Some code =>
                      if (code <? 256)%N then
                        match parse_string_body rest2 with
                        | Some (s, r) => Some (String (ascii_of_N code) s, r)
                        | None => None
                        end
                      else None
                  | None => None
                  end
              | _ => None
              end
            else
              match unescape e with
              | Some c' =>
                  match parse_string_body rest1 with
                  | Some (s, r) => Some (String c' s, r)
                  | None => None
                  end
              | None => None
              end
        end
      else if (N_of_ascii c <? 32)%N then None
      else
        match parse_string_body rest with
        | Some (s, r) => Some (String c s, r)
        | None => None
        end
  end.

Fixpoint parse_value (fuel : nat) (cs : list ascii) : option (value * list ascii) :=
  match fuel with
  | O => None
  | S fuel' =>
      let cs := skip_ws cs in
      match strip_prefix (chars "null") cs with
      | Some r => Some (Null, r)
      | None =>
      match strip_prefix (chars "true") cs with
      | Some r => Some (Bool true, r)
      | None =>
      match strip_prefix (chars "false") cs with
      | Some r => Some (Bool false, r)
      | None =>
      match cs with
      | [] => None
      | c :: rest =>
          if Ascii.eqb c QUOTE then
            '(s, r) ← parse_string_body rest; Some (Str s, r)
          else if Ascii.eqb c "[" then
            match strip_prefix (chars "]") (skip_ws rest) with
            | Some r => Some (Arr [], r)
            | None => '(es, r) ← parse_elements fuel' rest; Some (Arr es, r)
            end
          else if Ascii.eqb c "{" then
            match strip_prefix (chars "}") (skip_ws rest) with
            | Some r => Some (Obj [], r)
            | None => '(ms, r) ← parse_members fuel' rest; Some (Obj (define_all ms), r)
            end
          else None
      end end end end
  end
with parse_elements (fuel : nat) (cs : list ascii) : option (list value * list ascii) :=
  match fuel with
  | O => None
  | S fuel' =>
      '(e, r) ← parse_value fuel' cs;
      match skip_ws r with
      | c :: r' =>
          if Ascii.eqb c "," then '(es, r'') ← parse_elements fuel' r'; Some (e :: es, r'')
          else if Ascii.eqb c "]" then Some ([e], r')
          else None
      | [] => None
      end
  end
with parse_members (fuel : nat) (cs : list ascii)
    : option (list (string * value) * list ascii) :=
  match fuel with
  | O => None
  | S fuel' =>
      match skip_ws cs with
      | q :: r0 =>
          if Ascii.eqb q QUOTE then
            '(k, r1) ← parse_string_body r0;
            match strip_prefix (chars ":") (skip_ws r1) with
            | Some r2 =>
                '(e, r3) ← parse_value fuel' r2;
                match skip_ws r3 with
                | c :: r4 =>
                    if Ascii.eqb c "," then
                      '(ms, r5) ← parse_members fuel' r4; Some ((k, e) :: ms, r5)
                    else if Ascii.eqb c "}" then Some ([(k, e)], r4)
                    else None
                | [] => None
                end
            | None => None
            end
          else None
      | [] => None
      end
  end.

(** [JSON.parse(text)]: one value, then only white space. *)
Definition parse (text : string) : option value :=
  let cs := chars text in
  '(v, r) ← parse_value (S (length cs)) cs;
  match skip_ws r with
  | [] => Some v
  | _ :: _ => None
  end.

(** No object of the value has two properties of the same name. *)
Fixpoint distinct_keys (v : value) : bool :=
  match v with
  | Arr es => forallb distinct_keys es
  | Obj ms => bool_decide (NoDup ms.*1) && forallb (λ m, distinct_keys m.2) ms
  | _ => true
  end.

(** A bound on the depth of the parser's recursion for a value. *)
Fixpoint weight (v : value) : nat :=
  match v with
  | Arr es => S (list_sum (List.map (λ e, S (weight e)) es))
  | Obj ms => S (list_sum (List.map (λ m, S (weight m.2)) ms))
  | _ => 1
  end.

(** Induction over a value and the values nested in it. *)
Fixpoint value_nested_ind (P : value → Prop)
    (HNull : P Null) (HBool : ∀ b, P (Bool b)) (HStr : ∀ s, P (Str s))
    (HArr : ∀ es, Forall P es → P (Arr es))
    (HObj : ∀ ms, Forall (λ m, P m.2) ms → P (Obj ms))
    (v : value) : P v :=
  match v with
  | Null => HNull
  | Bool b => HBool b
  | Str s => HStr s
  | Arr es =>
      HArr es ((fix all (es : list value) : Forall P es :=
                  match es with
                  | [] => @List.Forall_nil _ P
                  | e :: es' =>
                      @List.Forall_cons _ P e es'
                        (value_nested_ind P HNull HBool HStr HArr HObj e) (all es')
                  end) es)
  | Obj ms =>
      HObj ms ((fix all (ms : list (string * value)) : Forall (λ m, P m.2) ms :=
                  match ms with
                  | [] => @List.Forall_nil _ (λ m, P m.2)
                  | m :: ms' =>
                      @List.Forall_cons _ (λ m, P m.2) m ms'
                        (value_nested_ind P HNull HBool HStr HArr HObj m.2) (all ms')
                  end) ms)
  end.

(** Only white space. *)
Definition ws_only (cs : list ascii) : Prop := Forall (λ c, is_ws c = true) cs.

(** The characters a serialized value can start with. *)
Definition opens_value (c : ascii) : Prop :=
  c = "n" ∨ c = "t" ∨ c = "f" ∨ c = QUOTE ∨ c = "[" ∨ c = "{".

(** One property of an object, as SerializeJSONObject writes it. *)
Definition member_text (inner : list ascii) (m : string * value) : list ascii :=
  QuoteJSONString m.1 ++ ":" :: SPACE :: serialize inner m.2.

(** What the round trip of one value asks of the parser. *)
Definition parses_back (v : value) : Prop :=
  distinct_keys v = true →
  ∀ indent rest fuel, ws_only indent → (weight v ≤ fuel)%nat →
    parse_value fuel (serialize indent v ++ rest) = Some (v, rest).

End JSON.

(** ** Queue files *)

(** An entry of a queue, as these functions build it: [{path: filename}]. *)
Record DolphinEntry := { path : string }.

(** [store.getState().tempContainer]: the pending queue and its options (a
    plain object of slp-realtime's [DolphinQueueOptions]). *)
Record TempContainer := {
  dolphinQueue : list DolphinEntry;
  dolphinQueueOptions : list (string * JSON.value)
}.

Definition entry_value (e : DolphinEntry) : JSON.value :=
  JSON.Obj [("path"%string, JSON.Str (path e))].

(** The object literal [{ ...dolphinQueueOptions, queue: dolphinQueue }]. *)
Definition DolphinQueueFormat (options : list (string * JSON.value))
    (queue : list DolphinEntry) : JSON.value :=
  JSON.Obj (JSON.set_property "queue" (JSON.Arr (entry_value <$> queue)) options).

(** Reading a parsed queue file: the paths of its [queue] array, in order,
    and every other property. *)
Definition entry_path (v : JSON.value) : option string :=
  match v with
  | JSON.Obj ms =>
      match JSON.get_property "path" ms with
      | Some (JSON.Str s) => Some s
      | _ => None
      end
  | _ => None
  end.

Definition queue_paths (v : JSON.value) : option (list string) :=
  match v with
  | JSON.Obj ms =>
      match JSON.get_property "queue" ms with
      | Some (JSON.Arr es) => mapM entry_path es
      | _ => None
      end
  | _ => None
  end.

Definition queue_options (v : JSON.value) : list (string * JSON.value) :=
  match v with
  | JSON.Obj ms => filter (λ m, m.1 ≠ "queue"%string) ms
  | _ => []
  end.

(** What the host and the third-party modules supply to one call. *)
Record Host := {
  host_os : NodePath.platform;
  path_join : string → string → string;                      (* path.join *)
  generateDolphinQueuePayload : list DolphinEntry → string;  (* slp-realtime *)
  app_temp : string;                                         (* remote.app.getPath("temp") *)
  Date_now : N;                                              (* Date.now() *)
  writeFile_fulfils : bool;                                  (* outcome of fs.writeFile *)
  writeFile_leaves : option string → option string           (* the file after a rejected write *)
}.

Inductive ConsoleLine :=
| log_queue (queue : list DolphinEntry)   (* console.log(queue) *)
| error_message (msg : string)            (* console.error("...") *)
| error_rejection.                        (* .catch(console.error) *)

(** The process-wide objects these functions touch. *)
Record App := {
  dolphinPlayer : State;
  files : gmap string string;
  tempContainer : TempContainer;
  console : list ConsoleLine;
  launches : list Output
}.

(** How a returned promise settles. *)
Inductive Settled := Fulfilled | Rejected.

Definition console_write (line : ConsoleLine) (app : App) : App :=
  {| dolphinPlayer := dolphinPlayer app; files := files app;
     tempContainer := tempContainer app; console := console app ++ [line];
     launches := launches app |}.

Definition fs_writeFile (file data : string) (app : App) : App :=
  {| dolphinPlayer := dolphinPlayer app; files := <[file := data]> (files app);
     tempContainer := tempContainer app; console := console app;
     launches := launches app |}.

(** A rejected [fs.writeFile]: the file at the path may be as it was, or
    created, truncated or partly written; nothing else changes. *)
Definition fs_writeFile_rejected (h : Host) (file : string) (app : App) : App :=
  {| dolphinPlayer := dolphinPlayer app;
     files := partial_alter (writeFile_leaves h) file (files app);
     tempContainer := tempContainer app; console := console app;
     launches := launches app |}.

Definition randomTempJSONFile (h : Host) : string :=
  let folder := app_temp h in
  let filename := (pretty (Date_now h) +:+ "_dolphin_queue.json")%string in
  path_join h folder filename.

Definition openComboInDolphin (filePath : string)
    (options : option PartialDolphinPlayerOptions) (app : App) : App :=
  let '(player, out) := dolphinPlayer_loadJSON filePath options (dolphinPlayer app) in
  {| dolphinPlayer := player; files := files app; tempContainer := tempContainer app;
     console := console app; launches := launches app ++ out |}.

(** A call of [loadPayloadIntoDolphin] suspended at
    [await fs.writeFile(outputFile, payload)]: the file name was computed
    before the call suspended. *)
Record PendingLoad := {
  outputFile : string;
  pending_payload : string;
  pending_options : option PartialDolphinPlayerOptions
}.

(** The statements of [loadPayloadIntoDolphin] before the [await]. *)
Definition loadPayload_begin (h : Host) (payload : string)
    (options : option PartialDolphinPlayerOptions) : PendingLoad :=
  {| outputFile := randomTempJSONFile h; pending_payload := payload;
     pending_options := options |}.

(** The statement after the [await], run once the write is fulfilled. *)
Definition loadPayload_resume (pending : PendingLoad) (app : App) : App :=
  openComboInDolphin (outputFile pending) (pending_options pending) app.

(** One call of [loadPayloadIntoDolphin] from its start to the settlement of
    its promise, when nothing else of the application runs while the write
    is pending. *)
Definition loadPayloadIntoDolphin (h : Host) (payload : string)
    (options : option PartialDolphinPlayerOptions) (app : App) : App * Settled :=
  let pending := loadPayload_begin h payload options in
  if writeFile_fulfils h
  then (loadPayload_resume pending (fs_writeFile (outputFile pending) payload app), Fulfilled)
  else (fs_writeFile_rejected h (outputFile pending) app, Rejected).

(** [path.extname(filename) === ".slp"] *)
Definition is_replay (os : NodePath.platform) (filename : string) : Prop :=
  NodePath.extname os filename = ".slp"%string.

#[global] Instance is_replay_dec os filename : Decision (is_replay os filename).
Proof. unfold is_replay. apply _. Defined.

(** [filename => ({path: filename})] *)
Definition as_entry (filename : string) : DolphinEntry := {| path := filename |}.

Definition loadSlpFilesInDolphin (h : Host) (filenames : list string)
    (options : option PartialDolphinPlayerOptions) (app : App) : App * Settled :=
  let queue := as_entry <$> filter (is_replay (host_os h)) filenames in
  let app := console_write (log_queue queue) app in
  if (length queue =? 0)%nat then (app, Fulfilled)
  else
    let payload := generateDolphinQueuePayload h queue in
    loadPayloadIntoDolphin h payload options app.

Definition loadQueueIntoDolphin (h : Host)
    (options : option PartialDolphinPlayerOptions) (app : App) : App :=
  let tc := tempContainer app in
  let queue := DolphinQueueFormat (dolphinQueueOptions tc) (dolphinQueue tc) in
  let payload := JSON.stringify queue in
  match loadPayloadIntoDolphin h payload options app with
  | (app', Fulfilled) => app'
  | (app', Rejected) => console_write error_rejection app'
  end.

(** [!p] for what [getFilePath] resolves to: [undefined] and the empty
    string are falsy. *)
Definition no_path (p : option string) : bool :=
  match p with
  | None => true
  | Some s => bool_decide (s = EmptyString)
  end.

(** [saveQueueToFile], given the value [await getFilePath(options, true)]
    produced. *)
Definition saveQueueToFile (h : Host) (p : option string) (app : App) : App * Settled :=
  if no_path p then
    (console_write (error_message "Could not save queue because path is undefined") app,
     Fulfilled)
  else
    let tc := tempContainer app in
    let queue := DolphinQueueFormat (dolphinQueueOptions tc) (dolphinQueue tc) in
    let payload := JSON.stringify queue in
    if writeFile_fulfils h
    then (fs_writeFile (default EmptyString p) payload app, Fulfilled)
    else (fs_writeFile_rejected h (default EmptyString p) app, Rejected).

(** Sample queue data. *)
Definition sample_options : list (string * JSON.value) :=
  [("mode"%string, JSON.Str "queue"); ("isRealTimeMode"%string, JSON.Bool false)].

Definition sample_queue : list DolphinEntry :=
  [{| path := "C:\replays\Game_1.slp" |}; {| path := "b.slp" |}].

(** On this host [path_join] is what win32 [path.join] returns for a
    normalised folder without a trailing separator and a plain file name. *)
Definition sample_host : Host :=
  {| host_os := NodePath.win32;
     path_join := λ folder filename, (folder +:+ "\" +:+ filename)%string;
     generateDolphinQueuePayload := λ queue, JSON.stringify (DolphinQueueFormat [] queue);
     app_temp := "C:\Users\me\AppData\Local\Temp";
     Date_now := 1600000000000;
     writeFile_fulfils := true;
     writeFile_leaves := λ _, Some EmptyString |}.

Definition sample_app : App :=
  {| dolphinPlayer := new_DolphinRecorder false false 0;
     files := ∅;
     tempContainer := {| dolphinQueue := sample_queue; dolphinQueueOptions := sample_options |};
     console := [];
     launches := [] |}.

(** ** Notions for the other subscriptions and for counting

    What the engine-exited subscription may do, how many commands and
    suspensions a routine has left, and the inputs that let a waiting
    subscription go on. *)

(** A routine that can only do what [_stopRecording()] does: reset the
    basename, ask the device, send STOP. *)
Fixpoint stop_only {A} (m : Proc A) : Prop :=
  match m with
  | Ret _ => True
  | Log _ _ => False
  | QueryRecording k => ∀ b, stop_only (k b)
  | ReadStartAction k => ∀ a, stop_only (k a)
  | ReadEndAction k => ∀ a, stop_only (k a)
  | ReadDolphin k => ∀ b, stop_only (k b)
  | NextBasename n k => n = EmptyString ∧ stop_only k
  | Kill _ => False
  | AwaitCommand a k => a = STOP ∧ stop_only k
  | AwaitDelay _ _ => False
  end.

(** The effects of the engine-exited subscription: the filter's query, the
    basename reset, the recording query, STOP, and the report of a
    rejection. *)
Definition quit_effect (e : Effect) : Prop :=
  match e with
  | EIsConnected _ | EIsRecording _ | EUnhandledError => True
  | EBasenameNext name => name = EmptyString
  | ESetRecordingState action => action = STOP
  | _ => False
  end.

Definition quit_outputs (out : list Output) : Prop :=
  Forall (λ o : Output, o.1 = dolphinQuit → quit_effect o.2) out.

Definition pipe_stop_only {E} (p : Pipe E) : Prop :=
  match p with
  | Busy _ k _ => stop_only k
  | _ => True
  end.

(** The most commands a routine can still send. *)
Fixpoint budget {A} (m : Proc A) : nat :=
  match m with
  | Ret _ => 0
  | Log _ k => budget k
  | QueryRecording k => Nat.max (budget (k true)) (budget (k false))
  | ReadStartAction k =>
      Nat.max (Nat.max (budget (k START)) (budget (k PAUSE)))
        (Nat.max (budget (k UNPAUSE)) (budget (k STOP)))
  | ReadEndAction k =>
      Nat.max (Nat.max (budget (k START)) (budget (k PAUSE)))
        (Nat.max (budget (k UNPAUSE)) (budget (k STOP)))
  | ReadDolphin k => Nat.max (budget (k true)) (budget (k false))
  | NextBasename _ k => budget k
  | Kill k => budget k
  | AwaitCommand _ k => S (budget k)
  | AwaitDelay _ k => budget k
  end.

(** The commands the handler in progress, if any, can still send. *)
Definition credit {E} (p : Pipe E) : nat :=
  match p with
  | Busy _ k _ => budget k
  | _ => 0%nat
  end.

(** The commands among some effects, in order. *)
Definition sent (out : list Effect) : list OBSRecordingAction :=
  out ≫= λ e, match e with ESetRecordingState a => [a] | _ => [] end.

(** The stored actions belong together. *)
Definition paired (w : World) : Prop :=
  (startAction w = START ∧ endAction w = STOP)
  ∨ (startAction w = UNPAUSE ∧ endAction w = PAUSE).

(** The most suspensions a routine can still go through. *)
Fixpoint awaits {A} (m : Proc A) : nat :=
  match m with
  | Ret _ => 0
  | Log _ k => awaits k
  | QueryRecording k => Nat.max (awaits (k true)) (awaits (k false))
  | ReadStartAction k =>
      Nat.max (Nat.max (awaits (k START)) (awaits (k PAUSE)))
        (Nat.max (awaits (k UNPAUSE)) (awaits (k STOP)))
  | ReadEndAction k =>
      Nat.max (Nat.max (awaits (k START)) (awaits (k PAUSE)))
        (Nat.max (awaits (k UNPAUSE)) (awaits (k STOP)))
  | ReadDolphin k => Nat.max (awaits (k true)) (awaits (k false))
  | NextBasename _ k => awaits k
  | Kill k => awaits k
  | AwaitCommand _ k => S (awaits k)
  | AwaitDelay _ k => S (awaits k)
  end.

(** A bound on the inputs a subscription needs to become idle: a handler
    goes through at most two suspensions. *)
Definition effort {E} (p : Pipe E) : nat :=
  match p with
  | Busy _ k buffer => S (awaits k) + 3 * length buffer
  | _ => 0
  end.

(** The inputs that let a waiting playback subscription go on: time passes
    until the deadline and the timer fires, or the command is fulfilled. *)
Definition release (wt : Wait) (w : World) : list Input :=
  match wt with
  | WaitDelay deadline =>
      [clock_advances (Z.max 0 (deadline - now w)); timer_fires playbackStatus]
  | WaitCommand _ => [command_settles playbackStatus true]
  end.

(** Time passing, the playback timer firing, a playback command being
    fulfilled. *)
Definition releasing (i : Input) : Prop :=
  match i with
  | clock_advances _ => True
  | timer_fires src => src = playbackStatus
  | command_settles src fulfilled => src = playbackStatus ∧ fulfilled = true
  | _ => False
  end.

(** ** Notions for the scans of [basename] and [extname] *)

(** The characters of a string from index [off] on, each with its index. *)
Definition indexed (off : nat) (p : list ascii) : list (Z * ascii) :=
  zip (Z.of_nat <$> seq off (length p)) p.

(** No character is a separator; every character is one. *)
Definition no_separator (os : NodePath.platform) (cs : list ascii) : Prop :=
  Forall (λ c, NodePath.isPathSeparator os c = false) cs.

Definition all_separators (os : NodePath.platform) (cs : list ascii) : Prop :=
  Forall (λ c, NodePath.isPathSeparator os c = true) cs.

(** What the scan of [extname] knows when the characters from index [j] on,
    [back], have been visited. *)
Definition ext_inv (os : NodePath.platform) (j : nat) (back : list ascii)
    (st : NodePath.ExtScan) : Prop :=
  (NodePath.e_end st = -1 → NodePath.startDot st = -1 ∧ all_separators os back)
  ∧ (NodePath.e_end st ≠ -1 →
       ∃ k : nat, NodePath.e_end st = Z.of_nat (j + k)
                  ∧ (1 ≤ k ≤ length back)%nat ∧ all_separators os (drop k back))
  ∧ (NodePath.startDot st ≠ -1 →
       NodePath.e_end st ≠ -1 ∧ Z.of_nat j ≤ NodePath.startDot st < NodePath.e_end st).

(** What it knows at the end. *)
Definition ext_final (os : NodePath.platform) (p : list ascii) (st : NodePath.ExtScan) : Prop :=
  NodePath.startDot st ≠ -1 → NodePath.e_end st ≠ -1 →
  ∃ a b : nat, NodePath.startDot st = Z.of_nat a ∧ NodePath.e_end st = Z.of_nat b
               ∧ (a < b ≤ length p)%nat ∧ all_separators os (drop b p).

(** What the scan of [basename] knows when the characters from index [j]
    on, [back], have been visited: once the end is set, no separator lies
    between [j] and the end. *)
Definition base_inv (os : NodePath.platform) (start j : nat) (back : list ascii)
    (st : NodePath.BaseScan) : Prop :=
  NodePath.b_start st = Z.of_nat start
  ∧ (NodePath.b_end st ≠ -1 →
       NodePath.b_matchedSlash st = false
       ∧ ∃ k : nat, NodePath.b_end st = Z.of_nat (j + k)
                    ∧ (k ≤ length back)%nat ∧ no_separator os (take k back)).

(** What it knows at the end. *)
Definition base_final (os : NodePath.platform) (p : list ascii) (st : NodePath.BaseScan)
    : Prop :=
  NodePath.b_end st ≠ -1 →
  ∃ a b : nat, NodePath.b_start st = Z.of_nat a ∧ NodePath.b_end st = Z.of_nat b
               ∧ (a ≤ b)%nat ∧ no_separator os (take (b - a) (drop a p)).

(** A file name that ends in [.slp] after at least one character that is
    neither a separator nor a colon. *)
Definition slp_name (os : NodePath.platform) (filename : string) : Prop :=
  ∃ stem c, filename = (stem +:+ String c ".slp")%string
            ∧ NodePath.isPathSeparator os c = false ∧ c ≠ ":"%char.

(** The file name [randomTempJSONFile] builds from [Date.now()]. *)
Definition temp_file_name (t : N) : string := (pretty t +:+ "_dolphin_queue.json")%string.

(** The sample host one millisecond later. *)
Definition sample_host_later : Host :=
  {| host_os := host_os sample_host; path_join := path_join sample_host;
     generateDolphinQueuePayload := generateDolphinQueuePayload sample_host;
     app_temp := app_temp sample_host; Date_now := Date_now sample_host + 1;
     writeFile_fulfils := true; writeFile_leaves := writeFile_leaves sample_host |}.

(** ** Version update messages

    The senders of the update-status notifications. *)

Module VersionUpdate.

(** The members of [UpdateStatus] (common/types) that this file sends. *)
Inductive UpdateStatus := NO_UPDATE | UPDATE_AVAILABLE | DOWNLOAD_COMPLETE | UPDATE_ERROR.

(** The [payload?: any] of a status message, as the three senders fill
    it. *)
Inductive Payload :=
| undefined
| version_info (version lastChecked : string)
| error_text (message : string).

(** The object [{ status, payload }]. *)
Record StatusMessage := { status : UpdateStatus; payload : Payload }.

Inductive Message := VersionUpdateStatus.

(** What the imports and the clock supply to one call. *)
Record Env := {
  clean : string → option string;  (* semver's clean: null when it finds no version *)
  needsUpdate : string → bool;     (* common/githubReleaseVersions *)
  toISOString : string             (* new Date().toISOString() *)
}.

(** The messages handed over so far, oldest first. *)
Definition Outbox : Type := list (Message * StatusMessage).

(** Modelled from the spec: [sendMessage] of [./sendMessage], a one-shot
    notification to the surrounding application.  A call is recorded as one
    message handed over. *)
Definition sendMessage (m : Message) (body : StatusMessage) (outbox : Outbox) : Outbox :=
  outbox ++ [(m, body)].

Definition sendVersionUpdateStatus (status : UpdateStatus) (payload : Payload)
    (outbox : Outbox) : Outbox :=
  sendMessage VersionUpdateStatus {| status := status; payload := payload |} outbox.

(** [a || b] for [a : string | null]: [null] and the empty string are
    falsy. *)
Definition or_else (a : option string) (b : string) : string :=
  match a with
  | Some s => if bool_decide (s = EmptyString) then b else s
  | None => b
  end.

Definition sendLatestVersion (env : Env) (version : string) (outbox : Outbox) : Outbox :=
  let versionString := or_else (clean env version) version in
  let payload := version_info versionString (toISOString env) in
  if needsUpdate env versionString
  then sendVersionUpdateStatus UPDATE_AVAILABLE payload outbox
  else sendVersionUpdateStatus NO_UPDATE payload outbox.

Definition sendDownloadComplete (outbox : Outbox) : Outbox :=
  sendVersionUpdateStatus DOWNLOAD_COMPLETE undefined outbox.

Definition sendUpdateError (message : string) (outbox : Outbox) : Outbox :=
  sendVersionUpdateStatus UPDATE_ERROR (error_text message) outbox.

End VersionUpdate.

(** * Properties

    ** The pipeline discipline *)

Lemma items_tag i src out : items (i, tag src out) = Got i :: did src out.
Proof.
  unfold items, tag, did. simpl. f_equal.
  rewrite <- list_fmap_compose. reflexivity.
Qed.

Lemma observe_all_app sub ph its1 its2 :
  observe_all sub ph (its1 ++ its2)
  = observe_all sub ph its1 ≫= λ ph', observe_all sub ph' its2.
Proof.
  revert ph. induction its1 as [|it its1 IH]; intros ph; simpl; [reflexivity|].
  destruct (observe sub ph it); simpl; [apply IH|reflexivity].
Qed.

Lemma observe_other sub src ph out :
  src ≠ sub → observe_all sub ph (did src out) = Some ph.
Proof.
  intros Hne. induction out as [|e out IH]; simpl; [reflexivity|].
  destruct (decide (src = sub)); [contradiction|]. exact IH.
Qed.

Lemma run_sync_observe {A} (m : Proc A) sub w w' out r :
  run_sync m w = (w', out, r) →
  observe_all sub Ready (did sub out) = Some (outcome_phase r).
Proof.
  revert w w' out r.
  induction m as [a|p k IH|k IH|k IH|k IH|k IH|n k IH|k IH|a k IH|ms k IH];
    intros w w' out r; simpl.
  - intros [= <- <- <-]. reflexivity.
  - destruct (run_sync k w) as [[w1 out1] r1] eqn:E. intros [= <- <- <-].
    simpl. destruct (decide (sub = sub)); [|congruence]. eapply IH, E.
  - destruct (run_sync (k (obs_recording w)) w) as [[w1 out1] r1] eqn:E.
    intros [= <- <- <-].
    simpl. destruct (decide (sub = sub)); [|congruence]. eapply IH, E.
  - apply IH.
  - apply IH.
  - apply IH.
  - destruct (run_sync k (with_basename n w)) as [[w1 out1] r1] eqn:E.
    intros [= <- <- <-].
    simpl. destruct (decide (sub = sub)); [|congruence]. eapply IH, E.
  - destruct (run_sync k w) as [[w1 out1] r1] eqn:E. intros [= <- <- <-].
    simpl. destruct (decide (sub = sub)); [|congruence]. eapply IH, E.
  - intros [= <- <- <-]. simpl. destruct (decide (sub = sub)); [|congruence]. reflexivity.
  - intros [= <- <- <-]. simpl. destruct (decide (sub = sub)); [|congruence]. reflexivity.
Qed.

Lemma drain_observe {E} (project : E → Proc unit) sub buffer w w' out p :
  drain project buffer w = (w', out, p) →
  observe_all sub Ready (did sub out) = Some (phase_of p).
Proof.
  revert w w' out p. induction buffer as [|e rest IH]; intros w w' out p; simpl.
  - intros [= <- <- <-]. reflexivity.
  - destruct (run_sync (project e) w) as [[w1 out1] r1] eqn:E1.
    pose proof (run_sync_observe _ sub _ _ _ _ E1) as H1.
    destruct r1 as [[]|wt k].
    + destruct (drain project rest w1) as [[w2 out2] p2] eqn:E2.
      intros [= <- <- <-]. unfold did. rewrite fmap_app, observe_all_app.
      fold (did sub out1). rewrite H1. simpl. eapply IH, E2.
    + intros [= <- <- <-]. rewrite H1. destruct wt; reflexivity.
Qed.

Lemma pipe_resume_observe {E} (project : E → Proc unit) sub k buffer w w' out p :
  pipe_resume project k buffer w = (w', out, p) →
  observe_all sub Ready (did sub out) = Some (phase_of p).
Proof.
  unfold pipe_resume.
  destruct (run_sync k w) as [[w1 out1] r1] eqn:E1.
  pose proof (run_sync_observe _ sub _ _ _ _ E1) as H1.
  destruct r1 as [[]|wt k'].
  - destruct (drain project buffer w1) as [[w2 out2] p2] eqn:E2.
    intros [= <- <- <-]. unfold did. rewrite fmap_app, observe_all_app.
    fold (did sub out1). rewrite H1. simpl. eapply drain_observe, E2.
  - intros [= <- <- <-]. rewrite H1. destruct wt; reflexivity.
Qed.

Lemma gate_observe sub ph w rest :
  ph ≠ TornDown →
  observe_all sub ph (did sub (gate_effects w ++ rest)) = observe_all sub ph (did sub rest).
Proof.
  intros Hph. unfold gate_effects. destruct (recordingEnabled w); [|reflexivity].
  simpl. destruct (decide (sub = sub)); [|congruence].
  destruct ph; try reflexivity. congruence.
Qed.

Lemma pipe_next_observe {E} (project : E → Proc unit) sub e p w w' out p' :
  pipe_next project e p w = (w', out, p') →
  observe_all sub (phase_of p) (did sub out) = Some (phase_of p').
Proof.
  destruct p as [|wt k buffer|]; simpl.
  - destruct (run_sync (project e) w) as [[w1 out1] r1] eqn:E1.
    pose proof (run_sync_observe _ sub _ _ _ _ E1) as H1.
    destruct r1 as [[]|wt k].
    + intros [= <- <- <-]. rewrite app_nil_r. exact H1.
    + intros [= <- <- <-]. rewrite H1. destruct wt; reflexivity.
  - intros [= <- <- <-]. reflexivity.
  - intros [= <- <- <-]. reflexivity.
Qed.

Lemma flatten_cons t tr : flatten (t :: tr) = items t ++ flatten tr.
Proof. reflexivity. Qed.

Section Serial.
Variable os : NodePath.platform.

Lemma emit_playback_observe payload s s' out :
  emit_playback payload s = (s', out) →
  observe_all playbackStatus (phase_of (playback_pipe s))
    (items (playbackStatus_emits payload, out))
  = Some (phase_of (playback_pipe s')).
Proof.
  unfold emit_playback.
  assert (playback_pipe s ≠ Errored →
    (if armed (world s)
     then let '(w, out0, p') :=
            pipe_next _handleDolphinPlayback payload (playback_pipe s) (world s) in
          ({| world := w; playback_pipe := p'; quit_pipe := quit_pipe s |},
           tag playbackStatus (gate_effects (world s) ++ out0))
     else (s, tag playbackStatus (gate_effects (world s)))) = (s', out) →
    observe_all playbackStatus (phase_of (playback_pipe s))
      (items (playbackStatus_emits payload, out)) = Some (phase_of (playback_pipe s'))) as Hlive.
  { intros Hne. destruct (armed (world s)).
    - destruct (pipe_next _ _ _ _) as [[w out0] p'] eqn:E. intros [= <- <-].
      rewrite items_tag. simpl. rewrite gate_observe.
      + eapply pipe_next_observe, E.
      + destruct (playback_pipe s) as [|[]|]; simpl; congruence.
    - intros [= <- <-]. rewrite items_tag. simpl.
      rewrite <- (app_nil_r (gate_effects _)), gate_observe; [reflexivity|].
      destruct (playback_pipe s) as [|[]|]; simpl; congruence. }
  destruct (playback_pipe s) eqn:Ep.
  - intros H. apply Hlive in H; [|congruence]. simpl in H. exact H.
  - intros H. apply Hlive in H; [|congruence]. exact H.
  - intros [= <- <-]. simpl. rewrite Ep. reflexivity.
Qed.

Lemma step_observe_playback s i s' out :
  step os s i = Some (s', out) →
  observe_all playbackStatus (phase_of (playback_pipe s)) (items (i, out))
  = Some (phase_of (playback_pipe s')).
Proof.
  destruct i as [payload| |fullpath|file options|src|src ok|c r|h|dt]; cbn [step].
  - intros [= H]. apply emit_playback_observe, H.
  - intros [= H]. revert H. unfold emit_quit.
    assert (∀ o, observe_all playbackStatus (phase_of (playback_pipe s))
                   (items (dolphinQuit_emits, tag dolphinQuit o))
                 = Some (phase_of (playback_pipe s))) as Hq.
    { intros o. rewrite items_tag. simpl. apply observe_other. discriminate. }
    destruct (quit_pipe s); destruct (armed (world s));
      try destruct (pipe_next _ _ _ _) as [[w out0] p'];
      intros [= <- <-]; simpl playback_pipe; try apply Hq; reflexivity.
  - intros [= <- <-]. reflexivity.
  - intros [= <- <-]. reflexivity.
  - destruct src; try discriminate.
    + destruct (playback_pipe s) as [|[d|a] k buffer|] eqn:Ep; try discriminate.
      destruct (d <=? now (world s)); [|discriminate].
      unfold resume_playback.
      destruct (pipe_resume _ _ _ _) as [[w out0] p'] eqn:E. intros [= <- <-].
      rewrite items_tag. simpl. eapply pipe_resume_observe, E.
    + destruct (quit_pipe s) as [|[d|a] k buffer|] eqn:Ep; try discriminate.
      destruct (d <=? now (world s)); [|discriminate].
      unfold resume_quit.
      destruct (pipe_resume _ _ _ _) as [[w out0] p'] eqn:E. intros [= <- <-].
      rewrite items_tag. simpl. apply observe_other. discriminate.
  - destruct src; try discriminate.
    + destruct (playback_pipe s) as [|[d|a] k buffer|] eqn:Ep; try discriminate.
      destruct ok.
      * unfold resume_playback.
        destruct (pipe_resume _ _ _ _) as [[w out0] p'] eqn:E. intros [= <- <-].
        rewrite items_tag. simpl. eapply pipe_resume_observe, E.
      * intros [= <- <-]. reflexivity.
    + destruct (quit_pipe s) as [|[d|a] k buffer|] eqn:Ep; try discriminate.
      destruct ok.
      * unfold resume_quit.
        destruct (pipe_resume _ _ _ _) as [[w out0] p'] eqn:E. intros [= <- <-].
        rewrite items_tag. simpl. apply observe_other. discriminate.
      * intros [= <- <-]. reflexivity.
  - intros [= <- <-]. reflexivity.
  - intros [= <- <-]. reflexivity.
  - destruct (0 <=? dt); [|discriminate]. intros [= <- <-]. reflexivity.
Qed.

Lemma run_observe_playback ins : ∀ s s' tr,
  run os s ins = Some (s', tr) →
  observe_all playbackStatus (phase_of (playback_pipe s)) (flatten tr)
  = Some (phase_of (playback_pipe s')).
Proof.
  induction ins as [|i ins IH]; intros s s' tr; simpl.
  - intros [= <- <-]. reflexivity.
  - destruct (step os s i) as [[s1 out]|] eqn:Es; [|discriminate].
    destruct (run os s1 ins) as [[s2 tr2]|] eqn:Er; [|discriminate].
    intros [= <- <-]. rewrite flatten_cons.
    rewrite observe_all_app, (step_observe_playback _ _ _ _ Es). simpl.
    apply IH, Er.
Qed.

End Serial.

(** ** First in, first out *)

Lemma logged_tag_playback out : tag playbackStatus out ≫= logged = logs out.
Proof.
  unfold tag, logs. induction out as [|e out IH]; [reflexivity|].
  rewrite fmap_cons, !bind_cons, IH. destruct e; reflexivity.
Qed.

Lemma logged_tag_other src out :
  src ≠ playbackStatus → tag src out ≫= logged = [].
Proof.
  intros Hne. unfold tag. induction out as [|e out IH]; [reflexivity|].
  rewrite fmap_cons, bind_cons, IH. destruct src; try congruence; reflexivity.
Qed.

Lemma logs_app out1 out2 : logs (out1 ++ out2) = logs out1 ++ logs out2.
Proof. unfold logs. apply bind_app. Qed.

Lemma logs_gate w : logs (gate_effects w) = [].
Proof. unfold gate_effects. destruct (recordingEnabled w); reflexivity. Qed.

Lemma log_free_run {A} (m : Proc A) w w' out r :
  log_free m → run_sync m w = (w', out, r) →
  logs out = [] ∧ match r with Suspended _ k => log_free k | Finished _ => True end.
Proof.
  revert w w' out r.
  induction m as [a|p k IH|k IH|k IH|k IH|k IH|n k IH|k IH|a k IH|ms k IH];
    intros w w' out r Hfree; simpl in *.
  - intros [= <- <- <-]. done.
  - done.
  - destruct (run_sync (k (obs_recording w)) w) as [[w1 out1] r1] eqn:E.
    intros [= <- <- <-]. eapply IH in E; [|apply Hfree]. exact E.
  - intros E. eapply IH in E; [|apply Hfree]. exact E.
  - intros E. eapply IH in E; [|apply Hfree]. exact E.
  - intros E. eapply IH in E; [|apply Hfree]. exact E.
  - destruct (run_sync k (with_basename n w)) as [[w1 out1] r1] eqn:E.
    intros [= <- <- <-]. eapply IH in E; [|apply Hfree]. exact E.
  - destruct (run_sync k w) as [[w1 out1] r1] eqn:E.
    intros [= <- <- <-]. eapply IH in E; [|apply Hfree]. exact E.
  - intros [= <- <- <-]. done.
  - intros [= <- <- <-]. done.
Qed.

Lemma handler_shape payload :
  ∃ m, _handleDolphinPlayback payload = Log payload m ∧ log_free m.
Proof.
  unfold _handleDolphinPlayback. eexists. split; [reflexivity|].
  destruct (status payload); simpl.
  - intros []; simpl; done.
  - destruct (game_ended payload); simpl; done.
  - intros []; simpl; intros []; simpl; done.
  - done.
Qed.

Lemma handler_logs payload w w' out r :
  run_sync (_handleDolphinPlayback payload) w = (w', out, r) →
  logs out = [payload] ∧ match r with Suspended _ k => log_free k | Finished _ => True end.
Proof.
  destruct (handler_shape payload) as (m & -> & Hfree). simpl.
  destruct (run_sync m w) as [[w1 out1] r1] eqn:E. intros [= <- <- <-].
  destruct (log_free_run _ _ _ _ _ Hfree E) as [Hl Hk].
  split; [|exact Hk]. unfold logs in *. rewrite bind_cons, Hl. reflexivity.
Qed.

Lemma drain_fifo buffer w w' out p :
  drain _handleDolphinPlayback buffer w = (w', out, p) →
  buffer = logs out ++ waiting p ∧ pipe_quiet p ∧ p ≠ Errored.
Proof.
  revert w w' out p. induction buffer as [|e rest IH]; intros w w' out p; cbn [drain].
  - intros [= <- <- <-]. done.
  - destruct (run_sync (_handleDolphinPlayback e) w) as [[w1 out1] r1] eqn:E1.
    destruct (handler_logs _ _ _ _ _ E1) as [Hl Hk].
    destruct r1 as [[]|wt k].
    + destruct (drain _handleDolphinPlayback rest w1) as [[w2 out2] p2] eqn:E2. intros [= <- <- <-].
      destruct (IH _ _ _ _ E2) as (Hr & Hq & Hne).
      rewrite logs_app, Hl. simpl. split; [congruence|done].
    + intros [= <- <- <-]. rewrite Hl. done.
Qed.

Lemma pipe_resume_fifo k buffer w w' out p :
  log_free k →
  pipe_resume _handleDolphinPlayback k buffer w = (w', out, p) →
  buffer = logs out ++ waiting p ∧ pipe_quiet p ∧ p ≠ Errored.
Proof.
  intros Hfree. unfold pipe_resume.
  destruct (run_sync k w) as [[w1 out1] r1] eqn:E1.
  destruct (log_free_run _ _ _ _ _ Hfree E1) as [Hl Hk].
  destruct r1 as [[]|wt k'].
  - destruct (drain _handleDolphinPlayback buffer w1) as [[w2 out2] p2] eqn:E2. intros [= <- <- <-].
    rewrite logs_app, Hl. simpl. eapply drain_fifo, E2.
  - intros [= <- <- <-]. rewrite Hl. done.
Qed.

Lemma pipe_next_fifo e p w w' out p' :
  pipe_quiet p → p ≠ Errored →
  pipe_next _handleDolphinPlayback e p w = (w', out, p') →
  waiting p ++ [e] = logs out ++ waiting p' ∧ pipe_quiet p' ∧ p' ≠ Errored.
Proof.
  intros Hq Hne. destruct p as [|wt k buffer|]; cbn [pipe_next waiting].
  - intros H. apply drain_fifo in H. exact H.
  - intros [= <- <- <-]. done.
  - congruence.
Qed.

Lemma gate_accepts w out :
  armed w = true →
  (playbackStatus, EIsConnected true) ∈ tag playbackStatus (gate_effects w ++ out).
Proof.
  unfold armed, gate_effects. intros [-> ->]%andb_true_iff. simpl. apply list_elem_of_here.
Qed.

Lemma gate_rejects w :
  armed w = false →
  (playbackStatus, EIsConnected true) ∉ tag playbackStatus (gate_effects w).
Proof.
  unfold armed, gate_effects. destruct (recordingEnabled w); simpl.
  - intros ->. intros [H|H]%elem_of_cons; [discriminate|]. inversion H.
  - intros _ H. inversion H.
Qed.

Section Fifo.
Variable os : NodePath.platform.

Lemma emit_playback_fifo payload s s' out :
  pipe_quiet (playback_pipe s) →
  emit_playback payload s = (s', out) →
  pipe_quiet (playback_pipe s')
  ∧ (playback_pipe s = Errored → playback_pipe s' = Errored)
  ∧ (playback_pipe s' ≠ Errored →
       waiting (playback_pipe s) ++ accepted_step (playbackStatus_emits payload, out)
       = (out ≫= logged) ++ waiting (playback_pipe s'))
  ∧ (playback_pipe s' = Errored →
       out ≫= logged = [] ∧ accepted_step (playbackStatus_emits payload, out) = []).
Proof.
  intros Hq. unfold emit_playback.
  assert (playback_pipe s ≠ Errored →
    (if armed (world s)
     then let '(w, out0, p') :=
            pipe_next _handleDolphinPlayback payload (playback_pipe s) (world s) in
          ({| world := w; playback_pipe := p'; quit_pipe := quit_pipe s |},
           tag playbackStatus (gate_effects (world s) ++ out0))
     else (s, tag playbackStatus (gate_effects (world s)))) = (s', out) →
    pipe_quiet (playback_pipe s')
    ∧ (playback_pipe s = Errored → playback_pipe s' = Errored)
    ∧ (playback_pipe s' ≠ Errored →
         waiting (playback_pipe s) ++ accepted_step (playbackStatus_emits payload, out)
         = (out ≫= logged) ++ waiting (playback_pipe s'))
    ∧ (playback_pipe s' = Errored →
         out ≫= logged = [] ∧ accepted_step (playbackStatus_emits payload, out) = [])) as Hlive.
  { intros Hne. destruct (armed (world s)) eqn:Ea.
    - destruct (pipe_next _ _ _ _) as [[w out0] p'] eqn:E. intros [= <- <-].
      destruct (pipe_next_fifo _ _ _ _ _ _ Hq Hne E) as (Hf & Hq' & Hne').
      cbn [playback_pipe]. split_and!; [done|done| |done].
      intros _. unfold accepted_step. cbn [fst snd].
      rewrite bool_decide_eq_true_2 by (apply gate_accepts, Ea).
      rewrite logged_tag_playback, logs_app, logs_gate. exact Hf.
    - intros [= <- <-]. split_and!; [done|done| |done].
      intros _. unfold accepted_step. cbn [fst snd].
      rewrite bool_decide_eq_false_2 by (apply gate_rejects, Ea).
      rewrite logged_tag_playback, logs_gate, app_nil_r. reflexivity. }
  destruct (playback_pipe s) eqn:Ep.
  - intros H. apply Hlive in H; [|congruence]. exact H.
  - intros H. apply Hlive in H; [|congruence]. exact H.
  - intros [= <- <-]. rewrite Ep. split_and!; done.
Qed.

Lemma step_fifo s i s' out :
  pipe_quiet (playback_pipe s) →
  step os s i = Some (s', out) →
  pipe_quiet (playback_pipe s')
  ∧ (playback_pipe s = Errored → playback_pipe s' = Errored)
  ∧ (playback_pipe s' ≠ Errored →
       waiting (playback_pipe s) ++ accepted_step (i, out)
       = (out ≫= logged) ++ waiting (playback_pipe s'))
  ∧ (playback_pipe s' = Errored → out ≫= logged = [] ∧ accepted_step (i, out) = []).
Proof.
  intros Hq.
  assert (∀ o, tag dolphinQuit o ≫= logged = []) as Hql
    by (intros; apply logged_tag_other; discriminate).
  destruct i as [payload| |fullpath|file options|src|src ok|c r|h|dt]; cbn [step].
  - intros [= H]. apply emit_playback_fifo; assumption.
  - intros [= H]. revert H. unfold emit_quit.
    destruct (quit_pipe s); destruct (armed (world s));
      try destruct (pipe_next _ _ _ _) as [[w out0] p'];
      intros [= <- <-]; cbn [playback_pipe]; unfold accepted_step; cbn [fst snd];
      rewrite ?Hql, ?app_nil_r; split_and!; done.
  - intros [= <- <-]. cbn. rewrite app_nil_r. done.
  - intros [= <- <-]. cbn. rewrite app_nil_r. done.
  - destruct src; try discriminate.
    + destruct (playback_pipe s) as [|[d|a] k buffer|] eqn:Ep; try discriminate.
      destruct (d <=? now (world s)); [|discriminate].
      unfold resume_playback.
      destruct (pipe_resume _ _ _ _) as [[w out0] p'] eqn:E. intros [= <- <-].
      destruct (pipe_resume_fifo _ _ _ _ _ _ Hq E) as (Hf & Hq' & Hne').
      cbn [playback_pipe waiting]. unfold accepted_step. cbn [fst snd].
      rewrite logged_tag_playback, app_nil_r. split_and!; done.
    + destruct (quit_pipe s) as [|[d|a] k buffer|] eqn:Ep; try discriminate.
      destruct (d <=? now (world s)); [|discriminate].
      unfold resume_quit.
      destruct (pipe_resume _ _ _ _) as [[w out0] p'] eqn:E. intros [= <- <-].
      cbn [playback_pipe]. unfold accepted_step. cbn [fst snd].
      rewrite Hql, app_nil_r. split_and!; done.
  - destruct src; try discriminate.
    + destruct (playback_pipe s) as [|[d|a] k buffer|] eqn:Ep; try discriminate.
      destruct ok.
      * unfold resume_playback.
        destruct (pipe_resume _ _ _ _) as [[w out0] p'] eqn:E. intros [= <- <-].
        destruct (pipe_resume_fifo _ _ _ _ _ _ Hq E) as (Hf & Hq' & Hne').
        cbn [playback_pipe waiting]. unfold accepted_step. cbn [fst snd].
        rewrite logged_tag_playback, app_nil_r. split_and!; done.
      * intros [= <- <-]. cbn. split_and!; done.
    + destruct (quit_pipe s) as [|[d|a] k buffer|] eqn:Ep; try discriminate.
      destruct ok.
      * unfold resume_quit.
        destruct (pipe_resume _ _ _ _) as [[w out0] p'] eqn:E. intros [= <- <-].
        cbn [playback_pipe]. unfold accepted_step. cbn [fst snd].
        rewrite Hql, app_nil_r. split_and!; done.
      * intros [= <- <-]. cbn. rewrite app_nil_r. split_and!; done.
  - intros [= <- <-]. cbn. rewrite app_nil_r. done.
  - intros [= <- <-]. cbn. rewrite app_nil_r. done.
  - destruct (0 <=? dt); [|discriminate]. intros [= <- <-]. cbn. rewrite app_nil_r. done.
Qed.

Lemma accepted_cons t tr : accepted (t :: tr) = accepted_step t ++ accepted tr.
Proof. reflexivity. Qed.

Lemma started_cons t tr : started (t :: tr) = (t.2 ≫= logged) ++ started tr.
Proof. reflexivity. Qed.

Lemma run_errored ins : ∀ s s' tr,
  playback_pipe s = Errored →
  run os s ins = Some (s', tr) →
  playback_pipe s' = Errored ∧ started tr = [] ∧ accepted tr = [].
Proof.
  induction ins as [|i ins IH]; intros s s' tr He; simpl.
  - intros [= <- <-]. done.
  - destruct (step os s i) as [[s1 out]|] eqn:Es; [|discriminate].
    destruct (run os s1 ins) as [[s2 tr2]|] eqn:Er; [|discriminate].
    intros [= <- <-].
    assert (pipe_quiet (playback_pipe s)) as Hq by (rewrite He; exact I).
    destruct (step_fifo _ _ _ _ Hq Es) as (_ & He1 & _ & Hz).
    specialize (He1 He). destruct (Hz He1) as [Hl Ha].
    destruct (IH _ _ _ He1 Er) as (He2 & Hs & Hacc).
    rewrite accepted_cons, started_cons, Hs, Hacc. cbn [snd]. rewrite Hl, Ha. done.
Qed.

Lemma run_fifo ins : ∀ s s' tr,
  pipe_quiet (playback_pipe s) →
  run os s ins = Some (s', tr) →
  ∃ rest, waiting (playback_pipe s) ++ accepted tr = started tr ++ rest
          ∧ (playback_pipe s' ≠ Errored → rest = waiting (playback_pipe s')).
Proof.
  induction ins as [|i ins IH]; intros s s' tr Hq; simpl.
  - intros [= <- <-]. exists (waiting (playback_pipe s)). rewrite app_nil_r. done.
  - destruct (step os s i) as [[s1 out]|] eqn:Es; [|discriminate].
    destruct (run os s1 ins) as [[s2 tr2]|] eqn:Er; [|discriminate].
    intros [= <- <-].
    destruct (step_fifo _ _ _ _ Hq Es) as (Hq1 & _ & Hlive & Hdead).
    rewrite accepted_cons, started_cons. cbn [snd].
    assert (playback_pipe s1 = Errored ∨ playback_pipe s1 ≠ Errored) as [He|Hne]
      by (destruct (playback_pipe s1); [right|right|left]; congruence).
    + destruct (Hdead He) as [Hl Ha].
      destruct (run_errored _ _ _ _ He Er) as (He2 & Hs & Hacc).
      rewrite Hl, Ha, Hs, Hacc. eexists. split; [reflexivity|]. congruence.
    + destruct (IH _ _ _ Hq1 Er) as (rest & Hrest & Hfin).
      exists rest. split; [|exact Hfin].
      rewrite app_assoc, (Hlive Hne), <- !app_assoc, Hrest. reflexivity.
Qed.

End Fifo.

(** ** One command at a time *)

Lemma observe_exclusive its : ∀ ph ph' rest,
  Forall playback_only its →
  observe_all playbackStatus ph its = Some ph' →
  exclusive (is_command ph) (its ++ rest) = exclusive (is_command ph') rest.
Proof.
  induction its as [|it its IH]; intros ph ph' rest Hall; simpl.
  - intros [= <-]. reflexivity.
  - apply Forall_cons in Hall as [Hit Hall].
    destruct (observe playbackStatus ph it) as [ph1|] eqn:Eo; [|discriminate].
    intros Hrest. specialize (IH ph1 ph' rest Hall Hrest).
    destruct it as [i|src e].
    + destruct i as [payload| |fullpath|file options|src|src ok|c r|h|dt];
        simpl in Eo, Hit; try (injection Eo as <-; exact IH).
      * destruct (decide (src = playbackStatus)); [|injection Eo as <-; exact IH].
        destruct ph; try discriminate. injection Eo as <-. exact IH.
      * subst src. simpl in Eo. destruct ph; try discriminate.
        injection Eo as <-. destruct ok; exact IH.
    + simpl in Eo. destruct (decide (src = playbackStatus)) as [->|Hne].
      * destruct ph, e; simpl in *; try discriminate; injection Eo as <-; exact IH.
      * injection Eo as <-. destruct e; simpl in *; try exact IH. congruence.
Qed.

Lemma observe_exclusive_of sub its : ∀ ph ph',
  observe_all sub ph its = Some ph' →
  exclusive_of sub (is_command ph) its = true.
Proof.
  induction its as [|it its IH]; intros ph ph'; simpl; [reflexivity|].
  destruct (observe sub ph it) as [ph1|] eqn:Eo; [|discriminate].
  intros Hrest. specialize (IH ph1 ph' Hrest).
  destruct it as [i|src e].
  - destruct i as [payload| |fullpath|file options|src|src ok|c r|h|dt];
      simpl in Eo; try (injection Eo as <-; exact IH).
    + destruct (decide (src = sub)); [|injection Eo as <-; exact IH].
      destruct ph; try discriminate. injection Eo as <-. exact IH.
    + destruct (decide (src = sub)); [|injection Eo as <-; exact IH].
      destruct ph; try discriminate. injection Eo as <-. destruct ok; exact IH.
  - simpl in Eo. destruct (decide (src = sub)) as [->|Hne].
    + destruct ph, e; simpl in *; try discriminate; injection Eo as <-;
        rewrite ?decide_True by reflexivity; exact IH.
    + injection Eo as <-. destruct e; simpl; rewrite ?decide_False by exact Hne; exact IH.
Qed.

Lemma Forall_playback_only_tag out :
  Forall playback_only (did playbackStatus out).
Proof. unfold did. apply Forall_fmap, Forall_forall. intros []; simpl; done. Qed.

Section Exclusive.
Variable os : NodePath.platform.

Lemma step_playback_only s i s' out :
  quit_pipe s = Idle →
  (match i with dolphinQuit_emits => false | _ => true end) = true →
  step os s i = Some (s', out) →
  quit_pipe s' = Idle ∧ Forall playback_only (items (i, out)).
Proof.
  intros Hq Hi.
  destruct i as [payload| |fullpath|file options|src|src ok|c r|h|dt]; cbn [step];
    try discriminate Hi.
  - intros [= H]. revert H. unfold emit_playback.
    destruct (playback_pipe s); destruct (armed (world s));
      try destruct (pipe_next _ _ _ _) as [[w out0] p'];
      intros [= <- <-]; cbn [quit_pipe]; rewrite ?items_tag;
      (split; [exact Hq|]); repeat constructor; try apply Forall_playback_only_tag.
  - intros [= <- <-]. split; [exact Hq|]. repeat constructor.
  - intros [= <- <-]. split; [exact Hq|]. repeat constructor.
  - destruct src; try discriminate.
    + destruct (playback_pipe s) as [|[d|a] k buffer|] eqn:Ep; try discriminate.
      destruct (d <=? now (world s)); [|discriminate].
      unfold resume_playback.
      destruct (pipe_resume _ _ _ _) as [[w out0] p'] eqn:E. intros [= <- <-].
      rewrite items_tag. split; [exact Hq|]. constructor; [exact I|].
      apply Forall_playback_only_tag.
    + rewrite Hq. discriminate.
  - destruct src; try discriminate.
    + destruct (playback_pipe s) as [|[d|a] k buffer|] eqn:Ep; try discriminate.
      destruct ok.
      * unfold resume_playback.
        destruct (pipe_resume _ _ _ _) as [[w out0] p'] eqn:E. intros [= <- <-].
        rewrite items_tag. split; [exact Hq|]. constructor; [reflexivity|].
        apply Forall_playback_only_tag.
      * intros [= <- <-]. split; [exact Hq|]. repeat constructor.
    + rewrite Hq. discriminate.
  - intros [= <- <-]. split; [exact Hq|]. repeat constructor.
  - intros [= <- <-]. split; [exact Hq|]. repeat constructor.
  - destruct (0 <=? dt); [|discriminate]. intros [= <- <-].
    split; [exact Hq|]. repeat constructor.
Qed.

Lemma run_playback_only ins : ∀ s s' tr,
  quit_pipe s = Idle → quit_free ins = true →
  run os s ins = Some (s', tr) →
  Forall playback_only (flatten tr).
Proof.
  induction ins as [|i ins IH]; intros s s' tr Hq Hfree; simpl.
  - intros [= <- <-]. constructor.
  - destruct (step os s i) as [[s1 out]|] eqn:Es; [|discriminate].
    destruct (run os s1 ins) as [[s2 tr2]|] eqn:Er; [|discriminate].
    intros [= <- <-]. simpl in Hfree. apply andb_true_iff in Hfree as [Hi Hfree].
    destruct (step_playback_only _ _ _ _ Hq Hi Es) as [Hq1 Hall].
    rewrite flatten_cons. apply Forall_app. split; [exact Hall|].
    eapply IH; eauto.
Qed.

(** While a handler is in flight, an event that passes the filter has its
    [isConnected] query made at once and is then held back. *)
Lemma step_emit_busy payload s wt k buffer :
  playback_pipe s = Busy wt k buffer → armed (world s) = true →
  step os s (playbackStatus_emits payload)
  = Some ({| world := world s;
             playback_pipe := Busy wt k (buffer ++ [payload]);
             quit_pipe := quit_pipe s |},
          [(playbackStatus, EIsConnected true)]).
Proof.
  intros Hp Ha. cbn [step]. unfold emit_playback. rewrite Hp, Ha. cbn [pipe_next].
  unfold armed in Ha. apply andb_true_iff in Ha as [He Hc].
  unfold gate_effects. rewrite He, Hc. reflexivity.
Qed.

(** C1 (amended).  From the constructed recorder, under every sequence of
    inputs that can occur (events of the three streams, [loadJSON] calls,
    timers firing, commands fulfilled or rejected, device changes, time
    passing):
    - the record shows the playback subscription handling one event at a
      time: between the moment a handler sets its timer or sends its command
      and the moment that timer fires or that command settles, the
      subscription logs no payload, makes no [isRecording] query, sends no
      command, sets no timer, kills nothing and touches no basename, so the
      next handler has not begun;
    - handlers are started in emission order: the payloads logged by
      started handlers are a prefix of the payloads that passed the filter,
      and the remainder is exactly the buffer of the subscription;
    - no command of the playback subscription is sent while another command
      of the playback subscription has not settled;
    - only when the input holds no engine-exited signal is no command at all
      sent while another one has not settled: the engine-exited subscription
      sends its STOP without regard to a playback command in flight;
    - the filter of an event does not wait: in the state reached, if a
      handler is in flight and the recorder is armed, emitting an event
      makes the [isConnected] query at once, while the earlier event is
      still being handled, and does nothing else but buffer the event. *)
Theorem playback_events_are_handled_one_at_a_time c r t0 ins s tr :
  run os (new_DolphinRecorder c r t0) ins = Some (s, tr) →
  serial playbackStatus tr
  ∧ started tr `prefix_of` accepted tr
  ∧ (playback_pipe s ≠ Errored → accepted tr = started tr ++ waiting (playback_pipe s))
  ∧ exclusive_of playbackStatus false (flatten tr) = true
  ∧ (quit_free ins = true → exclusive false (flatten tr) = true)
  ∧ (∀ payload wt k buffer,
       playback_pipe s = Busy wt k buffer → armed (world s) = true →
       step os s (playbackStatus_emits payload)
       = Some ({| world := world s;
                  playback_pipe := Busy wt k (buffer ++ [payload]);
                  quit_pipe := quit_pipe s |},
               [(playbackStatus, EIsConnected true)])).
Proof.
  intros Hrun.
  pose proof (run_observe_playback os _ _ _ _ Hrun) as Hobs.
  assert (pipe_quiet (playback_pipe (new_DolphinRecorder c r t0))) as Hq by exact I.
  destruct (run_fifo os _ _ _ _ Hq Hrun) as (rest & Hrest & Hfin).
  simpl in Hrest. split_and!.
  - unfold serial. simpl in Hobs. rewrite Hobs. eauto.
  - exists rest. exact Hrest.
  - intros Hne. rewrite Hrest, (Hfin Hne). reflexivity.
  - exact (observe_exclusive_of _ _ _ _ Hobs).
  - intros Hfree.
    assert (quit_pipe (new_DolphinRecorder c r t0) = Idle) as Hidle by reflexivity.
    pose proof (run_playback_only _ _ _ _ Hidle Hfree Hrun) as Hall.
    pose proof (observe_exclusive _ _ _ [] Hall Hobs) as Hex.
    rewrite app_nil_r in Hex. exact Hex.
  - intros payload wt k buffer. apply step_emit_busy.
Qed.

End Exclusive.

(** ** What a step leaves alone *)

Lemma run_sync_frame {A} (m : Proc A) w w' out r :
  run_sync m w = (w', out, r) → fixed_part w' = fixed_part w.
Proof.
  revert w w' out r.
  induction m as [a|p k IH|k IH|k IH|k IH|k IH|n k IH|k IH|a k IH|ms k IH];
    intros w w' out r; simpl.
  - intros [= <- <- <-]. reflexivity.
  - destruct (run_sync k w) as [[w1 out1] r1] eqn:E. intros [= <- <- <-]. eapply IH, E.
  - destruct (run_sync (k (obs_recording w)) w) as [[w1 out1] r1] eqn:E.
    intros [= <- <- <-]. eapply IH, E.
  - apply IH.
  - apply IH.
  - apply IH.
  - destruct (run_sync k (with_basename n w)) as [[w1 out1] r1] eqn:E.
    intros [= <- <- <-]. apply IH in E. rewrite E. reflexivity.
  - destruct (run_sync k w) as [[w1 out1] r1] eqn:E. intros [= <- <- <-]. eapply IH, E.
  - intros [= <- <- <-]. reflexivity.
  - intros [= <- <- <-]. reflexivity.
Qed.

Lemma drain_frame {E} (project : E → Proc unit) buffer w w' out p :
  drain project buffer w = (w', out, p) → fixed_part w' = fixed_part w.
Proof.
  revert w w' out p. induction buffer as [|e rest IH]; intros w w' out p; cbn [drain].
  - intros [= <- <- <-]. reflexivity.
  - destruct (run_sync (project e) w) as [[w1 out1] r1] eqn:E1.
    apply run_sync_frame in E1. destruct r1 as [[]|wt k].
    + destruct (drain project rest w1) as [[w2 out2] p2] eqn:E2. intros [= <- <- <-].
      apply IH in E2. congruence.
    + intros [= <- <- <-]. exact E1.
Qed.

Lemma pipe_resume_frame {E} (project : E → Proc unit) k buffer w w' out p :
  pipe_resume project k buffer w = (w', out, p) → fixed_part w' = fixed_part w.
Proof.
  unfold pipe_resume. destruct (run_sync k w) as [[w1 out1] r1] eqn:E1.
  apply run_sync_frame in E1. destruct r1 as [[]|wt k'].
  - destruct (drain project buffer w1) as [[w2 out2] p2] eqn:E2. intros [= <- <- <-].
    apply drain_frame in E2. congruence.
  - intros [= <- <- <-]. exact E1.
Qed.

Lemma pipe_next_frame {E} (project : E → Proc unit) e p w w' out p' :
  pipe_next project e p w = (w', out, p') → fixed_part w' = fixed_part w.
Proof.
  destruct p as [|wt k buffer|]; cbn [pipe_next].
  - apply drain_frame.
  - intros [= <- <- <-]. reflexivity.
  - intros [= <- <- <-]. reflexivity.
Qed.

Lemma fixed_part_mode w w' : fixed_part w' = fixed_part w → mode_of w' = mode_of w.
Proof. unfold fixed_part, with_basename, mode_of. intros [= -> -> -> _ _ _ _]. reflexivity. Qed.

Lemma fixed_part_now w w' : fixed_part w' = fixed_part w → now w' = now w.
Proof. unfold fixed_part, with_basename. intros [= _ _ _ _ _ _ ->]. reflexivity. Qed.

Section Frame.
Variable os : NodePath.platform.

(** One step keeps the mode unless [loadJSON] is called, and never turns
    the clock back. *)
Lemma step_frame s i s' out :
  step os s i = Some (s', out) →
  (is_load i = false → mode_of (world s') = mode_of (world s))
  ∧ now (world s) ≤ now (world s').
Proof.
  destruct i as [payload| |fullpath|file options|src|src ok|c r|h|dt]; cbn [step is_load].
  - unfold emit_playback.
    destruct (playback_pipe s); destruct (armed (world s));
      try (destruct (pipe_next _ _ _ _) as [[w out0] p'] eqn:E;
           apply pipe_next_frame in E);
      intros [= <- <-]; cbn [world];
      rewrite ?(fixed_part_mode _ _ E), ?(fixed_part_now _ _ E); split; done.
  - unfold emit_quit.
    destruct (quit_pipe s); destruct (armed (world s));
      try (destruct (pipe_next _ _ _ _) as [[w out0] p'] eqn:E;
           apply pipe_next_frame in E);
      intros [= <- <-]; cbn [world];
      rewrite ?(fixed_part_mode _ _ E), ?(fixed_part_now _ _ E); split; done.
  - intros [= <- <-]. split; done.
  - intros [= <- <-]. split; [done|].
    cbn. unfold loadJSON. destruct (truthy _); reflexivity.
  - destruct src; try discriminate.
    + destruct (playback_pipe s) as [|[d|a] k buffer|]; try discriminate.
      destruct (d <=? now (world s)); [|discriminate]. unfold resume_playback.
      destruct (pipe_resume _ _ _ _) as [[w out0] p'] eqn:E. apply pipe_resume_frame in E.
      intros [= <- <-]. cbn [world].
      rewrite (fixed_part_mode _ _ E), (fixed_part_now _ _ E). split; done.
    + destruct (quit_pipe s) as [|[d|a] k buffer|]; try discriminate.
      destruct (d <=? now (world s)); [|discriminate]. unfold resume_quit.
      destruct (pipe_resume _ _ _ _) as [[w out0] p'] eqn:E. apply pipe_resume_frame in E.
      intros [= <- <-]. cbn [world].
      rewrite (fixed_part_mode _ _ E), (fixed_part_now _ _ E). split; done.
  - destruct src; try discriminate.
    + destruct (playback_pipe s) as [|[d|a] k buffer|]; try discriminate. destruct ok.
      * unfold resume_playback.
        destruct (pipe_resume _ _ _ _) as [[w out0] p'] eqn:E. apply pipe_resume_frame in E.
        intros [= <- <-]. cbn [world].
        rewrite (fixed_part_mode _ _ E), (fixed_part_now _ _ E). split; done.
      * intros [= <- <-]. split; done.
    + destruct (quit_pipe s) as [|[d|a] k buffer|]; try discriminate. destruct ok.
      * unfold resume_quit.
        destruct (pipe_resume _ _ _ _) as [[w out0] p'] eqn:E. apply pipe_resume_frame in E.
        intros [= <- <-]. cbn [world].
        rewrite (fixed_part_mode _ _ E), (fixed_part_now _ _ E). split; done.
      * intros [= <- <-]. split; done.
  - intros [= <- <-]. split; done.
  - intros [= <- <-]. split; done.
  - destruct (0 <=? dt) eqn:Hdt; [|discriminate]. intros [= <- <-]. split; [done|].
    cbn. lia.
Qed.

Lemma run_clock ins : ∀ s s' tr,
  run os s ins = Some (s', tr) → now (world s) ≤ now (world s').
Proof.
  induction ins as [|i ins IH]; intros s s' tr; simpl.
  - intros [= <- <-]. lia.
  - destruct (step os s i) as [[s1 out]|] eqn:Es; [|discriminate].
    destruct (run os s1 ins) as [[s2 tr2]|] eqn:Er; [|discriminate].
    intros [= <- <-]. apply step_frame in Es as [_ H1]. apply IH in Er. lia.
Qed.

(** The stored actions are those of the most recent [loadJSON] call,
    provided that call enabled recording. *)
Lemma run_mode ins : ∀ s s' tr,
  run os s ins = Some (s', tr) →
  match last_mode ins with
  | None => mode_of (world s') = mode_of (world s)
  | Some o =>
      recordingEnabled (world s') = truthy (record o)
      ∧ (truthy (record o) = true →
           startAction (world s') = (if truthy (pauseBetweenEntries o) then UNPAUSE else START)
           ∧ endAction (world s') = (if truthy (pauseBetweenEntries o) then PAUSE else STOP))
  end.
Proof.
  induction ins as [|i ins IH]; intros s s' tr; simpl.
  - intros [= <- <-]. reflexivity.
  - destruct (step os s i) as [[s1 out]|] eqn:Es; [|discriminate].
    destruct (run os s1 ins) as [[s2 tr2]|] eqn:Er; [|discriminate].
    intros [= <- <-]. specialize (IH _ _ _ Er).
    destruct (last_mode ins) as [o|]; [exact IH|].
    destruct i as [payload| |fullpath|file options|src|src ok|c r|h|dt];
      try (rewrite IH; apply (step_frame _ _ _ _ Es); reflexivity).
    injection Es as <- _. unfold mode_of in IH. injection IH as -> -> ->.
    cbn. unfold loadJSON.
    destruct (truthy (record _)) eqn:Hr; cbn; [|done]. done.
Qed.

End Frame.

(** ** The handlers, statement by statement *)

Lemma handle_start payload w :
  status payload = PLAYBACK_START →
  let action := if obs_recording w then startAction w else START in
  run_sync (_handleDolphinPlayback payload) w
  = (w, [EConsoleLog payload; EIsRecording (obs_recording w); ESetRecordingState action],
     Suspended (WaitCommand action) (Ret ())).
Proof.
  intros Hs. unfold _handleDolphinPlayback. rewrite Hs. cbn.
  destruct (obs_recording w); reflexivity.
Qed.

Lemma handle_end payload w :
  status payload = PLAYBACK_END →
  run_sync (_handleDolphinPlayback payload) w
  = if game_ended payload
    then (w, [EConsoleLog payload; EDelay DELAY_AMOUNT_MS],
          Suspended (WaitDelay (now w + DELAY_AMOUNT_MS)) after_delay)
    else (w, [EConsoleLog payload; ESetRecordingState (endAction w)],
          Suspended (WaitCommand (endAction w)) (Ret ())).
Proof.
  intros Hs. unfold _handleDolphinPlayback. rewrite Hs.
  destruct (game_ended payload); reflexivity.
Qed.

Lemma after_delay_run w :
  run_sync after_delay w
  = (w, [ESetRecordingState (endAction w)], Suspended (WaitCommand (endAction w)) (Ret ())).
Proof. reflexivity. Qed.

Lemma stop_run kill w :
  run_sync (_stopRecording kill) w
  = if obs_recording w
    then (with_basename EmptyString w,
          [EBasenameNext EmptyString; EIsRecording true; ESetRecordingState STOP],
          Suspended (WaitCommand STOP) (after_stop kill))
    else (with_basename EmptyString w,
          [EBasenameNext EmptyString; EIsRecording false]
            ++ (if kill && dolphin w then [EKill] else []),
          Finished ()).
Proof.
  unfold _stopRecording. cbn. destruct (obs_recording w); cbn; [reflexivity|].
  destruct kill, (dolphin w); reflexivity.
Qed.

Lemma after_stop_run kill w :
  run_sync (after_stop kill) w
  = (w, if kill && dolphin w then [EKill] else [], Finished ()).
Proof. unfold after_stop. cbn. destruct kill, (dolphin w); reflexivity. Qed.

Lemma handle_queue_empty payload w :
  status payload = QUEUE_EMPTY →
  run_sync (_handleDolphinPlayback payload) w
  = let '(w', out, r) := run_sync (_stopRecording true) w in
    (w', EConsoleLog payload :: out, r).
Proof.
  intros Hs. unfold _handleDolphinPlayback. rewrite Hs. reflexivity.
Qed.

Lemma commands_tag_same sub out :
  commands sub (tag sub out)
  = out ≫= λ e, match e with ESetRecordingState a => [a] | _ => [] end.
Proof.
  unfold commands, tag. induction out as [|e out IH]; [reflexivity|].
  rewrite fmap_cons, !bind_cons, IH. destruct e; try reflexivity.
  simpl. destruct (decide (sub = sub)); [reflexivity|congruence].
Qed.

Lemma commands_tag_other sub src out : src ≠ sub → commands sub (tag src out) = [].
Proof.
  intros Hne. unfold commands, tag. induction out as [|e out IH]; [reflexivity|].
  rewrite fmap_cons, bind_cons, IH. destruct e; try reflexivity.
  simpl. destruct (decide (src = sub)); [congruence|reflexivity].
Qed.

Lemma commands_gate sub w : commands sub (tag sub (gate_effects w)) = [].
Proof.
  rewrite commands_tag_same. unfold gate_effects. destruct (recordingEnabled w); reflexivity.
Qed.

Section Handlers.
Variable os : NodePath.platform.

Lemma gate_effects_armed w : armed w = true → gate_effects w = [EIsConnected true].
Proof. unfold armed, gate_effects. intros [-> ->]%andb_true_iff. reflexivity. Qed.

(** While the playback subscription waits for its timer, no input other
    than the timer makes it act. *)
Lemma step_during_delay s i s' out d k buffer :
  playback_pipe s = Busy (WaitDelay d) k buffer →
  i ≠ timer_fires playbackStatus →
  step os s i = Some (s', out) →
  commands playbackStatus out = []
  ∧ ∃ buffer', playback_pipe s' = Busy (WaitDelay d) k buffer'.
Proof.
  intros Hp Hi.
  destruct i as [payload| |fullpath|file options|src|src ok|c r|h|dt]; cbn [step].
  - unfold emit_playback. rewrite Hp. destruct (armed (world s)); cbn [pipe_next].
    + intros [= <- <-]. rewrite commands_tag_same, app_nil_r.
      rewrite <- (commands_tag_same playbackStatus). split; [apply commands_gate|eauto].
    + intros [= <- <-]. split; [apply commands_gate|]. rewrite Hp. eauto.
  - unfold emit_quit.
    destruct (quit_pipe s); destruct (armed (world s));
      try destruct (pipe_next _ _ _ _) as [[w out0] p'];
      intros [= <- <-]; cbn [playback_pipe];
      (split; [first [reflexivity | apply commands_tag_other; discriminate]|eauto]).
  - intros [= <- <-]. split; [reflexivity|eauto].
  - intros [= <- <-]. split; [reflexivity|eauto].
  - destruct src; try discriminate; [congruence|].
    destruct (quit_pipe s) as [|[d'|a] k' buffer'|]; try discriminate.
    destruct (d' <=? now (world s)); [|discriminate]. unfold resume_quit.
    destruct (pipe_resume _ _ _ _) as [[w out0] p']. intros [= <- <-].
    split; [apply commands_tag_other; discriminate|eauto].
  - destruct src; try discriminate; [rewrite Hp; discriminate|].
    destruct (quit_pipe s) as [|[d'|a] k' buffer'|]; try discriminate. destruct ok.
    + unfold resume_quit.
      destruct (pipe_resume _ _ _ _) as [[w out0] p']. intros [= <- <-].
      split; [apply commands_tag_other; discriminate|eauto].
    + intros [= <- <-]. split; [reflexivity|eauto].
  - intros [= <- <-]. split; [reflexivity|eauto].
  - intros [= <- <-]. split; [reflexivity|eauto].
  - destruct (0 <=? dt); [|discriminate]. intros [= <- <-]. split; [reflexivity|eauto].
Qed.

Lemma no_command_before_deadline ins : ∀ s s' tr d k buffer,
  playback_pipe s = Busy (WaitDelay d) k buffer →
  run os s ins = Some (s', tr) →
  commands_of_trace playbackStatus tr ≠ [] →
  d ≤ now (world s').
Proof.
  induction ins as [|i ins IH]; intros s s' tr d k buffer Hp; simpl.
  - intros [= <- <-]. done.
  - destruct (step os s i) as [[s1 out]|] eqn:Es; [|discriminate].
    destruct (run os s1 ins) as [[s2 tr2]|] eqn:Er; [|discriminate].
    intros [= <- <-].
    assert (i = timer_fires playbackStatus ∨ i ≠ timer_fires playbackStatus) as [->|Hi].
    { destruct i as [| | | |[]| | | |]; (left; reflexivity) || (right; discriminate). }
    + intros _. pose proof (step_frame os _ _ _ _ Es) as [_ H1].
      cbn [step] in Es. rewrite Hp in Es.
      destruct (d <=? now (world s)) eqn:Hd; [|discriminate].
      apply Z.leb_le in Hd. apply run_clock in Er. lia.
    + destruct (step_during_delay _ _ _ _ _ _ _ Hp Hi Es) as [Hc [buffer' Hp1]].
      unfold commands_of_trace. rewrite bind_cons. cbn [snd]. rewrite Hc. simpl.
      intros Hne. eapply IH; eauto.
Qed.

Lemma step_emit_idle payload s :
  playback_pipe s = Idle → armed (world s) = true →
  step os s (playbackStatus_emits payload)
  = Some (let '(w, out, p') := drain _handleDolphinPlayback [payload] (world s) in
          ({| world := w; playback_pipe := p'; quit_pipe := quit_pipe s |},
           tag playbackStatus (EIsConnected true :: out))).
Proof.
  intros Hp Ha. cbn [step]. unfold emit_playback. rewrite Hp, Ha. cbn [pipe_next].
  rewrite (gate_effects_armed _ Ha). reflexivity.
Qed.

Lemma reachable_mode c r t0 ins s tr o :
  run os (new_DolphinRecorder c r t0) ins = Some (s, tr) →
  last_mode ins = Some o → truthy (record o) = true →
  recordingEnabled (world s) = true
  ∧ startAction (world s) = resume_action o
  ∧ endAction (world s) = suspend_action o.
Proof.
  intros Hrun Ho Hr. pose proof (run_mode os _ _ _ _ Hrun) as H. rewrite Ho in H.
  destruct H as [He Ha]. destruct (Ha Hr) as [Hs Hend]. rewrite He, Hr. done.
Qed.

(** C5 (confirmed).  In a state reached from the constructed recorder whose
    most recent [loadJSON] call enabled recording with options [o], the
    handler of a PLAYBACK_START event logs the payload, asks the device
    whether it records, and sends exactly one command: the resume action of
    the mode when the device records (UNPAUSE if [pauseBetweenEntries], else
    START), and START when it does not, whatever the mode; it then waits for
    that command.  When the subscription is idle and the device connected,
    emitting the event runs this handler at once. *)
Theorem playback_start_resumes_or_starts c r t0 ins s tr o payload :
  run os (new_DolphinRecorder c r t0) ins = Some (s, tr) →
  last_mode ins = Some o → truthy (record o) = true →
  status payload = PLAYBACK_START →
  let action := if obs_recording (world s) then resume_action o else START in
  run_sync (_handleDolphinPlayback payload) (world s)
  = (world s,
     [EConsoleLog payload; EIsRecording (obs_recording (world s)); ESetRecordingState action],
     Suspended (WaitCommand action) (Ret ()))
  ∧ (playback_pipe s = Idle → obs_connected (world s) = true →
     step os s (playbackStatus_emits payload)
     = Some ({| world := world s;
                playback_pipe := Busy (WaitCommand action) (Ret ()) [];
                quit_pipe := quit_pipe s |},
             tag playbackStatus
               [EIsConnected true; EConsoleLog payload;
                EIsRecording (obs_recording (world s)); ESetRecordingState action])).
Proof.
  intros Hrun Ho Hr Hs action.
  destruct (reachable_mode _ _ _ _ _ _ _ Hrun Ho Hr) as (He & Hsa & _).
  pose proof (handle_start payload (world s) Hs) as Hh. cbn zeta in Hh.
  rewrite Hsa in Hh. fold action in Hh. split; [exact Hh|].
  intros Hp Hc. rewrite step_emit_idle; [|exact Hp|unfold armed; rewrite He, Hc; reflexivity].
  cbn [drain]. rewrite Hh. reflexivity.
Qed.

(** C6 (confirmed).  In a state reached from the constructed recorder whose
    most recent [loadJSON] call enabled recording with options [o], the stored
    end action is the suspend action of the mode (PAUSE if
    [pauseBetweenEntries], else STOP), and the handler of a PLAYBACK_END
    event:
    - when [gameEnded] is false or missing, sends the suspend action
      immediately after logging, with no timer (emitted on an idle
      subscription, the event has the command sent in the same step);
    - when [gameEnded] is true, sends nothing at first: it sets a timer of
      1000 ms (deadline: now + 1000) and suspends; as long as the
      subscription waits for that timer, no run makes it send a command
      before the clock has reached the deadline; and when the timer fires
      (possible only once the deadline has passed) the only effect is the
      command [endAction]. *)
Theorem playback_end_suspends_after_settle_delay c r t0 ins s tr o payload :
  run os (new_DolphinRecorder c r t0) ins = Some (s, tr) →
  last_mode ins = Some o → truthy (record o) = true →
  status payload = PLAYBACK_END →
  endAction (world s) = suspend_action o
  ∧ (game_ended payload = false →
       run_sync (_handleDolphinPlayback payload) (world s)
       = (world s, [EConsoleLog payload; ESetRecordingState (suspend_action o)],
          Suspended (WaitCommand (suspend_action o)) (Ret ()))
       ∧ (playback_pipe s = Idle → obs_connected (world s) = true →
          step os s (playbackStatus_emits payload)
          = Some ({| world := world s;
                     playback_pipe := Busy (WaitCommand (suspend_action o)) (Ret ()) [];
                     quit_pipe := quit_pipe s |},
                  tag playbackStatus
                    [EIsConnected true; EConsoleLog payload;
                     ESetRecordingState (suspend_action o)])))
  ∧ (game_ended payload = true →
       run_sync (_handleDolphinPlayback payload) (world s)
       = (world s, [EConsoleLog payload; EDelay 1000],
          Suspended (WaitDelay (now (world s) + 1000)) after_delay)
       ∧ (playback_pipe s = Idle → obs_connected (world s) = true →
          step os s (playbackStatus_emits payload)
          = Some ({| world := world s;
                     playback_pipe := Busy (WaitDelay (now (world s) + 1000)) after_delay [];
                     quit_pipe := quit_pipe s |},
                  tag playbackStatus [EIsConnected true; EConsoleLog payload; EDelay 1000]))
       ∧ (∀ s1 buffer ins1 s2 tr2,
            playback_pipe s1 = Busy (WaitDelay (now (world s) + 1000)) after_delay buffer →
            run os s1 ins1 = Some (s2, tr2) →
            commands_of_trace playbackStatus tr2 ≠ [] →
            now (world s) + 1000 ≤ now (world s2))
       ∧ (∀ s1 buffer,
            playback_pipe s1 = Busy (WaitDelay (now (world s) + 1000)) after_delay buffer →
            step os s1 (timer_fires playbackStatus)
            = if now (world s) + 1000 <=? now (world s1)
              then Some ({| world := world s1;
                            playback_pipe :=
                              Busy (WaitCommand (endAction (world s1))) (Ret ()) buffer;
                            quit_pipe := quit_pipe s1 |},
                         [(playbackStatus, ESetRecordingState (endAction (world s1)))])
              else None)).
Proof.
  intros Hrun Ho Hr Hs.
  destruct (reachable_mode _ _ _ _ _ _ _ Hrun Ho Hr) as (He & _ & Hea).
  pose proof (handle_end payload (world s) Hs) as Hh.
  assert (∀ r1, run_sync (_handleDolphinPlayback payload) (world s) = r1 →
          playback_pipe s = Idle → obs_connected (world s) = true →
          step os s (playbackStatus_emits payload)
          = Some (let '(w, out, p') :=
                    let '(w1, out1, r2) := r1 in
                    match r2 with
                    | Finished _ => (w1, out1 ++ [], Idle)
                    | Suspended wt k => (w1, out1, Busy wt k [])
                    end in
                  ({| world := w; playback_pipe := p'; quit_pipe := quit_pipe s |},
                   tag playbackStatus (EIsConnected true :: out)))) as Hstep.
  { intros r1 <- Hp Hc.
    rewrite step_emit_idle; [|exact Hp|unfold armed; rewrite He, Hc; reflexivity].
    cbn [drain]. destruct (run_sync _ _) as [[w1 out1] [[]|wt k]]; reflexivity. }
  split; [exact Hea|]. split.
  - intros Hg. rewrite Hg, Hea in Hh. split; [exact Hh|].
    intros Hp Hc. rewrite (Hstep _ Hh Hp Hc). reflexivity.
  - intros Hg. rewrite Hg in Hh. split; [exact Hh|]. split; [|split].
    + intros Hp Hc. rewrite (Hstep _ Hh Hp Hc). reflexivity.
    + intros s1 buffer ins1 s2 tr2 Hp Hrun1 Hc.
      eapply no_command_before_deadline; eauto.
    + intros s1 buffer Hp. cbn [step]. rewrite Hp.
      destruct (now (world s) + 1000 <=? now (world s1)); reflexivity.
Qed.

(** C4 (confirmed).  When recording is disabled or the device reports itself
    not connected, a playback event of any kind and the engine-exited signal
    leave the whole state as it was (nothing is buffered for later either)
    and cause no effect other than the filter's own [isConnected] query,
    answered false; nothing fails. *)
Theorem disarmed_recorder_drops_events s payload :
  armed (world s) = false →
  (∃ out, step os s (playbackStatus_emits payload) = Some (s, out)
          ∧ ∀ o, o ∈ out → o = (playbackStatus, EIsConnected false))
  ∧ (∃ out, step os s dolphinQuit_emits = Some (s, out)
            ∧ ∀ o, o ∈ out → o = (dolphinQuit, EIsConnected false)).
Proof.
  intros Ha.
  assert (∀ src o, o ∈ tag src (gate_effects (world s)) → o = (src, EIsConnected false))
    as Hg.
  { intros src o. unfold gate_effects. unfold armed in Ha.
    destruct (recordingEnabled (world s)); simpl in *.
    - rewrite Ha. intros [->|H]%elem_of_cons; [reflexivity|inversion H].
    - inversion 1. }
  split; cbn [step]; [unfold emit_playback|unfold emit_quit]; rewrite Ha.
  - destruct (playback_pipe s); eexists; (split; [reflexivity|]);
      first [apply Hg | inversion 1].
  - destruct (quit_pipe s); eexists; (split; [reflexivity|]);
      first [apply Hg | inversion 1].
Qed.

(** C10 (confirmed).  [_stopRecording] begins by publishing the empty string
    as current basename, for either value of [killDolphin] and whatever the
    device reports: the first effect is the call of
    [currentBasenameSource.next] with the empty string, before the
    [isRecording] query and before any command, and it happens also when the
    device is not recording (then no command is sent and the routine returns
    at once).  Both triggers run this routine: the QUEUE_EMPTY handler calls
    it right after logging, and the handler of the engine-exited signal is
    the routine itself. *)
Theorem stop_routine_resets_basename_first kill w d :
  (∃ rest r,
     run_sync (_stopRecording kill) w
     = (with_basename EmptyString w,
        EBasenameNext EmptyString :: EIsRecording (obs_recording w) :: rest, r)
     ∧ (obs_recording w = false →
          r = Finished () ∧ rest = (if kill && dolphin w then [EKill] else []))
     ∧ (obs_recording w = true → rest = [ESetRecordingState STOP]))
  ∧ currentBasename (with_basename EmptyString w) = EmptyString
  ∧ run_sync (_handleDolphinPlayback {| status := QUEUE_EMPTY; data := d |}) w
    = (let '(w', out, r) := run_sync (_stopRecording true) w in
       (w', EConsoleLog {| status := QUEUE_EMPTY; data := d |} :: out, r))
  ∧ quit_handler () = _stopRecording false.
Proof.
  split_and!; try reflexivity.
  rewrite stop_run. destruct (obs_recording w); eexists _, _; (split; [reflexivity|]);
    split; intros; try discriminate; try done.
Qed.

(** C3 (amended).  With recording enabled and the device connected,
    processing a QUEUE_EMPTY event on an idle subscription publishes the
    empty basename and then depends on the device alone, never on the mode:
    if the device reports that it records, STOP is sent, and once that
    command is fulfilled the engine process is killed when the recorder holds
    a process handle; if the device reports that it does not record, no
    command is sent and the process is killed at once (when a handle is
    held). *)
Theorem queue_empty_stops_if_recording_then_kills s payload :
  status payload = QUEUE_EMPTY →
  armed (world s) = true →
  playback_pipe s = Idle →
  (∀ w, run_sync (after_stop true) w = (w, if dolphin w then [EKill] else [], Finished ()))
  ∧ step os s (playbackStatus_emits payload)
    = Some (if obs_recording (world s)
            then ({| world := with_basename EmptyString (world s);
                     playback_pipe := Busy (WaitCommand STOP) (after_stop true) [];
                     quit_pipe := quit_pipe s |},
                  tag playbackStatus
                    [EIsConnected true; EConsoleLog payload; EBasenameNext EmptyString;
                     EIsRecording true; ESetRecordingState STOP])
            else ({| world := with_basename EmptyString (world s);
                     playback_pipe := Idle;
                     quit_pipe := quit_pipe s |},
                  tag playbackStatus
                    ([EIsConnected true; EConsoleLog payload; EBasenameNext EmptyString;
                      EIsRecording false]
                       ++ (if dolphin (world s) then [EKill] else []))))
  ∧ (∀ s1, playback_pipe s1 = Busy (WaitCommand STOP) (after_stop true) [] →
       step os s1 (command_settles playbackStatus true)
       = Some ({| world := world s1; playback_pipe := Idle; quit_pipe := quit_pipe s1 |},
               tag playbackStatus (if dolphin (world s1) then [EKill] else []))).
Proof.
  intros Hs Ha Hp. split; [intros w; apply (after_stop_run true)|]. split.
  - rewrite step_emit_idle by assumption. cbn [drain].
    rewrite (handle_queue_empty payload _ Hs), stop_run.
    destruct (obs_recording (world s)); [reflexivity|].
    cbn. rewrite app_nil_r. reflexivity.
  - intros s1 Hp1. cbn [step]. rewrite Hp1. unfold resume_playback, pipe_resume.
    rewrite (after_stop_run true). cbn. rewrite app_nil_r. reflexivity.
Qed.

Lemma step_playback_errored s i s' out :
  playback_pipe s = Errored →
  step os s i = Some (s', out) →
  playback_pipe s' = Errored ∧ Forall (λ o : Output, o.1 ≠ playbackStatus) out.
Proof.
  intros Hp.
  assert (∀ src o, src ≠ playbackStatus →
            Forall (λ o : Output, o.1 ≠ playbackStatus) (tag src o)) as Ht.
  { intros src o Hne. unfold tag. apply Forall_fmap, Forall_forall. intros e _. exact Hne. }
  destruct i as [payload| |fullpath|file options|src|src ok|c r|h|dt]; cbn [step].
  - unfold emit_playback. rewrite Hp. intros [= <- <-]. split; [exact Hp|constructor].
  - unfold emit_quit.
    destruct (quit_pipe s); destruct (armed (world s));
      try destruct (pipe_next _ _ _ _) as [[w out0] p'];
      intros [= <- <-]; cbn [playback_pipe];
      (split; [exact Hp|first [constructor | apply Ht; discriminate]]).
  - intros [= <- <-]. split; [exact Hp|]. repeat constructor. discriminate.
  - intros [= <- <-]. split; [exact Hp|]. repeat constructor. discriminate.
  - destruct src; try discriminate; [rewrite Hp; discriminate|].
    destruct (quit_pipe s) as [|[d'|a] k' buffer'|]; try discriminate.
    destruct (d' <=? now (world s)); [|discriminate]. unfold resume_quit.
    destruct (pipe_resume _ _ _ _) as [[w out0] p']. intros [= <- <-].
    split; [exact Hp|apply Ht; discriminate].
  - destruct src; try discriminate; [rewrite Hp; discriminate|].
    destruct (quit_pipe s) as [|[d'|a] k' buffer'|]; try discriminate. destruct ok.
    + unfold resume_quit.
      destruct (pipe_resume _ _ _ _) as [[w out0] p']. intros [= <- <-].
      split; [exact Hp|apply Ht; discriminate].
    + intros [= <- <-]. split; [exact Hp|]. repeat constructor. discriminate.
  - intros [= <- <-]. split; [exact Hp|constructor].
  - intros [= <- <-]. split; [exact Hp|constructor].
  - destruct (0 <=? dt); [|discriminate]. intros [= <- <-]. split; [exact Hp|constructor].
Qed.

Lemma run_playback_errored ins : ∀ s s' tr,
  playback_pipe s = Errored →
  run os s ins = Some (s', tr) →
  playback_pipe s' = Errored
  ∧ Forall (λ t : Input * list Output, Forall (λ o : Output, o.1 ≠ playbackStatus) t.2) tr.
Proof.
  induction ins as [|i ins IH]; intros s s' tr Hp; simpl.
  - intros [= <- <-]. split; [exact Hp|constructor].
  - destruct (step os s i) as [[s1 out]|] eqn:Es; [|discriminate].
    destruct (run os s1 ins) as [[s2 tr2]|] eqn:Er; [|discriminate].
    intros [= <- <-]. destruct (step_playback_errored _ _ _ _ Hp Es) as [Hp1 Hout].
    destruct (IH _ _ _ Hp1 Er) as [Hp2 Htr]. split; [exact Hp2|]. constructor; assumption.
Qed.

(** C2 (amended).  A rejected [setRecordingState] command of the playback
    subscription is caught nowhere: it is reported as an unhandled error and
    the subscription is torn down.  The recorder's fields and the other
    subscription are untouched, but from then on no input makes the playback
    subscription do anything: no filter query, no handler, no command. *)
Theorem rejected_command_tears_subscription_down s s1 out :
  step os s (command_settles playbackStatus false) = Some (s1, out) →
  out = [(playbackStatus, EUnhandledError)]
  ∧ world s1 = world s
  ∧ quit_pipe s1 = quit_pipe s
  ∧ playback_pipe s1 = Errored
  ∧ ∀ ins s2 tr,
      run os s1 ins = Some (s2, tr) →
      playback_pipe s2 = Errored
      ∧ Forall (λ t : Input * list Output, Forall (λ o : Output, o.1 ≠ playbackStatus) t.2) tr.
Proof.
  cbn [step]. destruct (playback_pipe s) as [|[d|a] k buffer|]; try discriminate.
  intros [= <- <-]. split_and!; try reflexivity.
  intros ins s2 tr. apply run_playback_errored. reflexivity.
Qed.

End Handlers.

(** ** Runs of the recorder

    The theorems above at concrete inputs, and runs that show what the code
    does where a claim about it fails. *)

Lemma playback_events_are_handled_one_at_a_time_witness :
  ∃ s tr,
    run NodePath.posix (new_DolphinRecorder true false 0) sample_inputs = Some (s, tr)
    ∧ serial playbackStatus tr
    ∧ started tr `prefix_of` accepted tr
    ∧ exclusive_of playbackStatus false (flatten tr) = true
    ∧ exclusive false (flatten tr) = true.
Proof.
  eexists _, _. split; [reflexivity|].
  match goal with
  | |- serial _ ?tr ∧ _ =>
      refine (let H := playback_events_are_handled_one_at_a_time NodePath.posix true false 0
                         sample_inputs _ tr eq_refl in
              conj (proj1 H)
                (conj (proj1 (proj2 H))
                   (conj (proj1 (proj2 (proj2 (proj2 H))))
                      (proj1 (proj2 (proj2 (proj2 (proj2 H)))) eq_refl))))
  end.
Defined.

Lemma playback_start_resumes_or_starts_witness :
  ∃ s tr,
    run NodePath.posix (new_DolphinRecorder false false 0)
      [call_loadJSON "queue.json" record_on; obs_changes true true] = Some (s, tr)
    ∧ run_sync (_handleDolphinPlayback start_event) (world s)
      = (world s,
         [EConsoleLog start_event; EIsRecording true; ESetRecordingState UNPAUSE],
         Suspended (WaitCommand UNPAUSE) (Ret ())).
Proof.
  eexists _, _. split; [reflexivity|].
  refine (proj1 (playback_start_resumes_or_starts NodePath.posix false false 0
                   [call_loadJSON "queue.json" record_on; obs_changes true true] _ _
                   (Object_assign defaultDolphinPlayerOptions record_on) start_event
                   _ _ _ _));
    reflexivity.
Defined.

Lemma playback_end_suspends_after_settle_delay_witness :
  ∃ s tr,
    run NodePath.posix (new_DolphinRecorder true true 0)
      [call_loadJSON "queue.json" record_on; clock_advances 250] = Some (s, tr)
    ∧ run_sync (_handleDolphinPlayback (end_event true)) (world s)
      = (world s, [EConsoleLog (end_event true); EDelay 1000],
         Suspended (WaitDelay 1250) after_delay).
Proof.
  eexists _, _. split; [reflexivity|].
  refine (proj1 (proj2 (proj2
            (playback_end_suspends_after_settle_delay NodePath.posix true true 0
               [call_loadJSON "queue.json" record_on; clock_advances 250] _ _
               (Object_assign defaultDolphinPlayerOptions record_on) (end_event true)
               _ _ _ _)) _));
    reflexivity.
Defined.

Lemma disarmed_recorder_drops_events_witness :
  ∃ out,
    step NodePath.posix (new_DolphinRecorder true true 0) (playbackStatus_emits start_event)
    = Some (new_DolphinRecorder true true 0, out)
    ∧ ∀ o, o ∈ out → o = (playbackStatus, EIsConnected false).
Proof.
  refine (proj1 (disarmed_recorder_drops_events NodePath.posix
                   (new_DolphinRecorder true true 0) start_event _)).
  reflexivity.
Defined.

Lemma queue_empty_stops_if_recording_then_kills_witness :
  ∃ s tr,
    run NodePath.posix (new_DolphinRecorder true true 0)
      [call_loadJSON "queue.json" record_on; launcher_sets_dolphin true] = Some (s, tr)
    ∧ step NodePath.posix s (playbackStatus_emits queue_empty_event)
      = Some ({| world := with_basename EmptyString (world s);
                 playback_pipe := Busy (WaitCommand STOP) (after_stop true) [];
                 quit_pipe := quit_pipe s |},
              tag playbackStatus
                [EIsConnected true; EConsoleLog queue_empty_event;
                 EBasenameNext EmptyString; EIsRecording true; ESetRecordingState STOP]).
Proof.
  eexists _, _. split; [reflexivity|].
  refine (proj1 (proj2
            (queue_empty_stops_if_recording_then_kills NodePath.posix _ queue_empty_event
               _ _ _)));
    reflexivity.
Defined.

Lemma rejected_command_tears_subscription_down_witness :
  ∃ s tr s1 out,
    run NodePath.posix (new_DolphinRecorder true false 0)
      [call_loadJSON "queue.json" record_on; playbackStatus_emits start_event] = Some (s, tr)
    ∧ step NodePath.posix s (command_settles playbackStatus false) = Some (s1, out)
    ∧ out = [(playbackStatus, EUnhandledError)]
    ∧ playback_pipe s1 = Errored.
Proof.
  eexists _, _, _, _. split; [reflexivity|].
  match goal with
  | |- step _ ?s _ = _ ∧ _ =>
      refine (let H := rejected_command_tears_subscription_down NodePath.posix s _ _
                         eq_refl in
              conj _ (conj (proj1 H) (proj1 (proj2 (proj2 (proj2 H))))))
  end; reflexivity.
Defined.

(** C1, the claim as stated fails.  While the PAUSE of a PLAYBACK_END
    event is in flight, the next playback event has the device asked
    whether it is connected at once, and the engine-exited signal has STOP
    sent although PAUSE has not settled: two commands are in flight. *)
Lemma command_in_flight_holds_back_neither_query_nor_stop :
  snd <$> run NodePath.posix (new_DolphinRecorder true true 0)
            [call_loadJSON "queue.json" record_on;
             playbackStatus_emits (end_event false);
             playbackStatus_emits start_event;
             dolphinQuit_emits]
  = Some [(call_loadJSON "queue.json" record_on, [(caller, ESuperLoadJSON "queue.json")]);
          (playbackStatus_emits (end_event false),
           [(playbackStatus, EIsConnected true);
            (playbackStatus, EConsoleLog (end_event false));
            (playbackStatus, ESetRecordingState PAUSE)]);
          (playbackStatus_emits start_event, [(playbackStatus, EIsConnected true)]);
          (dolphinQuit_emits,
           [(dolphinQuit, EIsConnected true);
            (dolphinQuit, EBasenameNext EmptyString);
            (dolphinQuit, EIsRecording true);
            (dolphinQuit, ESetRecordingState STOP)])]
  ∧ (exclusive false ∘ flatten ∘ snd)
      <$> run NodePath.posix (new_DolphinRecorder true true 0)
            [call_loadJSON "queue.json" record_on;
             playbackStatus_emits (end_event false);
             playbackStatus_emits start_event;
             dolphinQuit_emits]
    = Some false.
Proof. split; reflexivity. Qed.

(** C3, the claim as stated fails: recording is enabled, the device is
    connected but not recording, and the recorder holds a process handle.
    The QUEUE_EMPTY handler runs to its end (the subscription is idle
    again) and has sent no STOP; it has killed the process. *)
Lemma queue_empty_while_not_recording_sends_no_stop :
  snd <$> run NodePath.posix (new_DolphinRecorder true false 0)
            [call_loadJSON "queue.json" record_on;
             launcher_sets_dolphin true;
             playbackStatus_emits queue_empty_event]
  = Some [(call_loadJSON "queue.json" record_on, [(caller, ESuperLoadJSON "queue.json")]);
          (launcher_sets_dolphin true, []);
          (playbackStatus_emits queue_empty_event,
           [(playbackStatus, EIsConnected true);
            (playbackStatus, EConsoleLog queue_empty_event);
            (playbackStatus, EBasenameNext EmptyString);
            (playbackStatus, EIsRecording false);
            (playbackStatus, EKill)])]
  ∧ playback_pipe <$> (fst <$> run NodePath.posix (new_DolphinRecorder true false 0)
                                 [call_loadJSON "queue.json" record_on;
                                  launcher_sets_dolphin true;
                                  playbackStatus_emits queue_empty_event])
    = Some Idle.
Proof. split; reflexivity. Qed.

(** C2, the claim as stated fails: the START command of the first event is
    rejected.  The rejection surfaces as an unhandled error, and the two
    events emitted afterwards, with recording still enabled and the device
    still connected, cause nothing at all: they are not even filtered. *)
Lemma rejected_command_ends_event_handling :
  snd <$> run NodePath.posix (new_DolphinRecorder true false 0)
            [call_loadJSON "queue.json" record_on;
             playbackStatus_emits start_event;
             command_settles playbackStatus false;
             playbackStatus_emits (end_event false);
             playbackStatus_emits queue_empty_event]
  = Some [(call_loadJSON "queue.json" record_on, [(caller, ESuperLoadJSON "queue.json")]);
          (playbackStatus_emits start_event,
           [(playbackStatus, EIsConnected true);
            (playbackStatus, EConsoleLog start_event);
            (playbackStatus, EIsRecording false);
            (playbackStatus, ESetRecordingState START)]);
          (command_settles playbackStatus false, [(playbackStatus, EUnhandledError)]);
          (playbackStatus_emits (end_event false), []);
          (playbackStatus_emits queue_empty_event, [])].
Proof. reflexivity. Qed.

(** The two subscriptions are serialised separately: the engine-exited
    signal arriving while the PAUSE command of a PLAYBACK_END event is in
    flight makes [_stopRecording] send STOP before PAUSE has settled. *)
Lemma quit_signal_overlaps_playback_command :
  ∃ s tr,
    run NodePath.posix (new_DolphinRecorder true true 0)
      [call_loadJSON "queue.json" record_on;
       playbackStatus_emits (end_event false);
       dolphinQuit_emits] = Some (s, tr)
    ∧ phase_of (playback_pipe s) = AwaitingCommand
    ∧ phase_of (quit_pipe s) = AwaitingCommand
    ∧ commands_of_trace playbackStatus tr = [PAUSE]
    ∧ commands_of_trace dolphinQuit tr = [STOP]
    ∧ exclusive false (flatten tr) = false.
Proof. eexists _, _. split; [reflexivity|]. repeat split. Qed.

(** The filter is evaluated when an event is emitted, not when its handler
    starts: an event emitted while a command is in flight queries
    [isConnected] at once and is then held back. *)
Lemma filter_runs_at_emission :
  ∃ s tr,
    run NodePath.posix (new_DolphinRecorder true false 0)
      [call_loadJSON "queue.json" record_on; playbackStatus_emits start_event] = Some (s, tr)
    ∧ phase_of (playback_pipe s) = AwaitingCommand
    ∧ ∃ s1,
        step NodePath.posix s (playbackStatus_emits (end_event false))
        = Some (s1, [(playbackStatus, EIsConnected true)])
        ∧ waiting (playback_pipe s1) = [end_event false].
Proof.
  eexists _, _. split; [reflexivity|]. split; [reflexivity|].
  eexists. split; reflexivity.
Qed.

(** ** JSON: parsing what was serialized *)

Module JSONFacts.
Import JSON.
Local Open Scope nat_scope.
Local Open Scope char_scope.

Lemma quote_char_parse c tl :
  parse_string_body (quote_char c ++ tl)
  = match parse_string_body tl with
    | Some (s, r) => Some (String c s, r)
    | None => None
    end.
Proof.
  destruct c as [[] [] [] [] [] [] [] []]; reflexivity.
Qed.

Lemma quote_chars_parse s rest :
  parse_string_body (quote_chars s ++ QUOTE :: rest) = Some (s, rest).
Proof.
  induction s as [|c s IH]; [reflexivity|].
  cbn [quote_chars]. rewrite <- app_assoc, quote_char_parse, IH. reflexivity.
Qed.

Lemma skip_ws_app ws cs : ws_only ws → skip_ws (ws ++ cs) = skip_ws cs.
Proof.
  induction 1 as [|c ws Hc _ IH]; [reflexivity|]. simpl. rewrite Hc. exact IH.
Qed.

Lemma skip_ws_stop c cs : is_ws c = false → skip_ws (c :: cs) = c :: cs.
Proof. intros H. simpl. rewrite H. reflexivity. Qed.

Lemma opens_value_not_ws c : opens_value c → is_ws c = false.
Proof. intros [->|[->|[->|[->|[->| ->]]]]]; reflexivity. Qed.

Lemma serialize_head indent v :
  ∃ c cs, serialize indent v = c :: cs ∧ opens_value c.
Proof.
  unfold opens_value.
  destruct v as [|[]|s|[|e es]|[|m ms]]; cbn; eexists _, _; (split; [reflexivity|]); tauto.
Qed.

Lemma parse_value_skip fuel ws cs :
  ws_only ws → parse_value fuel (ws ++ cs) = parse_value fuel cs.
Proof.
  intros Hws. destruct fuel as [|fuel]; [reflexivity|].
  cbn [parse_value]. rewrite (skip_ws_app _ _ Hws). reflexivity.
Qed.

Lemma ws_only_gap indent : ws_only indent → ws_only (indent ++ gap).
Proof. intros H. apply Forall_app. split; [exact H|]. repeat constructor. Qed.

Lemma ws_only_line indent : ws_only indent → ws_only (LF :: indent).
Proof. intros H. constructor; [reflexivity|exact H]. Qed.

Lemma set_property_fresh k v props :
  k ∉ props.*1 → set_property k v props = props ++ [(k, v)].
Proof.
  induction props as [|[k' v'] props IH]; intros Hk; [reflexivity|].
  cbn [set_property]. rewrite fmap_cons in Hk. apply not_elem_of_cons in Hk as [Hne Hk].
  rewrite bool_decide_eq_false_2 by (intros E; apply Hne; symmetry; exact E).
  rewrite IH by exact Hk. reflexivity.
Qed.

Lemma foldl_set_property ms : ∀ acc,
  NoDup (acc ++ ms).*1 →
  foldl (λ props m, set_property m.1 m.2 props) acc ms = acc ++ ms.
Proof.
  induction ms as [|[k v] ms IH]; intros acc Hnd.
  - rewrite app_nil_r. reflexivity.
  - cbn [foldl fst snd]. rewrite set_property_fresh.
    + rewrite IH; rewrite <- app_assoc; [reflexivity|exact Hnd].
    + rewrite fmap_app in Hnd. apply NoDup_app in Hnd as (_ & Hdis & _).
      intros Hin. apply (Hdis _ Hin). rewrite fmap_cons. left.
Qed.

Lemma define_all_distinct ms : NoDup ms.*1 → define_all ms = ms.
Proof. intros Hnd. unfold define_all. rewrite foldl_set_property; [reflexivity|exact Hnd]. Qed.

Lemma parse_value_quote f cs :
  parse_value (S f) (QUOTE :: cs)
  = match parse_string_body cs with Some (s, r) => Some (Str s, r) | None => None end.
Proof. reflexivity. Qed.

Lemma parse_value_bracket f cs :
  parse_value (S f) ("[" :: cs)
  = match strip_prefix ["]"] (skip_ws cs) with
    | Some r => Some (Arr [], r)
    | None =>
        match parse_elements f cs with Some (es, r) => Some (Arr es, r) | None => None end
    end.
Proof. reflexivity. Qed.

Lemma parse_value_brace f cs :
  parse_value (S f) ("{" :: cs)
  = match strip_prefix ["}"] (skip_ws cs) with
    | Some r => Some (Obj [], r)
    | None =>
        match parse_members f cs with
        | Some (ms, r) => Some (Obj (define_all ms), r)
        | None => None
        end
    end.
Proof. reflexivity. Qed.

Lemma join_cons separator p ps :
  join separator (p :: ps)
  = p ++ match ps with [] => [] | _ :: _ => separator ++ join separator ps end.
Proof. destruct ps; cbn [join]; [rewrite app_nil_r|]; reflexivity. Qed.

Lemma not_closed_yet close ws c cs :
  ws_only ws → opens_value c → close = "]" ∨ close = "}" →
  strip_prefix [close] (skip_ws (ws ++ c :: cs)) = None.
Proof.
  intros Hws Hc Hclose. rewrite (skip_ws_app _ _ Hws).
  rewrite skip_ws_stop by (apply opens_value_not_ws, Hc).
  destruct Hclose as [-> | ->]; destruct Hc as [->|[->|[->|[->|[->| ->]]]]]; reflexivity.
Qed.

Lemma list_sum_cons x l : list_sum (x :: l) = x + list_sum l.
Proof. reflexivity. Qed.

Lemma parse_elements_join inner indent rest :
  ws_only inner → ws_only indent →
  ∀ es e fuel ws,
    Forall parses_back (e :: es) →
    forallb distinct_keys (e :: es) = true →
    ws_only ws →
    list_sum (List.map (λ e, S (weight e)) (e :: es)) ≤ fuel →
    parse_elements fuel
      (ws ++ join ("," :: LF :: inner) (List.map (serialize inner) (e :: es))
          ++ LF :: indent ++ "]" :: rest)
    = Some (e :: es, rest).
Proof.
  intros Hinner Hindent. induction es as [|e' es IH]; intros e fuel ws Hall Hd Hws Hfuel.
  - apply Forall_cons in Hall as [He _]. cbn [forallb] in Hd. rewrite andb_true_r in Hd.
    cbn [List.map] in Hfuel. rewrite list_sum_cons in Hfuel.
    destruct fuel as [|f]; [lia|]. cbn [parse_elements List.map join].
    rewrite parse_value_skip by exact Hws.
    rewrite (He Hd inner _ f Hinner) by lia. cbn [mbind option_bind].
    change (LF :: indent ++ "]" :: rest) with ((LF :: indent) ++ "]" :: rest).
    rewrite skip_ws_app by (apply ws_only_line, Hindent). reflexivity.
  - apply Forall_cons in Hall as [He Hall].
    cbn [forallb] in Hd. apply andb_true_iff in Hd as [Hde Hd].
    cbn [List.map] in Hfuel. rewrite list_sum_cons in Hfuel.
    destruct fuel as [|f]; [lia|]. cbn [parse_elements].
    cbn [List.map]. rewrite join_cons. cbn [List.map] in IH.
    rewrite <- !app_assoc. rewrite parse_value_skip by exact Hws.
    rewrite (He Hde inner _ f Hinner) by lia. cbn [mbind option_bind app].
    rewrite skip_ws_stop by reflexivity. cbn [Ascii.eqb Bool.eqb].
    change (LF :: inner ++ ?x) with ((LF :: inner) ++ x).
    rewrite (IH e' f (LF :: inner) Hall Hd (ws_only_line _ Hinner)); [reflexivity|].
    cbn [List.map]. lia.
Qed.

Lemma parse_members_unfold f ws k cs :
  ws_only ws →
  parse_members (S f) (ws ++ QuoteJSONString k ++ ":" :: SPACE :: cs)
  = match parse_value f cs with
    | Some (e, r3) =>
        match skip_ws r3 with
        | c :: r4 =>
            if Ascii.eqb c "," then
              match parse_members f r4 with
              | Some (ms, r5) => Some ((k, e) :: ms, r5)
              | None => None
              end
            else if Ascii.eqb c "}" then Some ([(k, e)], r4)
            else None
        | [] => None
        end
    | None => None
    end.
Proof.
  intros Hws. cbn [parse_members]. rewrite (skip_ws_app _ _ Hws).
  unfold QuoteJSONString. cbn [app]. rewrite skip_ws_stop by reflexivity.
  change (Ascii.eqb QUOTE QUOTE) with true. cbn iota.
  rewrite <- app_assoc. cbn [app]. rewrite quote_chars_parse. cbn [mbind option_bind].
  rewrite skip_ws_stop by reflexivity.
  change (strip_prefix (chars ":") (":" :: SPACE :: cs)) with (Some (SPACE :: cs)). cbn iota.
  change (SPACE :: cs) with ([SPACE] ++ cs).
  rewrite parse_value_skip by (repeat constructor).
  destruct (parse_value f cs) as [[e r3]|]; [|reflexivity]. cbn [mbind option_bind].
  destruct (skip_ws r3) as [|c r4]; [reflexivity|].
  destruct (Ascii.eqb c ","); [|reflexivity].
  destruct (parse_members f r4) as [[ms r5]|]; reflexivity.
Qed.

Lemma parse_members_join inner indent rest :
  ws_only inner → ws_only indent →
  ∀ ms m fuel ws,
    Forall (λ m, parses_back m.2) (m :: ms) →
    forallb (λ m, distinct_keys m.2) (m :: ms) = true →
    ws_only ws →
    list_sum (List.map (λ m, S (weight m.2)) (m :: ms)) ≤ fuel →
    parse_members fuel
      (ws ++ join ("," :: LF :: inner) (List.map (member_text inner) (m :: ms))
          ++ LF :: indent ++ "}" :: rest)
    = Some (m :: ms, rest).
Proof.
  intros Hinner Hindent. induction ms as [|m' ms IH]; intros [k e] fuel ws Hall Hd Hws Hfuel.
  - apply Forall_cons in Hall as [He _]. cbn [forallb snd] in Hd. rewrite andb_true_r in Hd.
    cbn [List.map snd] in Hfuel. rewrite list_sum_cons in Hfuel.
    destruct fuel as [|f]; [lia|]. cbn [List.map join]. unfold member_text. cbn [fst snd].
    rewrite <- !app_assoc. cbn [app]. rewrite parse_members_unfold by exact Hws.
    cbn [snd] in He. rewrite (He Hd inner _ f Hinner) by lia.
    change (LF :: indent ++ "}" :: rest) with ((LF :: indent) ++ "}" :: rest).
    rewrite skip_ws_app by (apply ws_only_line, Hindent). reflexivity.
  - apply Forall_cons in Hall as [He Hall].
    cbn [forallb snd] in Hd. apply andb_true_iff in Hd as [Hde Hd].
    cbn [List.map snd] in Hfuel. rewrite list_sum_cons in Hfuel.
    destruct fuel as [|f]; [lia|].
    cbn [List.map]. rewrite join_cons. cbn [List.map] in IH.
    unfold member_text at 1. cbn [fst snd].
    rewrite <- !app_assoc. cbn [app]. rewrite parse_members_unfold by exact Hws.
    cbn [snd] in He. rewrite (He Hde inner _ f Hinner) by lia.
    rewrite skip_ws_stop by reflexivity. change (Ascii.eqb "," ",") with true. cbn iota.
    change (LF :: inner ++ ?x) with ((LF :: inner) ++ x).
    rewrite (IH m' f (LF :: inner) Hall Hd (ws_only_line _ Hinner)); [reflexivity|].
    cbn [List.map]. lia.
Qed.

Lemma skip_ws_line indent cs :
  ws_only indent → skip_ws (LF :: indent ++ gap ++ cs) = skip_ws cs.
Proof.
  intros Hind. change (LF :: indent ++ gap ++ cs) with ((LF :: indent) ++ gap ++ cs).
  rewrite skip_ws_app by (apply ws_only_line, Hind).
  apply skip_ws_app. repeat constructor.
Qed.

Lemma distinct_keys_arr es : distinct_keys (Arr es) = forallb distinct_keys es.
Proof. reflexivity. Qed.

Lemma distinct_keys_obj ms :
  distinct_keys (Obj ms)
  = bool_decide (NoDup ms.*1) && forallb (λ m, distinct_keys m.2) ms.
Proof. reflexivity. Qed.

Lemma serialize_arr indent es :
  serialize indent (Arr es) = wrap "[" "]" indent (List.map (serialize (indent ++ gap)) es).
Proof. reflexivity. Qed.

Lemma serialize_obj indent ms :
  serialize indent (Obj ms) = wrap "{" "}" indent (List.map (member_text (indent ++ gap)) ms).
Proof. reflexivity. Qed.

Lemma weight_arr es : weight (Arr es) = S (list_sum (List.map (λ e, S (weight e)) es)).
Proof. reflexivity. Qed.

Lemma weight_obj ms : weight (Obj ms) = S (list_sum (List.map (λ m, S (weight m.2)) ms)).
Proof. reflexivity. Qed.

Lemma parse_serialize v : parses_back v.
Proof.
  induction v as [|b|s|es IH|ms IH] using value_nested_ind; intros Hd indent rest fuel Hind Hfuel.
  - destruct fuel as [|f]; [cbn in Hfuel; lia|]. reflexivity.
  - destruct fuel as [|f]; [cbn in Hfuel; lia|]. destruct b; reflexivity.
  - destruct fuel as [|f]; [cbn in Hfuel; lia|].
    cbn [serialize]. unfold QuoteJSONString. cbn [app]. rewrite parse_value_quote.
    rewrite <- app_assoc. cbn [app]. rewrite quote_chars_parse. reflexivity.
  - rewrite distinct_keys_arr in Hd. rewrite weight_arr in Hfuel. rewrite serialize_arr.
    destruct fuel as [|f]; [lia|]. apply le_S_n in Hfuel.
    destruct es as [|e es]; [reflexivity|].
    unfold wrap. cbn [List.map]. cbn [app]. rewrite parse_value_bracket.
    rewrite <- ?app_assoc. cbn [app]. rewrite <- ?app_assoc. cbn [app].
    destruct (serialize_head (indent ++ gap) e) as (c & cs & Hc & Hopen).
    assert (strip_prefix ["]"]
              (skip_ws (LF :: indent ++ gap ++
                 join ("," :: LF :: indent ++ gap)
                   (serialize (indent ++ gap) e :: List.map (serialize (indent ++ gap)) es) ++
                 LF :: indent ++ "]" :: rest)) = None) as ->.
    { rewrite (skip_ws_line _ _ Hind), join_cons, Hc. cbn [app].
      apply (not_closed_yet "]" []); [constructor|exact Hopen|tauto]. }
    pose proof (parse_elements_join (indent ++ gap) indent rest (ws_only_gap _ Hind) Hind
                  es e f (LF :: indent ++ gap) IH Hd
                  (ws_only_line _ (ws_only_gap _ Hind)) Hfuel) as Hpe.
    cbn [List.map app] in Hpe. rewrite <- ?app_assoc in Hpe. cbn [app] in Hpe.
    rewrite Hpe. reflexivity.
  - rewrite distinct_keys_obj in Hd. apply andb_true_iff in Hd as [Hnd Hd].
    apply bool_decide_eq_true in Hnd.
    rewrite weight_obj in Hfuel. rewrite serialize_obj.
    destruct fuel as [|f]; [lia|]. apply le_S_n in Hfuel.
    destruct ms as [|m ms]; [reflexivity|].
    unfold wrap. cbn [List.map]. cbn [app]. rewrite parse_value_brace.
    rewrite <- ?app_assoc. cbn [app]. rewrite <- ?app_assoc. cbn [app].
    assert (strip_prefix ["}"]
              (skip_ws (LF :: indent ++ gap ++
                 join ("," :: LF :: indent ++ gap)
                   (member_text (indent ++ gap) m :: List.map (member_text (indent ++ gap)) ms) ++
                 LF :: indent ++ "}" :: rest)) = None) as ->.
    { rewrite (skip_ws_line _ _ Hind), join_cons. unfold member_text at 1, QuoteJSONString.
      cbn [app].
      apply (not_closed_yet "}" []); [constructor|unfold opens_value; tauto|tauto]. }
    pose proof (parse_members_join (indent ++ gap) indent rest (ws_only_gap _ Hind) Hind
                  ms m f (LF :: indent ++ gap) IH Hd
                  (ws_only_line _ (ws_only_gap _ Hind)) Hfuel) as Hpm.
    cbn [List.map app] in Hpm. rewrite <- ?app_assoc in Hpm. cbn [app] in Hpm.
    rewrite Hpm. rewrite (define_all_distinct _ Hnd). reflexivity.
Qed.

Lemma join_weight {A} (text : A → list ascii) (w : A → nat) separator xs :
  Forall (λ x, w x ≤ length (text x)) xs →
  1 ≤ length separator →
  list_sum (List.map (λ x, S (w x)) xs) ≤ S (length (join separator (List.map text xs))).
Proof.
  intros Hall Hsep. induction Hall as [|x xs Hx Hall IH]; [cbn; lia|].
  cbn [List.map]. rewrite list_sum_cons, join_cons.
  destruct xs as [|x' xs].
  - cbn. rewrite app_nil_r. lia.
  - cbn [List.map] in *. rewrite !length_app. lia.
Qed.

Lemma weight_le_length v : ∀ indent, weight v ≤ length (serialize indent v).
Proof.
  induction v as [|b|s|es IH|ms IH] using value_nested_ind; intros indent.
  - cbn. lia.
  - destruct b; cbn; lia.
  - cbn. lia.
  - rewrite weight_arr, serialize_arr. destruct es as [|e es]; [cbn; lia|].
    assert (Forall (λ e, weight e ≤ length (serialize (indent ++ gap) e)) (e :: es)) as Hall
      by (eapply Forall_impl; [exact IH|]; intros v Hv; apply Hv).
    pose proof (join_weight (serialize (indent ++ gap)) weight
                  ("," :: LF :: indent ++ gap) (e :: es) Hall) as Hj.
    unfold wrap. cbn [List.map] in *. cbn [length]. rewrite !length_app. cbn [length] in *.
    lia.
  - rewrite weight_obj, serialize_obj. destruct ms as [|m ms]; [cbn; lia|].
    assert (Forall (λ m : string * value,
                      weight m.2 ≤ length (member_text (indent ++ gap) m)) (m :: ms)) as Hall.
    { eapply Forall_impl; [exact IH|]. intros m' Hm. unfold member_text.
      rewrite length_app. cbn [length]. specialize (Hm (indent ++ gap)). lia. }
    pose proof (join_weight (member_text (indent ++ gap)) (λ m, weight m.2)
                  ("," :: LF :: indent ++ gap) (m :: ms) Hall) as Hj.
    unfold wrap. cbn [List.map] in *. cbn [length]. rewrite !length_app. cbn [length] in *.
    lia.
Qed.

Lemma parse_stringify v : distinct_keys v = true → parse (stringify v) = Some v.
Proof.
  intros Hd. unfold parse, stringify, chars.
  rewrite String.list_ascii_of_string_of_list_ascii.
  pose proof (parse_serialize v Hd [] [] (S (length (serialize [] v)))) as H.
  rewrite app_nil_r in H. rewrite H; [reflexivity|constructor|].
  pose proof (weight_le_length v []). lia.
Qed.

End JSONFacts.

(** ** Queue files *)

Lemma get_property_None k props : JSON.get_property k props = None ↔ k ∉ props.*1.
Proof.
  induction props as [|[k' v'] props IH]; cbn [JSON.get_property].
  - split; [intros _; apply not_elem_of_nil|reflexivity].
  - rewrite fmap_cons, not_elem_of_cons. cbn [fst]. case_bool_decide as Hk.
    + split; [discriminate|]. intros [Hne _]. congruence.
    + rewrite IH. split; [intros H; split; [congruence|exact H]|intros [_ H]; exact H].
Qed.

Lemma get_property_app_fresh k v props :
  k ∉ props.*1 → JSON.get_property k (props ++ [(k, v)]) = Some v.
Proof.
  induction props as [|[k' v'] props IH]; intros Hk; cbn [JSON.get_property app].
  - rewrite bool_decide_eq_true_2; reflexivity.
  - rewrite fmap_cons in Hk. apply not_elem_of_cons in Hk as [Hne Hk]. cbn [fst] in Hne.
    rewrite bool_decide_eq_false_2 by congruence. apply IH, Hk.
Qed.

Lemma entry_paths queue : mapM entry_path (entry_value <$> queue) = Some (path <$> queue).
Proof.
  induction queue as [|e queue IH]; [reflexivity|].
  rewrite !fmap_cons. cbn [mapM]. rewrite IH. reflexivity.
Qed.

Lemma entries_distinct queue :
  forallb JSON.distinct_keys (entry_value <$> queue) = true.
Proof.
  induction queue as [|e queue IH]; [reflexivity|].
  rewrite fmap_cons. cbn [forallb]. rewrite IH. reflexivity.
Qed.

Lemma filter_other_keys k v props :
  k ∉ props.*1 →
  filter (λ m : string * JSON.value, m.1 ≠ k) (props ++ [(k, v)]) = props.
Proof.
  intros Hk. rewrite filter_app.
  rewrite (filter_cons_False _ (k, v)) by (intros H; apply H; reflexivity).
  rewrite filter_nil, app_nil_r.
  induction props as [|[k' v'] props IH]; [reflexivity|].
  rewrite fmap_cons in Hk. apply not_elem_of_cons in Hk as [Hne Hk]. cbn [fst] in Hne.
  rewrite filter_cons_True by (cbn; congruence). rewrite IH by exact Hk. reflexivity.
Qed.

Lemma queue_format_shape options queue :
  JSON.get_property "queue" options = None →
  DolphinQueueFormat options queue
  = JSON.Obj (options ++ [("queue"%string, JSON.Arr (entry_value <$> queue))]).
Proof.
  intros Hq. unfold DolphinQueueFormat. rewrite JSONFacts.set_property_fresh; [reflexivity|].
  apply get_property_None, Hq.
Qed.

Lemma queue_format_distinct options queue :
  JSON.distinct_keys (JSON.Obj options) = true →
  JSON.get_property "queue" options = None →
  JSON.distinct_keys (DolphinQueueFormat options queue) = true.
Proof.
  intros Hd Hq. rewrite queue_format_shape by exact Hq.
  rewrite JSONFacts.distinct_keys_obj in *. apply andb_true_iff in Hd as [Hnd Hd].
  apply bool_decide_eq_true in Hnd. apply andb_true_iff. split.
  - apply bool_decide_eq_true. rewrite fmap_app. apply NoDup_app. split_and!; [exact Hnd| |].
    + intros k Hk [->|H]%elem_of_cons; [|inversion H]. apply get_property_None in Hq. exact (Hq Hk).
    + cbn. apply NoDup_singleton.
  - rewrite forallb_app, Hd. cbn [forallb snd]. rewrite andb_true_r.
    rewrite JSONFacts.distinct_keys_arr. apply entries_distinct.
Qed.

(** C8 (confirmed).  Let [options] be a plain object whose keys are
    pairwise distinct at every level and which has no key [queue], and let
    [queue] be a list of [{path}] entries.  The text
    [JSON.stringify({...options, queue}, undefined, 2)] parses back to that
    very object: the paths of its [queue] array are the paths of [queue] in
    the same order, and its other properties are [options].  This text is
    what [saveQueueToFile] writes to the chosen path and what
    [loadQueueIntoDolphin] writes to the temporary file. *)
Theorem queue_file_round_trip options queue :
  JSON.distinct_keys (JSON.Obj options) = true →
  JSON.get_property "queue" options = None →
  let doc := JSON.stringify (DolphinQueueFormat options queue) in
  JSON.parse doc = Some (DolphinQueueFormat options queue)
  ∧ JSON.parse doc ≫= queue_paths = Some (path <$> queue)
  ∧ queue_options <$> JSON.parse doc = Some options
  ∧ (∀ h p app,
       tempContainer app = {| dolphinQueue := queue; dolphinQueueOptions := options |} →
       no_path (Some p) = false → writeFile_fulfils h = true →
       files (saveQueueToFile h (Some p) app).1 !! p = Some doc)
  ∧ (∀ h o app,
       tempContainer app = {| dolphinQueue := queue; dolphinQueueOptions := options |} →
       writeFile_fulfils h = true →
       files (loadQueueIntoDolphin h o app) !! randomTempJSONFile h = Some doc).
Proof.
  intros Hd Hq doc.
  assert (JSON.parse doc = Some (DolphinQueueFormat options queue)) as Hparse
    by (apply JSONFacts.parse_stringify, queue_format_distinct; assumption).
  pose proof (proj1 (get_property_None _ _) Hq) as Hfresh.
  rewrite Hparse. split_and!.
  - reflexivity.
  - cbn [mbind option_bind]. rewrite queue_format_shape by exact Hq.
    cbn [queue_paths]. rewrite get_property_app_fresh by exact Hfresh. apply entry_paths.
  - cbn [fmap option_fmap option_map]. rewrite queue_format_shape by exact Hq.
    cbn [queue_options]. rewrite filter_other_keys by exact Hfresh. reflexivity.
  - intros h p app Htc Hp Hw. unfold saveQueueToFile. rewrite Hp, Hw, Htc.
    cbn. apply lookup_insert_eq.
  - intros h o app Htc Hw. unfold loadQueueIntoDolphin, loadPayloadIntoDolphin.
    rewrite Hw, Htc. cbn. apply lookup_insert_eq.
Qed.

(** C9 (confirmed).  When [getFilePath] resolves to [undefined] or to the
    empty string, [saveQueueToFile] logs the error line and returns: the
    files, the queue state of the store, the player and its launches are all
    unchanged. *)
Theorem saveQueue_without_path_writes_nothing h p app :
  no_path p = true →
  saveQueueToFile h p app
  = (console_write (error_message "Could not save queue because path is undefined") app,
     Fulfilled)
  ∧ files (saveQueueToFile h p app).1 = files app
  ∧ tempContainer (saveQueueToFile h p app).1 = tempContainer app
  ∧ dolphinPlayer (saveQueueToFile h p app).1 = dolphinPlayer app
  ∧ launches (saveQueueToFile h p app).1 = launches app
  ∧ no_path None = true
  ∧ no_path (Some EmptyString) = true.
Proof.
  intros Hp. unfold saveQueueToFile. rewrite Hp. split_and!; reflexivity.
Qed.

(** C7 (confirmed).  [loadSlpFilesInDolphin] keeps exactly the file names
    whose [path.extname] is [.slp], in their original order, one [{path}]
    entry each.  When none is kept it only logs the empty queue: no file is
    written and the player is not called.  Otherwise the payload generated
    from the kept entries is written to the temporary file, which is then
    handed to the player.  On either platform, [a.slp; a.txt; b.slp] keeps
    [a.slp; b.slp] and [a.txt] keeps nothing. *)
Theorem loadSlpFiles_keeps_replays_in_order h filenames options app :
  let kept := filter (is_replay (host_os h)) filenames in
  let queue := as_entry <$> kept in
  let result := loadSlpFilesInDolphin h filenames options app in
  kept `sublist_of` filenames
  ∧ (∀ f, f ∈ kept ↔ f ∈ filenames ∧ NodePath.extname (host_os h) f = ".slp"%string)
  ∧ path <$> queue = kept
  ∧ (kept = [] → result = (console_write (log_queue []) app, Fulfilled))
  ∧ (kept ≠ [] →
       result = loadPayloadIntoDolphin h (generateDolphinQueuePayload h queue) options
                  (console_write (log_queue queue) app))
  ∧ (kept ≠ [] → writeFile_fulfils h = true →
       files result.1 = <[randomTempJSONFile h := generateDolphinQueuePayload h queue]> (files app)
       ∧ launches result.1 = launches app ++ [(caller, ESuperLoadJSON (randomTempJSONFile h))])
  ∧ filter (is_replay (host_os h)) ["a.slp"; "a.txt"; "b.slp"]%string = ["a.slp"; "b.slp"]%string
  ∧ filter (is_replay (host_os h)) ["a.txt"]%string = [].
Proof.
  intros kept queue result.
  assert (result = if (length queue =? 0)%nat
                   then (console_write (log_queue queue) app, Fulfilled)
                   else loadPayloadIntoDolphin h (generateDolphinQueuePayload h queue) options
                          (console_write (log_queue queue) app)) as Hres by reflexivity.
  split_and!.
  - apply sublist_filter.
  - intros f. unfold kept. rewrite list_elem_of_filter. unfold is_replay. tauto.
  - unfold queue. rewrite <- list_fmap_compose. apply list_fmap_id.
  - intros Hk. rewrite Hres. unfold queue. rewrite Hk. reflexivity.
  - intros Hk. rewrite Hres. destruct kept as [|f kept'] eqn:E; [congruence|]. reflexivity.
  - intros Hk Hw. rewrite Hres. destruct kept as [|f kept'] eqn:E; [congruence|].
    unfold queue. cbn [fmap list_fmap length Nat.eqb].
    unfold loadPayloadIntoDolphin. rewrite Hw. split; reflexivity.
  - destruct (host_os h); reflexivity.
  - destruct (host_os h); reflexivity.
Qed.

(** ** Queue files at concrete inputs *)

Lemma queue_file_round_trip_witness :
  JSON.parse (JSON.stringify (DolphinQueueFormat sample_options sample_queue))
  ≫= queue_paths
  = Some ["C:\replays\Game_1.slp"; "b.slp"]%string.
Proof.
  refine (proj1 (proj2 (queue_file_round_trip sample_options sample_queue _ _)));
    reflexivity.
Defined.

Lemma saveQueue_without_path_writes_nothing_witness :
  files (saveQueueToFile sample_host None sample_app).1 = files sample_app.
Proof.
  refine (proj1 (proj2
            (saveQueue_without_path_writes_nothing sample_host None sample_app _))).
  reflexivity.
Defined.

(** ** The engine-exited subscription *)

Section Quit.
Variable os : NodePath.platform.

Lemma emit_quit_observe s s' out :
  emit_quit s = (s', out) →
  observe_all dolphinQuit (phase_of (quit_pipe s)) (items (dolphinQuit_emits, out))
  = Some (phase_of (quit_pipe s')).
Proof.
  unfold emit_quit.
  assert (quit_pipe s ≠ Errored →
    (if armed (world s)
     then let '(w, out0, p') := pipe_next quit_handler () (quit_pipe s) (world s) in
          ({| world := w; playback_pipe := playback_pipe s; quit_pipe := p' |},
           tag dolphinQuit (gate_effects (world s) ++ out0))
     else (s, tag dolphinQuit (gate_effects (world s)))) = (s', out) →
    observe_all dolphinQuit (phase_of (quit_pipe s))
      (items (dolphinQuit_emits, out)) = Some (phase_of (quit_pipe s'))) as Hlive.
  { intros Hne. destruct (armed (world s)).
    - destruct (pipe_next _ _ _ _) as [[w out0] p'] eqn:E. intros [= <- <-].
      rewrite items_tag. simpl. rewrite gate_observe.
      + eapply pipe_next_observe, E.
      + destruct (quit_pipe s) as [|[]|]; simpl; congruence.
    - intros [= <- <-]. rewrite items_tag. simpl.
      rewrite <- (app_nil_r (gate_effects _)), gate_observe; [reflexivity|].
      destruct (quit_pipe s) as [|[]|]; simpl; congruence. }
  destruct (quit_pipe s) eqn:Ep.
  - intros H. apply Hlive in H; [|congruence]. simpl in H. exact H.
  - intros H. apply Hlive in H; [|congruence]. exact H.
  - intros [= <- <-]. simpl. rewrite Ep. reflexivity.
Qed.

Lemma step_observe_quit s i s' out :
  step os s i = Some (s', out) →
  observe_all dolphinQuit (phase_of (quit_pipe s)) (items (i, out))
  = Some (phase_of (quit_pipe s')).
Proof.
  destruct i as [payload| |fullpath|file options|src|src ok|c r|h|dt]; cbn [step].
  - intros [= H]. revert H. unfold emit_playback.
    assert (∀ o, observe_all dolphinQuit (phase_of (quit_pipe s))
                   (items (playbackStatus_emits payload, tag playbackStatus o))
                 = Some (phase_of (quit_pipe s))) as Hq.
    { intros o. rewrite items_tag. simpl. apply observe_other. discriminate. }
    destruct (playback_pipe s); destruct (armed (world s));
      try destruct (pipe_next _ _ _ _) as [[w out0] p'];
      intros [= <- <-]; simpl quit_pipe; try apply Hq; reflexivity.
  - intros [= H]. apply emit_quit_observe, H.
  - intros [= <- <-]. reflexivity.
  - intros [= <- <-]. reflexivity.
  - destruct src; try discriminate.
    + destruct (playback_pipe s) as [|[d|a] k buffer|] eqn:Ep; try discriminate.
      destruct (d <=? now (world s)); [|discriminate].
      unfold resume_playback.
      destruct (pipe_resume _ _ _ _) as [[w out0] p'] eqn:E. intros [= <- <-].
      rewrite items_tag. simpl. apply observe_other. discriminate.
    + destruct (quit_pipe s) as [|[d|a] k buffer|] eqn:Ep; try discriminate.
      destruct (d <=? now (world s)); [|discriminate].
      unfold resume_quit.
      destruct (pipe_resume _ _ _ _) as [[w out0] p'] eqn:E. intros [= <- <-].
      rewrite items_tag. simpl. eapply pipe_resume_observe, E.
  - destruct src; try discriminate.
    + destruct (playback_pipe s) as [|[d|a] k buffer|] eqn:Ep; try discriminate.
      destruct ok.
      * unfold resume_playback.
        destruct (pipe_resume _ _ _ _) as [[w out0] p'] eqn:E. intros [= <- <-].
        rewrite items_tag. simpl. apply observe_other. discriminate.
      * intros [= <- <-]. reflexivity.
    + destruct (quit_pipe s) as [|[d|a] k buffer|] eqn:Ep; try discriminate.
      destruct ok.
      * unfold resume_quit.
        destruct (pipe_resume _ _ _ _) as [[w out0] p'] eqn:E. intros [= <- <-].
        rewrite items_tag. simpl. eapply pipe_resume_observe, E.
      * intros [= <- <-]. reflexivity.
  - intros [= <- <-]. reflexivity.
  - intros [= <- <-]. reflexivity.
  - destruct (0 <=? dt); [|discriminate]. intros [= <- <-]. reflexivity.
Qed.

Lemma run_observe_quit ins : ∀ s s' tr,
  run os s ins = Some (s', tr) →
  observe_all dolphinQuit (phase_of (quit_pipe s)) (flatten tr)
  = Some (phase_of (quit_pipe s')).
Proof.
  induction ins as [|i ins IH]; intros s s' tr; simpl.
  - intros [= <- <-]. reflexivity.
  - destruct (step os s i) as [[s1 out]|] eqn:Es; [|discriminate].
    destruct (run os s1 ins) as [[s2 tr2]|] eqn:Er; [|discriminate].
    intros [= <- <-]. rewrite flatten_cons.
    rewrite observe_all_app, (step_observe_quit _ _ _ _ Es). simpl.
    apply IH, Er.
Qed.

Lemma stop_only_run {A} (m : Proc A) w w' out r :
  stop_only m → run_sync m w = (w', out, r) →
  Forall quit_effect out
  ∧ match r with
    | Suspended wt k => stop_only k ∧ wt = WaitCommand STOP
    | Finished _ => True
    end.
Proof.
  revert w w' out r.
  induction m as [a|p k IH|k IH|k IH|k IH|k IH|n k IH|k IH|a k IH|ms k IH];
    intros w w' out r Hs; simpl in *.
  - intros [= <- <- <-]. split; [constructor|done].
  - done.
  - destruct (run_sync (k (obs_recording w)) w) as [[w1 out1] r1] eqn:E.
    intros [= <- <- <-]. eapply IH in E; [|apply Hs]. destruct E as [E1 E2].
    split; [constructor; [exact I|exact E1]|exact E2].
  - intros E. eapply IH in E; [|apply Hs]. exact E.
  - intros E. eapply IH in E; [|apply Hs]. exact E.
  - intros E. eapply IH in E; [|apply Hs]. exact E.
  - destruct Hs as [-> Hs].
    destruct (run_sync k (with_basename _ w)) as [[w1 out1] r1] eqn:E.
    intros [= <- <- <-]. eapply IH in E; [|apply Hs]. destruct E as [E1 E2].
    split; [constructor; [reflexivity|exact E1]|exact E2].
  - done.
  - destruct Hs as [-> Hs]. intros [= <- <- <-].
    split; [repeat constructor|done].
  - done.
Qed.

Lemma quit_handler_stop_only u : stop_only (quit_handler u).
Proof.
  unfold quit_handler, _stopRecording. simpl. split; [reflexivity|].
  intros []; simpl.
  - split; [reflexivity|]. intros []; exact I.
  - intros []; exact I.
Qed.

Lemma drain_stop_only buffer w w' out p :
  drain quit_handler buffer w = (w', out, p) →
  Forall quit_effect out ∧ pipe_stop_only p.
Proof.
  revert w w' out p. induction buffer as [|e rest IH]; intros w w' out p; cbn [drain].
  - intros [= <- <- <-]. split; [constructor|exact I].
  - destruct (run_sync (quit_handler e) w) as [[w1 out1] r1] eqn:E1.
    destruct (stop_only_run _ _ _ _ _ (quit_handler_stop_only e) E1) as [H1 H2].
    destruct r1 as [[]|wt k].
    + destruct (drain quit_handler rest w1) as [[w2 out2] p2] eqn:E2. intros [= <- <- <-].
      destruct (IH _ _ _ _ E2) as [H3 H4]. split; [apply Forall_app; done|done].
    + intros [= <- <- <-]. split; [exact H1|apply H2].
Qed.

Lemma pipe_resume_stop_only k buffer w w' out p :
  stop_only k →
  pipe_resume quit_handler k buffer w = (w', out, p) →
  Forall quit_effect out ∧ pipe_stop_only p.
Proof.
  intros Hs. unfold pipe_resume.
  destruct (run_sync k w) as [[w1 out1] r1] eqn:E1.
  destruct (stop_only_run _ _ _ _ _ Hs E1) as [H1 H2].
  destruct r1 as [[]|wt k'].
  - destruct (drain quit_handler buffer w1) as [[w2 out2] p2] eqn:E2. intros [= <- <- <-].
    destruct (drain_stop_only _ _ _ _ _ E2) as [H3 H4]. split; [apply Forall_app; done|done].
  - intros [= <- <- <-]. split; [exact H1|apply H2].
Qed.

Lemma pipe_next_stop_only e p w w' out p' :
  pipe_stop_only p →
  pipe_next quit_handler e p w = (w', out, p') →
  Forall quit_effect out ∧ pipe_stop_only p'.
Proof.
  intros Hq. destruct p as [|wt k buffer|]; cbn [pipe_next].
  - apply drain_stop_only.
  - intros [= <- <- <-]. split; [constructor|exact Hq].
  - intros [= <- <- <-]. split; [constructor|exact I].
Qed.

Lemma quit_outputs_tag_other src out : src ≠ dolphinQuit → quit_outputs (tag src out).
Proof.
  intros Hne. unfold quit_outputs, tag. apply Forall_fmap, Forall_forall.
  intros e _ H. simpl in H. congruence.
Qed.

Lemma quit_outputs_tag out : Forall quit_effect out → quit_outputs (tag dolphinQuit out).
Proof.
  intros H. unfold quit_outputs, tag. apply Forall_fmap.
  eapply Forall_impl; [exact H|]. intros e He _. exact He.
Qed.

Lemma gate_quit_effect w : Forall quit_effect (gate_effects w).
Proof. unfold gate_effects. destruct (recordingEnabled w); repeat constructor. Qed.

Lemma step_quit_effects s i s' out :
  pipe_stop_only (quit_pipe s) →
  step os s i = Some (s', out) →
  pipe_stop_only (quit_pipe s') ∧ quit_outputs out.
Proof.
  intros Hq.
  destruct i as [payload| |fullpath|file options|src|src ok|c r|h|dt]; cbn [step].
  - unfold emit_playback.
    destruct (playback_pipe s); destruct (armed (world s));
      try destruct (pipe_next _ _ _ _) as [[w out0] p'];
      intros [= <- <-]; cbn [quit_pipe];
      (split; [exact Hq|first [constructor | apply quit_outputs_tag_other; discriminate]]).
  - unfold emit_quit.
    assert (quit_pipe s ≠ Errored →
      (if armed (world s)
       then let '(w, out0, p') := pipe_next quit_handler () (quit_pipe s) (world s) in
            ({| world := w; playback_pipe := playback_pipe s; quit_pipe := p' |},
             tag dolphinQuit (gate_effects (world s) ++ out0))
       else (s, tag dolphinQuit (gate_effects (world s)))) = (s', out) →
      pipe_stop_only (quit_pipe s') ∧ quit_outputs out) as Hlive.
    { intros _. destruct (armed (world s)).
      - destruct (pipe_next _ _ _ _) as [[w out0] p'] eqn:E. intros [= <- <-].
        destruct (pipe_next_stop_only _ _ _ _ _ _ Hq E) as [H1 H2].
        split; [exact H2|]. apply quit_outputs_tag, Forall_app.
        split; [apply gate_quit_effect|exact H1].
      - intros [= <- <-]. split; [exact Hq|]. apply quit_outputs_tag, gate_quit_effect. }
    destruct (quit_pipe s) eqn:Ep.
    + intros [= H]. apply Hlive in H; [exact H|congruence].
    + intros [= H]. apply Hlive in H; [exact H|congruence].
    + intros [= <- <-]. rewrite Ep. split; [exact I|constructor].
  - intros [= <- <-]. split; [exact Hq|]. apply (quit_outputs_tag_other _ [_]). discriminate.
  - intros [= <- <-]. split; [exact Hq|]. apply (quit_outputs_tag_other _ [_]). discriminate.
  - destruct src; try discriminate.
    + destruct (playback_pipe s) as [|[d|a] k buffer|]; try discriminate.
      destruct (d <=? now (world s)); [|discriminate]. unfold resume_playback.
      destruct (pipe_resume _ _ _ _) as [[w out0] p']. intros [= <- <-].
      split; [exact Hq|apply quit_outputs_tag_other; discriminate].
    + destruct (quit_pipe s) as [|[d|a] k buffer|] eqn:Ep; try discriminate.
      destruct (d <=? now (world s)); [|discriminate]. unfold resume_quit.
      destruct (pipe_resume _ _ _ _) as [[w out0] p'] eqn:E. intros [= <- <-].
      destruct (pipe_resume_stop_only _ _ _ _ _ _ Hq E) as [H1 H2].
      split; [exact H2|apply quit_outputs_tag, H1].
  - destruct src; try discriminate.
    + destruct (playback_pipe s) as [|[d|a] k buffer|]; try discriminate. destruct ok.
      * unfold resume_playback.
        destruct (pipe_resume _ _ _ _) as [[w out0] p']. intros [= <- <-].
        split; [exact Hq|apply quit_outputs_tag_other; discriminate].
      * intros [= <- <-]. split; [exact Hq|]. apply (quit_outputs_tag_other _ [_]). discriminate.
    + destruct (quit_pipe s) as [|[d|a] k buffer|] eqn:Ep; try discriminate. destruct ok.
      * unfold resume_quit.
        destruct (pipe_resume _ _ _ _) as [[w out0] p'] eqn:E. intros [= <- <-].
        destruct (pipe_resume_stop_only _ _ _ _ _ _ Hq E) as [H1 H2].
        split; [exact H2|apply quit_outputs_tag, H1].
      * intros [= <- <-]. split; [exact I|]. repeat constructor.
  - intros [= <- <-]. split; [exact Hq|constructor].
  - intros [= <- <-]. split; [exact Hq|constructor].
  - destruct (0 <=? dt); [|discriminate]. intros [= <- <-]. split; [exact Hq|constructor].
Qed.

Lemma run_quit_effects ins : ∀ s s' tr,
  pipe_stop_only (quit_pipe s) →
  run os s ins = Some (s', tr) →
  Forall (λ t : Input * list Output, quit_outputs t.2) tr.
Proof.
  induction ins as [|i ins IH]; intros s s' tr Hq; simpl.
  - intros [= <- <-]. constructor.
  - destruct (step os s i) as [[s1 out]|] eqn:Es; [|discriminate].
    destruct (run os s1 ins) as [[s2 tr2]|] eqn:Er; [|discriminate].
    intros [= <- <-]. destruct (step_quit_effects _ _ _ _ Hq Es) as [Hq1 Hout].
    constructor; [exact Hout|]. eapply IH; eauto.
Qed.

End Quit.

(** X3.  The engine-exited subscription handles one signal at a time too:
    in every run from the constructed recorder, between the moment
    [_stopRecording()] sends its STOP and the moment that command settles,
    the subscription does nothing but answer the filter's [isConnected]
    query; after a rejection it does nothing at all. *)
Theorem quit_signals_are_handled_one_at_a_time os c r t0 ins s tr :
  run os (new_DolphinRecorder c r t0) ins = Some (s, tr) →
  serial dolphinQuit tr.
Proof.
  intros Hrun. pose proof (run_observe_quit os _ _ _ _ Hrun) as Hobs.
  unfold serial. simpl in Hobs. rewrite Hobs. eauto.
Qed.

Lemma quit_signals_are_handled_one_at_a_time_witness :
  ∃ s tr,
    run NodePath.posix (new_DolphinRecorder true true 0)
      [call_loadJSON "queue.json" record_on; dolphinQuit_emits; dolphinQuit_emits;
       command_settles dolphinQuit true] = Some (s, tr)
    ∧ serial dolphinQuit tr.
Proof.
  eexists _, _. split; [reflexivity|].
  eapply (quit_signals_are_handled_one_at_a_time NodePath.posix true true 0
            [call_loadJSON "queue.json" record_on; dolphinQuit_emits; dolphinQuit_emits;
             command_settles dolphinQuit true]).
  reflexivity.
Defined.

(** X4.  In every run from the constructed recorder, all the
    engine-exited subscription ever does is: the filter's [isConnected]
    query, publishing the empty basename, the [isRecording] query, the
    command STOP, and the report of a rejected command.  It never kills the
    engine process ([_stopRecording] is called without its argument), never
    sends START, PAUSE or UNPAUSE, never sets a timer and never logs. *)
Theorem quit_signal_only_resets_and_stops os c r t0 ins s tr :
  run os (new_DolphinRecorder c r t0) ins = Some (s, tr) →
  Forall (λ t : Input * list Output,
            Forall (λ o : Output, o.1 = dolphinQuit → quit_effect o.2) t.2) tr.
Proof.
  intros Hrun.
  assert (pipe_stop_only (quit_pipe (new_DolphinRecorder c r t0))) as Hq by exact I.
  exact (run_quit_effects os _ _ _ _ Hq Hrun).
Qed.

Lemma quit_signal_only_resets_and_stops_witness :
  ∃ s tr,
    run NodePath.posix (new_DolphinRecorder true true 0)
      [call_loadJSON "queue.json" record_on; launcher_sets_dolphin true; dolphinQuit_emits;
       command_settles dolphinQuit true]
    = Some (s, tr)
    ∧ Forall (λ t : Input * list Output,
                Forall (λ o : Output, o.1 = dolphinQuit → quit_effect o.2) t.2) tr.
Proof.
  eexists _, _. split; [reflexivity|].
  eapply (quit_signal_only_resets_and_stops NodePath.posix true true 0
            [call_loadJSON "queue.json" record_on; launcher_sets_dolphin true;
             dolphinQuit_emits; command_settles dolphinQuit true]).
  reflexivity.
Defined.

(** ** Commands per event, and the stored actions *)

Lemma sent_app out1 out2 : sent (out1 ++ out2) = sent out1 ++ sent out2.
Proof. unfold sent. apply bind_app. Qed.

Lemma sent_gate w : sent (gate_effects w) = [].
Proof. unfold gate_effects. destruct (recordingEnabled w); reflexivity. Qed.

Lemma budget_run {A} (m : Proc A) w w' out r :
  run_sync m w = (w', out, r) →
  (length (sent out) + match r with Suspended _ k => budget k | Finished _ => 0 end
   ≤ budget m)%nat.
Proof.
  revert w w' out r.
  induction m as [a|p k IH|k IH|k IH|k IH|k IH|n k IH|k IH|a k IH|ms k IH];
    intros w w' out r; simpl.
  - intros [= <- <- <-]. simpl. lia.
  - destruct (run_sync k w) as [[w1 out1] r1] eqn:E. intros [= <- <- <-].
    apply IH in E. exact E.
  - destruct (run_sync (k (obs_recording w)) w) as [[w1 out1] r1] eqn:E.
    intros [= <- <- <-]. apply IH in E. change (sent (_ :: out1)) with (sent out1).
    destruct (obs_recording w); lia.
  - intros E. apply IH in E. destruct (startAction w); lia.
  - intros E. apply IH in E. destruct (endAction w); lia.
  - intros E. apply IH in E. destruct (dolphin w); lia.
  - destruct (run_sync k (with_basename n w)) as [[w1 out1] r1] eqn:E.
    intros [= <- <- <-]. apply IH in E. exact E.
  - destruct (run_sync k w) as [[w1 out1] r1] eqn:E. intros [= <- <- <-].
    apply IH in E. exact E.
  - intros [= <- <- <-]. simpl. lia.
  - intros [= <- <- <-]. simpl. lia.
Qed.

Lemma handler_budget payload : (budget (_handleDolphinPlayback payload) ≤ 1)%nat.
Proof.
  unfold _handleDolphinPlayback. destruct (status payload); simpl; try lia.
  destruct (game_ended payload); simpl; lia.
Qed.

Lemma drain_budget buffer w w' out p :
  drain _handleDolphinPlayback buffer w = (w', out, p) →
  (length (sent out) + credit p ≤ length (logs out))%nat.
Proof.
  revert w w' out p. induction buffer as [|e rest IH]; intros w w' out p; cbn [drain].
  - intros [= <- <- <-]. simpl. lia.
  - destruct (run_sync (_handleDolphinPlayback e) w) as [[w1 out1] r1] eqn:E1.
    destruct (handler_logs _ _ _ _ _ E1) as [Hl _].
    pose proof (budget_run _ _ _ _ _ E1) as Hb.
    pose proof (handler_budget e) as Hh.
    destruct r1 as [[]|wt k].
    + destruct (drain _handleDolphinPlayback rest w1) as [[w2 out2] p2] eqn:E2.
      intros [= <- <- <-]. apply IH in E2.
      rewrite sent_app, logs_app, !length_app, Hl. simpl. lia.
    + intros [= <- <- <-]. rewrite Hl. simpl. lia.
Qed.

Lemma pipe_resume_budget k buffer w w' out p :
  log_free k →
  pipe_resume _handleDolphinPlayback k buffer w = (w', out, p) →
  (length (sent out) + credit p ≤ length (logs out) + budget k)%nat.
Proof.
  intros Hfree. unfold pipe_resume.
  destruct (run_sync k w) as [[w1 out1] r1] eqn:E1.
  destruct (log_free_run _ _ _ _ _ Hfree E1) as [Hl _].
  pose proof (budget_run _ _ _ _ _ E1) as Hb.
  destruct r1 as [[]|wt k'].
  - destruct (drain _handleDolphinPlayback buffer w1) as [[w2 out2] p2] eqn:E2.
    intros [= <- <- <-]. apply drain_budget in E2.
    rewrite sent_app, logs_app, !length_app, Hl. simpl. lia.
  - intros [= <- <- <-]. rewrite Hl. simpl. lia.
Qed.

Lemma pipe_next_budget e p w w' out p' :
  pipe_next _handleDolphinPlayback e p w = (w', out, p') →
  (length (sent out) + credit p' ≤ length (logs out) + credit p)%nat.
Proof.
  destruct p as [|wt k buffer|]; cbn [pipe_next].
  - intros H. apply drain_budget in H. simpl. lia.
  - intros [= <- <- <-]. simpl. lia.
  - intros [= <- <- <-]. simpl. lia.
Qed.

Lemma commands_of_trace_cons sub t tr :
  commands_of_trace sub (t :: tr) = commands sub t.2 ++ commands_of_trace sub tr.
Proof. reflexivity. Qed.

Section Counting.
Variable os : NodePath.platform.

Lemma step_budget s i s' out :
  pipe_quiet (playback_pipe s) →
  step os s i = Some (s', out) →
  (length (commands playbackStatus out) + credit (playback_pipe s')
   ≤ length (out ≫= logged) + credit (playback_pipe s))%nat.
Proof.
  intros Hq.
  assert (∀ o, commands playbackStatus (tag dolphinQuit o) = []) as Hqc
    by (intros; apply commands_tag_other; discriminate).
  assert (∀ o, commands playbackStatus (tag playbackStatus o) = sent o) as Hpc
    by (intros; apply commands_tag_same).
  destruct i as [payload| |fullpath|file options|src|src ok|c r|h|dt]; cbn [step].
  - unfold emit_playback.
    assert (playback_pipe s ≠ Errored →
      Some (if armed (world s)
       then let '(w, out0, p') :=
              pipe_next _handleDolphinPlayback payload (playback_pipe s) (world s) in
            ({| world := w; playback_pipe := p'; quit_pipe := quit_pipe s |},
             tag playbackStatus (gate_effects (world s) ++ out0))
       else (s, tag playbackStatus (gate_effects (world s)))) = Some (s', out) →
      (length (commands playbackStatus out) + credit (playback_pipe s')
       ≤ length (out ≫= logged) + credit (playback_pipe s))%nat) as Hlive.
    { intros _. destruct (armed (world s)).
      - destruct (pipe_next _ _ _ _) as [[w out0] p'] eqn:E. intros [= <- <-].
        apply pipe_next_budget in E. cbn [playback_pipe].
        rewrite Hpc, logged_tag_playback, sent_app, logs_app, sent_gate, logs_gate.
        exact E.
      - intros [= <- <-]. rewrite Hpc, sent_gate. simpl. lia. }
    destruct (playback_pipe s) eqn:Ep.
    + intros H. apply Hlive in H; [exact H|congruence].
    + intros H. apply Hlive in H; [exact H|congruence].
    + intros [= <- <-]. rewrite Ep. simpl. lia.
  - unfold emit_quit.
    destruct (quit_pipe s); destruct (armed (world s));
      try destruct (pipe_next _ _ _ _) as [[w out0] p'];
      intros [= <- <-]; cbn [playback_pipe]; rewrite ?Hqc; simpl; lia.
  - intros [= <- <-]. simpl. lia.
  - intros [= <- <-]. simpl. lia.
  - destruct src; try discriminate.
    + destruct (playback_pipe s) as [|[d|a] k buffer|] eqn:Ep; try discriminate.
      destruct (d <=? now (world s)); [|discriminate]. unfold resume_playback.
      destruct (pipe_resume _ _ _ _) as [[w out0] p'] eqn:E. intros [= <- <-].
      apply pipe_resume_budget in E; [|exact Hq].
      cbn [playback_pipe credit]. rewrite Hpc, logged_tag_playback. exact E.
    + destruct (quit_pipe s) as [|[d|a] k buffer|]; try discriminate.
      destruct (d <=? now (world s)); [|discriminate]. unfold resume_quit.
      destruct (pipe_resume _ _ _ _) as [[w out0] p']. intros [= <- <-].
      cbn [playback_pipe]. rewrite Hqc. simpl. lia.
  - destruct src; try discriminate.
    + destruct (playback_pipe s) as [|[d|a] k buffer|] eqn:Ep; try discriminate. destruct ok.
      * unfold resume_playback.
        destruct (pipe_resume _ _ _ _) as [[w out0] p'] eqn:E. intros [= <- <-].
        apply pipe_resume_budget in E; [|exact Hq].
        cbn [playback_pipe credit]. rewrite Hpc, logged_tag_playback. exact E.
      * intros [= <- <-]. simpl. lia.
    + destruct (quit_pipe s) as [|[d|a] k buffer|]; try discriminate. destruct ok.
      * unfold resume_quit.
        destruct (pipe_resume _ _ _ _) as [[w out0] p']. intros [= <- <-].
        cbn [playback_pipe]. rewrite Hqc. simpl. lia.
      * intros [= <- <-]. simpl. lia.
  - intros [= <- <-]. simpl. lia.
  - intros [= <- <-]. simpl. lia.
  - destruct (0 <=? dt); [|discriminate]. intros [= <- <-]. simpl. lia.
Qed.

Lemma run_budget ins : ∀ s s' tr,
  pipe_quiet (playback_pipe s) →
  run os s ins = Some (s', tr) →
  pipe_quiet (playback_pipe s')
  ∧ (length (commands_of_trace playbackStatus tr) + credit (playback_pipe s')
     ≤ length (started tr) + credit (playback_pipe s))%nat.
Proof.
  induction ins as [|i ins IH]; intros s s' tr Hq; simpl.
  - intros [= <- <-]. split; [exact Hq|]. simpl. lia.
  - destruct (step os s i) as [[s1 out]|] eqn:Es; [|discriminate].
    destruct (run os s1 ins) as [[s2 tr2]|] eqn:Er; [|discriminate].
    intros [= <- <-].
    destruct (step_fifo os _ _ _ _ Hq Es) as (Hq1 & _).
    pose proof (step_budget _ _ _ _ Hq Es) as Hb.
    destruct (IH _ _ _ Hq1 Er) as [Hq2 Hb2]. split; [exact Hq2|].
    rewrite commands_of_trace_cons, started_cons, !length_app. cbn [snd]. lia.
Qed.

Lemma loadJSON_paired options w : paired w → paired (loadJSON options w).
Proof.
  intros Hp. unfold loadJSON, paired.
  destruct (truthy (record _)); [|exact Hp].
  destruct (truthy (pauseBetweenEntries _)); cbn; [right|left]; done.
Qed.

Lemma step_paired s i s' out :
  paired (world s) → step os s i = Some (s', out) → paired (world s').
Proof.
  intros Hp Hs. destruct (is_load i) eqn:Hi.
  - destruct i; try discriminate. cbn in Hs. injection Hs as <- _.
    apply loadJSON_paired, Hp.
  - destruct (step_frame os _ _ _ _ Hs) as [Hm _]. specialize (Hm Hi).
    unfold mode_of in Hm. injection Hm as _ Hsa Hea. unfold paired. rewrite Hsa, Hea.
    exact Hp.
Qed.

Lemma run_paired ins : ∀ s s' tr,
  paired (world s) → run os s ins = Some (s', tr) → paired (world s').
Proof.
  induction ins as [|i ins IH]; intros s s' tr Hp; simpl.
  - intros [= <- <-]. exact Hp.
  - destruct (step os s i) as [[s1 out]|] eqn:Es; [|discriminate].
    destruct (run os s1 ins) as [[s2 tr2]|] eqn:Er; [|discriminate].
    intros [= <- <-]. eapply IH; [|exact Er]. eapply step_paired; eauto.
Qed.

End Counting.

(** X5.  In every run from the constructed recorder, the playback
    subscription has sent at most as many commands as it has started
    handlers: no event makes it send two commands. *)
Theorem each_event_sends_at_most_one_command os c r t0 ins s tr :
  run os (new_DolphinRecorder c r t0) ins = Some (s, tr) →
  (length (commands_of_trace playbackStatus tr) ≤ length (started tr))%nat.
Proof.
  intros Hrun.
  assert (pipe_quiet (playback_pipe (new_DolphinRecorder c r t0))) as Hq by exact I.
  destruct (run_budget os _ _ _ _ Hq Hrun) as [_ Hb]. simpl in Hb. lia.
Qed.

Lemma each_event_sends_at_most_one_command_witness :
  ∃ s tr,
    run NodePath.posix (new_DolphinRecorder true false 0) sample_inputs = Some (s, tr)
    ∧ (length (commands_of_trace playbackStatus tr) ≤ length (started tr))%nat.
Proof.
  eexists _, _. split; [reflexivity|].
  eapply (each_event_sends_at_most_one_command NodePath.posix true false 0 sample_inputs).
  reflexivity.
Defined.

(** X6.  In every state reached from the constructed recorder the two
    stored actions belong together: (START, STOP) or (UNPAUSE, PAUSE).
    [loadJSON] assigns both or neither. *)
Theorem stored_actions_stay_paired os c r t0 ins s tr :
  run os (new_DolphinRecorder c r t0) ins = Some (s, tr) →
  (startAction (world s) = START ∧ endAction (world s) = STOP)
  ∨ (startAction (world s) = UNPAUSE ∧ endAction (world s) = PAUSE).
Proof.
  intros Hrun. eapply (run_paired os); [|exact Hrun]. left. split; reflexivity.
Qed.

Lemma stored_actions_stay_paired_witness :
  ∃ s tr,
    run NodePath.posix (new_DolphinRecorder true false 0) sample_inputs = Some (s, tr)
    ∧ ((startAction (world s) = START ∧ endAction (world s) = STOP)
       ∨ (startAction (world s) = UNPAUSE ∧ endAction (world s) = PAUSE)).
Proof.
  eexists _, _. split; [reflexivity|].
  eapply (stored_actions_stay_paired NodePath.posix true false 0 sample_inputs).
  reflexivity.
Defined.

(** X7.  The end action is read when the settle delay is over, not when
    the PLAYBACK_END event arrived, and the handler does not look at
    [recordingEnabled] again: if [loadJSON] is called while the handler
    waits for its timer, the command sent when the timer fires is the
    suspend action of the new options when they enable recording, and the
    old end action, still sent, when they disable it. *)
Theorem end_action_is_read_when_the_delay_is_over os s d buffer file options s2 tr :
  playback_pipe s = Busy (WaitDelay d) after_delay buffer →
  run os s [call_loadJSON file options; timer_fires playbackStatus] = Some (s2, tr) →
  let o := Object_assign defaultDolphinPlayerOptions options in
  d ≤ now (world s)
  ∧ recordingEnabled (world s2) = truthy (record o)
  ∧ commands_of_trace playbackStatus tr
    = [if truthy (record o) then suspend_action o else endAction (world s)].
Proof.
  intros Hp Hrun o. revert Hrun. cbn [run step]. unfold dolphinPlayer_loadJSON.
  cbn [playback_pipe set_world world]. rewrite Hp.
  assert (now (loadJSON options (world s)) = now (world s)) as ->
    by (unfold loadJSON; destruct (truthy _); reflexivity).
  destruct (d <=? now (world s)) eqn:Hd; [|discriminate].
  unfold resume_playback, pipe_resume. rewrite after_delay_run.
  intros [= <- <-]. split; [apply Z.leb_le, Hd|].
  cbn [world]. unfold commands_of_trace. cbn.
  unfold loadJSON. fold o. unfold suspend_action.
  destruct (truthy (record o)); cbn; done.
Qed.

Lemma end_action_is_read_when_the_delay_is_over_witness :
  ∃ s tr0 s2 tr,
    run NodePath.posix (new_DolphinRecorder true true 0)
      [call_loadJSON "a.json" record_on; playbackStatus_emits (end_event true);
       clock_advances 1000] = Some (s, tr0)
    ∧ run NodePath.posix s
        [call_loadJSON "b.json" None; timer_fires playbackStatus] = Some (s2, tr)
    ∧ recordingEnabled (world s2) = false
    ∧ commands_of_trace playbackStatus tr = [PAUSE].
Proof.
  eexists _, _, _, _. split; [reflexivity|].
  match goal with
  | |- run _ ?s _ = _ ∧ _ =>
      refine (let H := end_action_is_read_when_the_delay_is_over NodePath.posix s 1000 []
                         "b.json" None _ _ eq_refl eq_refl in
              conj _ (conj (proj1 (proj2 H)) (proj2 (proj2 H))))
  end; reflexivity.
Defined.

(** ** Progress *)

Lemma awaits_run {A} (m : Proc A) w w' out wt k :
  run_sync m w = (w', out, Suspended wt k) → (awaits k < awaits m)%nat.
Proof.
  revert w w' out.
  induction m as [a|p k0 IH|k0 IH|k0 IH|k0 IH|k0 IH|n k0 IH|k0 IH|a k0 IH|ms k0 IH];
    intros w w' out; simpl.
  - discriminate.
  - destruct (run_sync k0 w) as [[w1 out1] r1] eqn:E. intros [= <- <- ->].
    apply IH in E. exact E.
  - destruct (run_sync (k0 (obs_recording w)) w) as [[w1 out1] r1] eqn:E.
    intros [= <- <- ->]. apply IH in E. destruct (obs_recording w); lia.
  - intros E. apply IH in E. destruct (startAction w); lia.
  - intros E. apply IH in E. destruct (endAction w); lia.
  - intros E. apply IH in E. destruct (dolphin w); lia.
  - destruct (run_sync k0 (with_basename n w)) as [[w1 out1] r1] eqn:E.
    intros [= <- <- ->]. apply IH in E. exact E.
  - destruct (run_sync k0 w) as [[w1 out1] r1] eqn:E. intros [= <- <- ->].
    apply IH in E. exact E.
  - intros [= <- <- <- <-]. lia.
  - intros [= <- <- <- <-]. lia.
Qed.

Lemma handler_awaits payload : (awaits (_handleDolphinPlayback payload) ≤ 2)%nat.
Proof.
  unfold _handleDolphinPlayback. destruct (status payload); simpl; try lia.
  destruct (game_ended payload); simpl; lia.
Qed.

Lemma drain_effort buffer w w' out p :
  drain _handleDolphinPlayback buffer w = (w', out, p) →
  (effort p ≤ 3 * length buffer)%nat ∧ p ≠ Errored.
Proof.
  revert w w' out p. induction buffer as [|e rest IH]; intros w w' out p; cbn [drain].
  - intros [= <- <- <-]. simpl. split; [lia|done].
  - destruct (run_sync (_handleDolphinPlayback e) w) as [[w1 out1] r1] eqn:E1.
    pose proof (handler_awaits e) as Hh.
    destruct r1 as [[]|wt k].
    + destruct (drain _handleDolphinPlayback rest w1) as [[w2 out2] p2] eqn:E2.
      intros [= <- <- <-]. apply IH in E2 as [E2 Hne]. simpl length. split; [lia|done].
    + intros [= <- <- <-]. apply awaits_run in E1. simpl. split; [lia|done].
Qed.

Lemma pipe_resume_effort k buffer w w' out p :
  pipe_resume _handleDolphinPlayback k buffer w = (w', out, p) →
  (effort p < S (awaits k) + 3 * length buffer)%nat ∧ p ≠ Errored.
Proof.
  unfold pipe_resume. destruct (run_sync k w) as [[w1 out1] r1] eqn:E1.
  destruct r1 as [[]|wt k'].
  - destruct (drain _handleDolphinPlayback buffer w1) as [[w2 out2] p2] eqn:E2.
    intros [= <- <- <-]. apply drain_effort in E2 as [E2 Hne]. split; [lia|done].
  - intros [= <- <- <-]. apply awaits_run in E1. simpl. split; [lia|done].
Qed.

Section Progress.
Variable os : NodePath.platform.

Lemma run_app ins1 : ∀ ins2 s s1 s2 tr1 tr2,
  run os s ins1 = Some (s1, tr1) → run os s1 ins2 = Some (s2, tr2) →
  run os s (ins1 ++ ins2) = Some (s2, tr1 ++ tr2).
Proof.
  induction ins1 as [|i ins1 IH]; intros ins2 s s1 s2 tr1 tr2; simpl.
  - intros [= <- <-]. done.
  - destruct (step os s i) as [[s' out]|]; [|discriminate].
    destruct (run os s' ins1) as [[s'' tr']|] eqn:Er; [|discriminate].
    intros [= <- <-] H2. rewrite (IH _ _ _ _ _ _ Er H2). reflexivity.
Qed.

Lemma run_quiet ins : ∀ s s' tr,
  pipe_quiet (playback_pipe s) → run os s ins = Some (s', tr) →
  pipe_quiet (playback_pipe s').
Proof.
  induction ins as [|i ins IH]; intros s s' tr Hq; simpl.
  - intros [= <- <-]. exact Hq.
  - destruct (step os s i) as [[s1 out]|] eqn:Es; [|discriminate].
    destruct (run os s1 ins) as [[s2 tr2]|] eqn:Er; [|discriminate].
    intros [= <- <-]. destruct (step_fifo os _ _ _ _ Hq Es) as (Hq1 & _).
    eapply IH; eauto.
Qed.

Lemma release_run s wt k buffer :
  playback_pipe s = Busy wt k buffer →
  ∃ s' tr,
    run os s (release wt (world s)) = Some (s', tr)
    ∧ (effort (playback_pipe s') < effort (playback_pipe s))%nat
    ∧ playback_pipe s' ≠ Errored.
Proof.
  intros Hp. rewrite Hp. destruct wt as [d|a]; cbn [release run step].
  - assert ((0 <=? Z.max 0 (d - now (world s))) = true) as -> by (apply Z.leb_le; lia).
    cbn [playback_pipe set_world world with_now now]. rewrite Hp.
    assert ((d <=? now (world s) + Z.max 0 (d - now (world s))) = true) as ->
      by (apply Z.leb_le; lia).
    unfold resume_playback.
    destruct (pipe_resume _ _ _ _) as [[w out0] p'] eqn:E.
    apply pipe_resume_effort in E as [E Hne].
    eexists _, _. split; [reflexivity|]. cbn [playback_pipe effort]. split; [exact E|exact Hne].
  - rewrite Hp. unfold resume_playback.
    destruct (pipe_resume _ _ _ _) as [[w out0] p'] eqn:E.
    apply pipe_resume_effort in E as [E Hne].
    eexists _, _. split; [reflexivity|]. cbn [playback_pipe effort]. split; [exact E|exact Hne].
Qed.

Lemma release_releasing wt w : Forall releasing (release wt w).
Proof. destruct wt; repeat constructor. Qed.

Lemma drain_to_idle n : ∀ s,
  (effort (playback_pipe s) ≤ n)%nat → playback_pipe s ≠ Errored →
  ∃ ins s' tr,
    Forall releasing ins ∧ run os s ins = Some (s', tr) ∧ playback_pipe s' = Idle.
Proof.
  induction n as [|n IH]; intros s Hn Hne.
  - exists [], s, []. split; [constructor|]. split; [reflexivity|].
    destruct (playback_pipe s); [reflexivity|simpl in Hn; lia|congruence].
  - destruct (playback_pipe s) as [|wt k buffer|] eqn:Hp; [| |congruence].
    + exists [], s, []. split; [constructor|]. split; [reflexivity|exact Hp].
    + destruct (release_run s wt k buffer Hp) as (s1 & tr1 & Hr1 & He & Hne1).
      rewrite Hp in He.
      destruct (IH s1) as (ins2 & s2 & tr2 & Hall & Hr2 & Hidle); [lia|exact Hne1|].
      exists (release wt (world s) ++ ins2), s2, (tr1 ++ tr2).
      split; [apply Forall_app; split; [apply release_releasing|exact Hall]|].
      split; [eapply run_app; eauto|exact Hidle].
Qed.

Lemma accepted_releasing ins : ∀ s s' tr,
  Forall releasing ins → run os s ins = Some (s', tr) → accepted tr = [].
Proof.
  induction ins as [|i ins IH]; intros s s' tr Hall; simpl.
  - intros [= <- <-]. reflexivity.
  - destruct (step os s i) as [[s1 out]|] eqn:Es; [|discriminate].
    destruct (run os s1 ins) as [[s2 tr2]|] eqn:Er; [|discriminate].
    intros [= <- <-]. apply Forall_cons in Hall as [Hi Hall].
    rewrite accepted_cons, (IH _ _ _ Hall Er).
    destruct i; simpl in Hi; try contradiction; reflexivity.
Qed.

End Progress.

(** X8.  Nothing is stuck for good: from every state reached from the
    constructed recorder whose playback subscription is not torn down,
    some sequence of inputs that only lets time pass, fires the playback
    timer and fulfils playback commands brings the subscription to idle,
    and on the way every buffered event is started, in buffer order. *)
Theorem buffered_events_are_handled_once_commands_settle os c r t0 ins0 s tr0 :
  run os (new_DolphinRecorder c r t0) ins0 = Some (s, tr0) →
  playback_pipe s ≠ Errored →
  ∃ ins s' tr,
    Forall releasing ins
    ∧ run os s ins = Some (s', tr)
    ∧ playback_pipe s' = Idle
    ∧ started tr = waiting (playback_pipe s).
Proof.
  intros Hrun Hne.
  assert (pipe_quiet (playback_pipe (new_DolphinRecorder c r t0))) as Hq0 by exact I.
  pose proof (run_quiet os _ _ _ _ Hq0 Hrun) as Hq.
  destruct (drain_to_idle os _ s (Nat.le_refl _) Hne) as (ins & s' & tr & Hall & Hr & Hidle).
  exists ins, s', tr. split_and!; try done.
  destruct (run_fifo os _ _ _ _ Hq Hr) as (rest & Hrest & Hfin).
  rewrite (accepted_releasing os _ _ _ _ Hall Hr), app_nil_r in Hrest.
  rewrite Hfin, Hidle, app_nil_r in Hrest by (rewrite Hidle; discriminate).
  congruence.
Qed.

Lemma buffered_events_are_handled_once_commands_settle_witness :
  ∃ s tr0,
    run NodePath.posix (new_DolphinRecorder true true 0)
      [call_loadJSON "queue.json" record_on; playbackStatus_emits (end_event true);
       playbackStatus_emits start_event; playbackStatus_emits queue_empty_event]
    = Some (s, tr0)
    ∧ ∃ ins s' tr,
        Forall releasing ins
        ∧ run NodePath.posix s ins = Some (s', tr)
        ∧ playback_pipe s' = Idle
        ∧ started tr = waiting (playback_pipe s).
Proof.
  eexists _, _. split; [reflexivity|].
  eapply (buffered_events_are_handled_once_commands_settle NodePath.posix true true 0
            [call_loadJSON "queue.json" record_on; playbackStatus_emits (end_event true);
             playbackStatus_emits start_event; playbackStatus_emits queue_empty_event]).
  - reflexivity.
  - discriminate.
Defined.

(** ** The scans of [basename] and [extname] *)

Module PathFacts.
Import NodePath.
Local Open Scope nat_scope.

Lemma indexed_cons off c p : indexed off (c :: p) = (Z.of_nat off, c) :: indexed (S off) p.
Proof. reflexivity. Qed.

Lemma indexed_app off a : ∀ b, indexed off (a ++ b) = indexed off a ++ indexed (off + length a) b.
Proof.
  revert off. induction a as [|c a IH]; intros off b.
  - simpl. rewrite Nat.add_0_r. reflexivity.
  - rewrite <- app_comm_cons, !indexed_cons, IH. simpl.
    rewrite Nat.add_succ_r. reflexivity.
Qed.

Lemma indexed_length off p : length (indexed off p) = length p.
Proof.
  revert off. induction p as [|c p IH]; intros off; [reflexivity|].
  rewrite indexed_cons. simpl. rewrite IH. reflexivity.
Qed.

Lemma indexed_snd off p : (indexed off p).*2 = p.
Proof.
  revert off. induction p as [|c p IH]; intros off; [reflexivity|].
  rewrite indexed_cons. simpl. rewrite IH. reflexivity.
Qed.

Lemma downward_indexed start p :
  downward start p = reverse (drop (Z.to_nat start) (indexed 0 p)).
Proof. reflexivity. Qed.

Lemma downward_app start a b :
  Z.to_nat start ≤ length a →
  downward start (a ++ b)
  = reverse (indexed (length a) b) ++ reverse (drop (Z.to_nat start) (indexed 0 a)).
Proof.
  intros Hle. rewrite downward_indexed, indexed_app, drop_app_le, reverse_app
    by (rewrite indexed_length; exact Hle).
  reflexivity.
Qed.

Lemma reverse_indexed_snoc off a c :
  reverse (indexed off (a ++ [c]))
  = (Z.of_nat (off + length a), c) :: reverse (indexed off a).
Proof. rewrite indexed_app, reverse_app. reflexivity. Qed.

Lemma separator_not_root os c :
  isPathSeparator os c = true → isWindowsDeviceRoot c = false ∧ ascii_eqb c CHAR_COLON = false.
Proof.
  unfold isPathSeparator, ascii_eqb.
  destruct os; rewrite ?orb_true_iff, !bool_decide_eq_true;
    intros H; destruct_or?; subst c; split; reflexivity.
Qed.

(** A separator of the path lies at or after the index the scans stop at. *)
Lemma scan_start_le os pre sep rest :
  isPathSeparator os sep = true →
  Z.to_nat (scan_start os (pre ++ sep :: rest)) ≤ length pre.
Proof.
  intros Hsep. destruct (separator_not_root _ _ Hsep) as [Hr Hc].
  destruct os; [simpl; lia|].
  destruct pre as [|c0 [|c1 pre]]; simpl.
  - destruct rest; [reflexivity|]. rewrite Hr. reflexivity.
  - rewrite Hc, andb_false_r. simpl. lia.
  - destruct (_ && _); simpl; lia.
Qed.

Lemma scan_start_range os p : (scan_start os p = 0 ∨ scan_start os p = 2)%Z.
Proof.
  destruct os; [left; reflexivity|]. destruct p as [|c0 [|c1 p]]; simpl; auto.
  destruct (_ && _); auto.
Qed.

(** *** basename *)

Lemma basename_scan_plain os L : ∀ rest st,
  Forall (λ ic : Z * ascii, isPathSeparator os ic.2 = false) L →
  b_end st ≠ (-1)%Z →
  basename_scan os (L ++ rest) st = basename_scan os rest st.
Proof.
  induction L as [|[i c] L IH]; intros rest st Hall He; [reflexivity|].
  apply Forall_cons in Hall as [Hc Hall]. simpl in Hc |- *. rewrite Hc.
  apply Z.eqb_neq in He as He'. rewrite He'. apply IH; assumption.
Qed.

Lemma Forall_indexed (P : ascii → Prop) off p :
  Forall P p → Forall (λ ic : Z * ascii, P ic.2) (indexed off p).
Proof.
  intros H. rewrite <- (indexed_snd off p) in H.
  rewrite Forall_fmap in H. exact H.
Qed.

Lemma basename_chars_joined os pre sep name :
  isPathSeparator os sep = true → name ≠ [] → no_separator os name →
  basename_chars os (pre ++ sep :: name) = name.
Proof.
  intros Hsep Hne Hall.
  pose proof (scan_start_le os pre sep name Hsep) as Hstart.
  revert Hne Hall Hstart. induction name as [|cl name' _] using rev_ind; [congruence|].
  intros _ Hall Hstart.
  unfold basename_chars.
  rewrite downward_app by exact Hstart.
  rewrite indexed_cons, reverse_cons, reverse_indexed_snoc.
  unfold no_separator in Hall. rewrite Forall_app, Forall_singleton in Hall.
  destruct Hall as [Hall' Hcl].
  cbn [app basename_scan]. rewrite Hcl. cbn [b_end]. change (-1 =? -1)%Z with true. cbv iota.
  rewrite <- app_assoc.
  rewrite basename_scan_plain;
    [|rewrite Forall_reverse;
      apply (Forall_indexed (λ c, isPathSeparator os c = false)), Hall'|cbn; lia].
  cbn [app basename_scan]. rewrite Hsep. cbn [b_matchedSlash negb b_end b_start].
  assert ((Z.of_nat (S (length pre) + length name') + 1 =? -1)%Z = false) as ->
    by (apply Z.eqb_neq; lia).
  unfold slice.
  replace (Z.to_nat (Z.of_nat (length pre) + 1)) with (length (pre ++ [sep]))
    by (rewrite length_app; simpl; lia).
  replace (pre ++ sep :: name' ++ [cl]) with ((pre ++ [sep]) ++ name' ++ [cl])
    by (rewrite <- app_assoc; reflexivity).
  rewrite drop_app_length. apply take_ge. rewrite length_app. simpl. lia.
Qed.

(** *** extname *)

Lemma see_char_settled i c st :
  e_end st ≠ (-1)%Z → startDot st ≠ (-1)%Z → preDotState st ≠ 0%Z →
  startDot (see_char i c st) = startDot st
  ∧ e_end (see_char i c st) = e_end st
  ∧ preDotState (see_char i c st) ≠ 0%Z.
Proof.
  intros He Hs Hp. unfold see_char.
  apply Z.eqb_neq in He as ->. apply Z.eqb_neq in Hs as ->. cbn [negb].
  destruct (ascii_eqb c CHAR_DOT); [destruct (preDotState st =? 1)%Z|]; cbn; done.
Qed.

Lemma extname_scan_settled os L : ∀ st,
  e_end st ≠ (-1)%Z → startDot st ≠ (-1)%Z → preDotState st ≠ 0%Z →
  startDot (extname_scan os L st) = startDot st
  ∧ e_end (extname_scan os L st) = e_end st
  ∧ preDotState (extname_scan os L st) ≠ 0%Z.
Proof.
  induction L as [|[i c] L IH]; intros st He Hs Hp; [done|].
  simpl. destruct (isPathSeparator os c).
  - destruct (negb (matchedSlash st)); [done|]. apply IH; assumption.
  - destruct (see_char_settled i c st He Hs Hp) as (H1 & H2 & H3).
    destruct (IH (see_char i c st)) as (H4 & H5 & H6); [congruence..|].
    split_and!; congruence.
Qed.

Lemma see_char_first i c sp m :
  ascii_eqb c CHAR_DOT = false →
  see_char i c {| startDot := -1; startPart := sp; e_end := -1; matchedSlash := m;
                  preDotState := 0 |}
  = {| startDot := -1; startPart := sp; e_end := i + 1; matchedSlash := false;
       preDotState := 0 |}.
Proof. intros Hc. unfold see_char. cbn. rewrite Hc. reflexivity. Qed.

Lemma see_char_next i c sp e :
  ascii_eqb c CHAR_DOT = false → e ≠ (-1)%Z →
  see_char i c {| startDot := -1; startPart := sp; e_end := e; matchedSlash := false;
                  preDotState := 0 |}
  = {| startDot := -1; startPart := sp; e_end := e; matchedSlash := false;
       preDotState := 0 |}.
Proof.
  intros Hc He. unfold see_char. cbn. apply Z.eqb_neq in He as ->. rewrite Hc. reflexivity.
Qed.

Lemma see_char_dot i sp e :
  e ≠ (-1)%Z →
  see_char i CHAR_DOT {| startDot := -1; startPart := sp; e_end := e; matchedSlash := false;
                         preDotState := 0 |}
  = {| startDot := i; startPart := sp; e_end := e; matchedSlash := false;
       preDotState := 0 |}.
Proof. intros He. unfold see_char. cbn. apply Z.eqb_neq in He as ->. reflexivity. Qed.

Lemma see_char_before_dot i c st :
  e_end st ≠ (-1)%Z → startDot st ≠ (-1)%Z → preDotState st = 0%Z →
  startDot (see_char i c st) = startDot st
  ∧ e_end (see_char i c st) = e_end st
  ∧ preDotState (see_char i c st) ≠ 0%Z.
Proof.
  intros He Hs Hp. unfold see_char.
  apply Z.eqb_neq in He as ->. apply Z.eqb_neq in Hs as ->. rewrite Hp. cbn [negb].
  change (0 =? 1)%Z with false. cbn [negb].
  destruct (ascii_eqb c CHAR_DOT); cbn; done.
Qed.

Lemma letters_no_separator os :
  isPathSeparator os "p" = false ∧ isPathSeparator os "l" = false
  ∧ isPathSeparator os "s" = false ∧ isPathSeparator os "." = false.
Proof. destruct os; done. Qed.

Lemma extname_chars_slp os stem c :
  isPathSeparator os c = false →
  Z.to_nat (scan_start os (stem ++ c :: [".";"s";"l";"p"]%char)) ≤ length stem →
  extname_chars os (stem ++ c :: [".";"s";"l";"p"]%char) = [".";"s";"l";"p"]%char.
Proof.
  intros Hc Hstart. destruct (letters_no_separator os) as (Hp & Hl & Hs & Hd).
  unfold extname_chars.
  rewrite downward_app by exact Hstart.
  set (n := length stem) in *.
  set (tl := reverse (drop _ (indexed 0 stem))).
  change (reverse (indexed n (c :: [".";"s";"l";"p"]%char)))
    with [(Z.of_nat (S (S (S (S n)))), "p"%char); (Z.of_nat (S (S (S n))), "l"%char);
          (Z.of_nat (S (S n)), "s"%char); (Z.of_nat (S n), "."%char); (Z.of_nat n, c)].
  cbn [app extname_scan]. rewrite Hp, Hl, Hs, Hd, Hc.
  set (st := see_char (Z.of_nat n) c _).
  assert (startDot st = Z.of_nat (S n) ∧ e_end st = (Z.of_nat (S (S (S (S n)))) + 1)%Z
          ∧ preDotState st ≠ 0%Z) as (Hsd & Hee & Hpd).
  { subst st.
    rewrite see_char_first by reflexivity.
    rewrite !see_char_next by (reflexivity || lia).
    change "."%char with CHAR_DOT. rewrite see_char_dot by lia.
    destruct (see_char_before_dot (Z.of_nat n) c
                {| startDot := Z.of_nat (S n); startPart := scan_start os (stem ++ c :: [CHAR_DOT; "s"; "l"; "p"]%char);
                   e_end := Z.of_nat (S (S (S (S n)))) + 1; matchedSlash := false;
                   preDotState := 0 |}) as (H1 & H2 & H3); cbn; [lia|lia|reflexivity|].
    done. }
  destruct (extname_scan_settled os tl st) as (H1 & H2 & H3); [lia..|exact Hpd|].
  rewrite H1, H2, Hsd, Hee.
  destruct (Z.eqb_spec (preDotState (extname_scan os tl st)) 0) as [?|_]; [congruence|].
  assert ((Z.of_nat (S n) =? -1)%Z = false) as -> by (apply Z.eqb_neq; lia).
  assert ((Z.of_nat (S (S (S (S n)))) + 1 =? -1)%Z = false) as -> by (apply Z.eqb_neq; lia).
  assert ((Z.of_nat (S n) =? Z.of_nat (S (S (S (S n)))) + 1 - 1)%Z = false) as ->
    by (apply Z.eqb_neq; lia).
  rewrite andb_false_r. cbn [orb andb].
  unfold slice.
  replace (Z.to_nat (Z.of_nat (S n))) with (length (stem ++ [c]))
    by (rewrite length_app; simpl; lia).
  replace (stem ++ c :: [".";"s";"l";"p"]%char) with ((stem ++ [c]) ++ [".";"s";"l";"p"]%char)
    by (rewrite <- app_assoc; reflexivity).
  rewrite drop_app_length. apply take_ge. simpl. lia.
Qed.

Lemma ext_inv_final os front back st :
  ext_inv os (length front) back st → ext_final os (front ++ back) st.
Proof.
  intros (_ & H2 & H3) Hs He. destruct (H2 He) as (k & Hk & Hkl & Hall).
  destruct (H3 Hs) as (_ & Hlo & Hhi).
  exists (Z.to_nat (startDot st)), (length front + k). split_and!; try lia.
  - rewrite length_app. lia.
  - rewrite drop_app_add'; [exact Hall|reflexivity].
Qed.

Lemma ext_final_fields os p st st' :
  startDot st' = startDot st → e_end st' = e_end st →
  ext_final os p st → ext_final os p st'.
Proof. unfold ext_final. intros -> ->. done. Qed.

Lemma ext_inv_separator os j c back st :
  isPathSeparator os c = true →
  ext_inv os (S j) back st → ext_inv os j (c :: back) st.
Proof.
  intros Hc (H1 & H2 & H3). split_and!.
  - intros He. destruct (H1 He) as [Hs Hall]. split; [exact Hs|]. constructor; assumption.
  - intros He. destruct (H2 He) as (k & Hk & Hkl & Hall).
    exists (S k). split_and!; simpl; try lia. exact Hall.
  - intros Hs. destruct (H3 Hs) as (He & Hlo & Hhi). split; [exact He|lia].
Qed.

Lemma ext_inv_see_char os j c back st :
  ext_inv os (S j) back st →
  ext_inv os j (c :: back) (see_char (Z.of_nat j) c st).
Proof.
  intros (H1 & H2 & H3). unfold see_char.
  destruct (Z.eqb_spec (e_end st) (-1)) as [He|He].
  - destruct (H1 He) as [Hs Hall]. cbn [startDot e_end preDotState]. rewrite Hs.
    change (-1 =? -1)%Z with true. cbn [negb].
    assert (∃ k : nat, (Z.of_nat j + 1)%Z = Z.of_nat (j + k)
                       ∧ 1 ≤ k ≤ length (c :: back) ∧ all_separators os (drop k (c :: back)))
      as Hk by (exists 1; split_and!; simpl; try lia; exact Hall).
    destruct (ascii_eqb c CHAR_DOT); (split_and!; cbn; [lia|intros _; exact Hk|lia]).
  - destruct (H2 He) as (k & Hk & Hkl & Hall).
    assert (∃ k : nat, e_end st = Z.of_nat (j + k)
                       ∧ 1 ≤ k ≤ length (c :: back) ∧ all_separators os (drop k (c :: back)))
      as Hk' by (exists (S k); split_and!; simpl; try lia; exact Hall).
    destruct (ascii_eqb c CHAR_DOT).
    + destruct (Z.eqb_spec (startDot st) (-1)) as [Hs|Hs].
      * split_and!; cbn; [done|intros _; exact Hk'|intros _; split; [exact He|lia]].
      * destruct (H3 Hs) as (_ & Hlo & Hhi).
        destruct (negb (preDotState st =? 1)%Z);
          (split_and!; cbn; [done|intros _; exact Hk'|intros _; split; [exact He|lia]]).
    + destruct (Z.eqb_spec (startDot st) (-1)) as [Hs|Hs]; cbn [negb].
      * split_and!; [done|intros _; exact Hk'|done].
      * destruct (H3 Hs) as (_ & Hlo & Hhi).
        split_and!; cbn; [done|intros _; exact Hk'|intros _; split; [exact He|lia]].
Qed.

Lemma extname_scan_final os f : ∀ front back st,
  ext_inv os (length front + length f) back st →
  ext_final os (front ++ f ++ back)
    (extname_scan os (reverse (indexed (length front) f)) st).
Proof.
  induction f as [|c f IH] using rev_ind; intros front back st Hinv.
  - simpl in *. rewrite Nat.add_0_r in Hinv. apply ext_inv_final, Hinv.
  - rewrite reverse_indexed_snoc. rewrite length_app in Hinv. simpl in Hinv.
    replace (length front + (length f + 1)) with (S (length front + length f)) in Hinv by lia.
    rewrite <- (app_assoc f [c] back). cbn [app extname_scan].
    destruct (isPathSeparator os c) eqn:Hc.
    + destruct (negb (matchedSlash st)).
      * eapply (ext_final_fields _ _ st); [reflexivity..|].
        replace (front ++ f ++ c :: back) with ((front ++ f ++ [c]) ++ back)
          by (rewrite <- !app_assoc; reflexivity).
        apply ext_inv_final. rewrite !length_app. simpl.
        replace (length front + (length f + 1)) with (S (length front + length f)) by lia.
        exact Hinv.
      * apply IH. apply ext_inv_separator; assumption.
    + apply IH. apply ext_inv_see_char, Hinv.
Qed.

Lemma drop_indexed n p : drop n (indexed 0 p) = indexed (length (take n p)) (drop n p).
Proof.
  rewrite <- (take_drop n p) at 1. rewrite indexed_app. simpl.
  destruct (decide (n ≤ length p)) as [Hle|Hgt].
  - rewrite drop_app_length'; [reflexivity|]. rewrite indexed_length, length_take. lia.
  - rewrite (drop_ge p n) by lia. rewrite app_nil_r. apply drop_ge.
    rewrite indexed_length, length_take. lia.
Qed.

(** A non-empty extension is a part of the path, and only separators
    follow it. *)
Lemma extname_chars_suffix os p :
  extname_chars os p ≠ [] →
  ∃ pre seps, p = pre ++ extname_chars os p ++ seps ∧ all_separators os seps.
Proof.
  unfold extname_chars.
  set (st0 := {| startDot := -1; startPart := scan_start os p; e_end := -1;
                 matchedSlash := true; preDotState := 0 |}).
  rewrite downward_indexed, drop_indexed.
  set (s := Z.to_nat (scan_start os p)).
  pose proof (extname_scan_final os (drop s p) (take s p) [] st0) as Hfin.
  rewrite app_nil_r, take_drop in Hfin.
  set (st := extname_scan os _ st0) in *.
  assert (ext_inv os (length (take s p) + length (drop s p)) [] st0) as Hinv.
  { split_and!; cbn; [intros _; split; [reflexivity|constructor]|done|done]. }
  specialize (Hfin Hinv).
  destruct (Z.eqb_spec (startDot st) (-1)) as [|Hs]; [done|].
  destruct (Z.eqb_spec (e_end st) (-1)) as [|He]; [done|].
  destruct (Hfin Hs He) as (a & b & Ha & Hb & Hab & Hall).
  destruct (_ || _); [done|]. intros _.
  exists (take a p), (drop b p). split; [|exact Hall].
  unfold slice. rewrite Ha, Hb, Nat2Z.id.
  replace (Z.to_nat (Z.of_nat b - Z.of_nat a)) with (b - a) by lia.
  rewrite <- (take_drop a p) at 1. f_equal.
  rewrite <- (take_drop (b - a) (drop a p)) at 1. f_equal.
  rewrite drop_drop. f_equal. lia.
Qed.

Lemma base_inv_final os front back st :
  base_inv os (length front) (length front) back st →
  base_final os (front ++ back) st.
Proof.
  intros (Hs & H2) He. destruct (H2 He) as (_ & k & Hk & Hkl & Hall).
  exists (length front), (length front + k). split_and!; try done; try lia.
  rewrite drop_app_length. replace (length front + k - length front) with k by lia.
  exact Hall.
Qed.

Lemma basename_scan_final os f : ∀ front back st,
  base_inv os (length front) (length front + length f) back st →
  base_final os (front ++ f ++ back)
    (basename_scan os (reverse (indexed (length front) f)) st).
Proof.
  induction f as [|c f IH] using rev_ind; intros front back st Hinv.
  - simpl in *. rewrite Nat.add_0_r in Hinv. apply base_inv_final, Hinv.
  - rewrite reverse_indexed_snoc. rewrite length_app in Hinv. simpl in Hinv.
    replace (length front + (length f + 1)) with (S (length front + length f)) in Hinv by lia.
    rewrite <- (app_assoc f [c] back). cbn [app basename_scan].
    destruct Hinv as (Hs & H2).
    destruct (isPathSeparator os c) eqn:Hc.
    + destruct (b_matchedSlash st) eqn:Hm; cbn [negb].
      * apply IH. split; [exact Hs|]. intros He. destruct (H2 He) as (Hm' & _). congruence.
      * intros He. cbn [b_end] in He. destruct (H2 He) as (_ & k & Hk & Hkl & Hall).
        exists (S (length front + length f)), (S (length front + length f) + k).
        cbn [b_start b_end]. split_and!; try lia.
        replace (front ++ f ++ c :: back) with ((front ++ f ++ [c]) ++ back)
          by (rewrite <- !app_assoc; reflexivity).
        rewrite drop_app_length' by (rewrite !length_app; simpl; lia).
        replace (S (length front + length f) + k - S (length front + length f)) with k by lia.
        exact Hall.
    + destruct (Z.eqb_spec (b_end st) (-1)) as [He|He].
      * apply IH. split; [exact Hs|]. intros _. split; [reflexivity|].
        exists 1. cbn [b_end]. split_and!; simpl; try lia.
        rewrite take_0. apply Forall_singleton. exact Hc.
      * apply IH. split; [exact Hs|]. intros _. destruct (H2 He) as (Hm & k & Hk & Hkl & Hall).
        split; [exact Hm|]. exists (S k). split_and!; simpl; try lia.
        constructor; assumption.
Qed.

(** The base name holds no separator. *)
Lemma basename_chars_no_separator os p : no_separator os (basename_chars os p).
Proof.
  unfold basename_chars.
  set (st0 := {| b_start := scan_start os p; b_end := -1; b_matchedSlash := true |}).
  rewrite downward_indexed, drop_indexed.
  set (s := Z.to_nat (scan_start os p)).
  assert (s ≤ length p) as Hs.
  { subst s. destruct os; [simpl; lia|]. destruct p as [|c0 [|c1 p]]; simpl; try lia.
    destruct (_ && _); simpl; lia. }
  pose proof (basename_scan_final os (drop s p) (take s p) [] st0) as Hfin.
  rewrite app_nil_r, take_drop in Hfin.
  set (st := basename_scan os _ st0) in *.
  destruct (Z.eqb_spec (b_end st) (-1)) as [|He]; [constructor|].
  destruct Hfin as (a & b & Ha & Hb & Hab & Hall); [|exact He|].
  { split; [|done]. unfold st0. cbn [b_start]. rewrite length_take.
    destruct (scan_start_range os p) as [H|H]; lia. }
  unfold slice. rewrite Ha, Hb, Nat2Z.id.
  replace (Z.to_nat (Z.of_nat b - Z.of_nat a)) with (b - a) by lia. exact Hall.
Qed.

End PathFacts.

(** ** File names *)

Lemma chars_app a b :
  String.list_ascii_of_string (a +:+ b)
  = String.list_ascii_of_string a ++ String.list_ascii_of_string b.
Proof. induction a as [|c a IH]; [reflexivity|]. simpl. rewrite IH. reflexivity. Qed.

Lemma string_app_length a b : String.length (a +:+ b) = (String.length a + String.length b)%nat.
Proof. induction a as [|c a IH]; [reflexivity|]. simpl. rewrite IH. reflexivity. Qed.

Lemma string_app_cancel_r t : ∀ a b : string, (a +:+ t = b +:+ t → a = b)%string.
Proof.
  induction a as [|c a IH]; intros [|c' b] H.
  - reflexivity.
  - apply (f_equal String.length) in H. rewrite !string_app_length in H. simpl in H. lia.
  - apply (f_equal String.length) in H. rewrite !string_app_length in H. simpl in H. lia.
  - change (String c (a +:+ t) = String c' (b +:+ t)) in H.
    injection H as -> H. f_equal. apply IH, H.
Qed.

Lemma slp_scan_start os stem c :
  c ≠ ":"%char →
  (Z.to_nat (NodePath.scan_start os (stem ++ c :: [".";"s";"l";"p"]%char)) ≤ length stem)%nat.
Proof.
  intros Hc. destruct os; [simpl; lia|].
  destruct stem as [|c0 [|c1 stem]]; simpl.
  - rewrite andb_false_r. simpl. lia.
  - unfold NodePath.ascii_eqb. rewrite bool_decide_eq_false_2 by exact Hc.
    rewrite andb_false_r. simpl. lia.
  - destruct (_ && _); simpl; lia.
Qed.

Lemma slp_name_is_replay os filename : slp_name os filename → is_replay os filename.
Proof.
  intros (stem & c & -> & Hsep & Hc). unfold is_replay, NodePath.extname.
  rewrite chars_app. cbn [String.list_ascii_of_string].
  rewrite PathFacts.extname_chars_slp; [reflexivity|exact Hsep|apply slp_scan_start, Hc].
Qed.

(** X9.  For a full path that ends in a separator followed by a non-empty
    name without separators, the playbackFilename subscription publishes
    exactly that name.  It does so in every state, armed or not, and changes
    nothing else: both event subscriptions stay as they are and no command
    is sent. *)
Theorem filename_stream_publishes_the_file_name os s dir sep name :
  NodePath.isPathSeparator os sep = true →
  name ≠ EmptyString →
  no_separator os (String.list_ascii_of_string name) →
  step os s (playbackFilename_emits (dir +:+ String sep name))
  = Some ({| world := with_basename name (world s);
             playback_pipe := playback_pipe s;
             quit_pipe := quit_pipe s |},
          [(playbackFilename, EBasenameNext name)]).
Proof.
  intros Hsep Hne Hall. cbn [step]. unfold NodePath.basename.
  rewrite chars_app. cbn [String.list_ascii_of_string].
  rewrite PathFacts.basename_chars_joined; [|exact Hsep| |exact Hall].
  - rewrite String.string_of_list_ascii_of_string. reflexivity.
  - destruct name; [congruence|discriminate].
Qed.

Lemma filename_stream_publishes_the_file_name_witness :
  step NodePath.win32 (new_DolphinRecorder false false 0)
    (playbackFilename_emits "C:\replays\Game_1.slp")
  = Some ({| world := with_basename "Game_1.slp" (world (new_DolphinRecorder false false 0));
             playback_pipe := Idle; quit_pipe := Idle |},
          [(playbackFilename, EBasenameNext "Game_1.slp")]).
Proof.
  apply (filename_stream_publishes_the_file_name NodePath.win32
           (new_DolphinRecorder false false 0) "C:\replays" "\"%char "Game_1.slp").
  - reflexivity.
  - discriminate.
  - repeat constructor.
Defined.

(** X10.  Whatever path the engine reports, the published basename holds
    no path separator of the platform. *)
Theorem published_basename_has_no_separator os s fullpath :
  ∃ name,
    step os s (playbackFilename_emits fullpath)
    = Some ({| world := with_basename name (world s);
               playback_pipe := playback_pipe s;
               quit_pipe := quit_pipe s |},
            [(playbackFilename, EBasenameNext name)])
    ∧ no_separator os (String.list_ascii_of_string name).
Proof.
  exists (NodePath.basename os fullpath). split; [reflexivity|].
  unfold NodePath.basename. rewrite String.list_ascii_of_string_of_list_ascii.
  apply PathFacts.basename_chars_no_separator.
Qed.

(** X11.  [loadSlpFilesInDolphin] drops no file whose name ends in [.slp]
    after at least one character that is neither a separator nor a colon:
    when all names have that form the filter keeps the whole list, and the
    logged queue has one entry per name. *)
Theorem loadSlpFiles_drops_no_slp_name h filenames options app :
  Forall (slp_name (host_os h)) filenames →
  filter (is_replay (host_os h)) filenames = filenames
  ∧ console (loadSlpFilesInDolphin h filenames options app).1
    = console app ++ [log_queue (as_entry <$> filenames)].
Proof.
  intros Hall.
  assert (filter (is_replay (host_os h)) filenames = filenames) as Hf.
  { induction Hall as [|f fs Hf _ IH]; [reflexivity|].
    rewrite filter_cons_True by (apply slp_name_is_replay, Hf). rewrite IH. reflexivity. }
  split; [exact Hf|].
  unfold loadSlpFilesInDolphin. rewrite Hf.
  destruct (length _ =? 0)%nat; [reflexivity|].
  unfold loadPayloadIntoDolphin. destruct (writeFile_fulfils h); reflexivity.
Qed.

Lemma loadSlpFiles_drops_no_slp_name_witness :
  filter (is_replay NodePath.win32) ["C:\replays\Game_1.slp"; "b.slp"]%string
  = ["C:\replays\Game_1.slp"; "b.slp"]%string.
Proof.
  refine (proj1 (loadSlpFiles_drops_no_slp_name sample_host
                   ["C:\replays\Game_1.slp"; "b.slp"]%string None sample_app _)).
  repeat constructor.
  - exists "C:\replays\Game_"%string, "1"%char. split_and!; [reflexivity|reflexivity|discriminate].
  - exists EmptyString, "b"%char. split_and!; [reflexivity|reflexivity|discriminate].
Defined.

(** X12.  Every file name the filter of [loadSlpFilesInDolphin] keeps
    contains [.slp] followed by nothing but path separators: no other
    extension, and no upper-case variant, is ever queued. *)
Theorem kept_names_end_in_slp os filename :
  is_replay os filename →
  ∃ pre seps,
    String.list_ascii_of_string filename = pre ++ [".";"s";"l";"p"]%char ++ seps
    ∧ all_separators os seps.
Proof.
  unfold is_replay, NodePath.extname. intros H.
  apply (f_equal String.list_ascii_of_string) in H.
  rewrite String.list_ascii_of_string_of_list_ascii in H. cbn in H.
  destruct (PathFacts.extname_chars_suffix os (String.list_ascii_of_string filename))
    as (pre & seps & Hp & Hall); [rewrite H; discriminate|].
  rewrite H in Hp. eauto.
Qed.

Lemma kept_names_end_in_slp_witness :
  ∃ pre seps,
    String.list_ascii_of_string "replays/Game_1.slp//" = pre ++ [".";"s";"l";"p"]%char ++ seps
    ∧ all_separators NodePath.posix seps.
Proof.
  apply (kept_names_end_in_slp NodePath.posix "replays/Game_1.slp//"). reflexivity.
Defined.

(** ** Loading and saving queues *)

(** X13.  [randomTempJSONFile] hands [path.join] the temp folder and a file
    name built from [Date.now()], and for two different milliseconds the
    two file names differ.  The two paths then differ as well, unless
    [path.join] maps these two different names to one path. *)
Theorem temp_file_names_differ_by_clock h1 h2 :
  Date_now h1 ≠ Date_now h2 →
  randomTempJSONFile h1 = path_join h1 (app_temp h1) (temp_file_name (Date_now h1))
  ∧ randomTempJSONFile h2 = path_join h2 (app_temp h2) (temp_file_name (Date_now h2))
  ∧ temp_file_name (Date_now h1) ≠ temp_file_name (Date_now h2)
  ∧ ((path_join h1 (app_temp h1) (temp_file_name (Date_now h1))
      = path_join h2 (app_temp h2) (temp_file_name (Date_now h2)) →
      temp_file_name (Date_now h1) = temp_file_name (Date_now h2)) →
     randomTempJSONFile h1 ≠ randomTempJSONFile h2).
Proof.
  intros Hne.
  assert (temp_file_name (Date_now h1) ≠ temp_file_name (Date_now h2)) as Hnames.
  { unfold temp_file_name. intros Heq. apply string_app_cancel_r in Heq.
    apply Hne. eapply (inj pretty), Heq. }
  split_and!; [reflexivity|reflexivity|exact Hnames|].
  intros Hjoin Heq. apply Hnames, Hjoin, Heq.
Qed.

Lemma temp_file_names_differ_by_clock_witness :
  temp_file_name (Date_now sample_host) ≠ temp_file_name (Date_now sample_host_later).
Proof.
  refine (proj1 (proj2 (proj2
            (temp_file_names_differ_by_clock sample_host sample_host_later _)))).
  discriminate.
Defined.

(** X14.  The name of the temporary file is fixed before
    [loadPayloadIntoDolphin] suspends at its write, and it depends on the
    temp folder and the clock alone: two calls begun within one millisecond
    wait for writes to one and the same path.  Once both writes are
    fulfilled the player is handed that path twice, and the recorder is left
    with the options of the call that resumed last, which need not be the
    call made last.  A call that nothing interleaves with is its beginning,
    the write and its resumption. *)
Theorem loads_in_the_same_millisecond_share_a_file h1 h2 payload1 payload2 o1 o2 :
  app_temp h1 = app_temp h2 → path_join h1 = path_join h2 → Date_now h1 = Date_now h2 →
  let first := loadPayload_begin h1 payload1 o1 in
  let second := loadPayload_begin h2 payload2 o2 in
  outputFile first = outputFile second
  ∧ (∀ app,
       launches (loadPayload_resume second (loadPayload_resume first app))
       = launches app ++ [(caller, ESuperLoadJSON (outputFile first));
                          (caller, ESuperLoadJSON (outputFile first))]
       ∧ launches (loadPayload_resume first (loadPayload_resume second app))
         = launches app ++ [(caller, ESuperLoadJSON (outputFile first));
                            (caller, ESuperLoadJSON (outputFile first))]
       ∧ world (dolphinPlayer (loadPayload_resume second (loadPayload_resume first app)))
         = loadJSON o2 (loadJSON o1 (world (dolphinPlayer app)))
       ∧ world (dolphinPlayer (loadPayload_resume first (loadPayload_resume second app)))
         = loadJSON o1 (loadJSON o2 (world (dolphinPlayer app))))
  ∧ (∀ app, writeFile_fulfils h1 = true →
       loadPayloadIntoDolphin h1 payload1 o1 app
       = (loadPayload_resume first (fs_writeFile (outputFile first) payload1 app), Fulfilled)).
Proof.
  intros Ht Hj Hd first second.
  assert (outputFile first = outputFile second) as Hsame.
  { cbn. unfold randomTempJSONFile. rewrite Ht, Hj, Hd. reflexivity. }
  split; [exact Hsame|]. split.
  - intros app. unfold loadPayload_resume, openComboInDolphin. rewrite <- Hsame.
    cbn. rewrite <- !app_assoc. split_and!; reflexivity.
  - intros app Hw. unfold loadPayloadIntoDolphin. rewrite Hw. reflexivity.
Qed.

Lemma loads_in_the_same_millisecond_share_a_file_witness :
  outputFile (loadPayload_begin sample_host "first" None)
  = outputFile (loadPayload_begin sample_host "second" record_on).
Proof.
  refine (proj1 (loads_in_the_same_millisecond_share_a_file sample_host sample_host
                   "first" "second" None record_on _ _ _));
    reflexivity.
Defined.

(** X16.  [saveQueueToFile] never touches the player, its launches or the
    queue state of the store, and of the files it changes at most the one
    at the chosen path. *)
Theorem saveQueue_touches_only_the_chosen_file h p app :
  let app' := (saveQueueToFile h p app).1 in
  dolphinPlayer app' = dolphinPlayer app
  ∧ launches app' = launches app
  ∧ tempContainer app' = tempContainer app
  ∧ ∀ file, p ≠ Some file → files app' !! file = files app !! file.
Proof.
  unfold saveQueueToFile.
  destruct (no_path p) eqn:Hp; [split_and!; reflexivity|].
  assert (∀ file, p ≠ Some file → default EmptyString p ≠ file) as Hother
    by (intros file Hne; destruct p; [simpl; congruence|discriminate]).
  destruct (writeFile_fulfils h); split_and!; try reflexivity.
  - intros file Hne. cbn. apply lookup_insert_ne, Hother, Hne.
  - intros file Hne. cbn. apply lookup_partial_alter_ne, Hother, Hne.
Qed.

(** X17.  The options of a load reach the recorder only if something is
    loaded.  When [loadSlpFilesInDolphin] keeps no file the recorder is left
    as it was, so a recording mode enabled earlier stays enabled whatever
    the options say.  When the file is written, the recorder's fields are
    those [loadJSON] computes: [recordingEnabled] is the truthiness of
    [record]; the actions are the resume and suspend actions of the options
    when recording is enabled, and are left as they were when it is not.
    [loadQueueIntoDolphin] writes and launches even for an empty queue. *)
Theorem options_apply_only_when_a_queue_is_loaded h filenames options app :
  let o := Object_assign defaultDolphinPlayerOptions options in
  (filter (is_replay (host_os h)) filenames = [] →
     dolphinPlayer (loadSlpFilesInDolphin h filenames options app).1 = dolphinPlayer app)
  ∧ (writeFile_fulfils h = true →
     (filter (is_replay (host_os h)) filenames ≠ [] →
        world (dolphinPlayer (loadSlpFilesInDolphin h filenames options app).1)
        = loadJSON options (world (dolphinPlayer app)))
     ∧ world (dolphinPlayer (loadQueueIntoDolphin h options app))
       = loadJSON options (world (dolphinPlayer app))
     ∧ launches (loadQueueIntoDolphin h options app)
       = launches app ++ [(caller, ESuperLoadJSON (randomTempJSONFile h))])
  ∧ recordingEnabled (loadJSON options (world (dolphinPlayer app))) = truthy (record o)
  ∧ (truthy (record o) = true →
       startAction (loadJSON options (world (dolphinPlayer app))) = resume_action o
       ∧ endAction (loadJSON options (world (dolphinPlayer app))) = suspend_action o)
  ∧ (truthy (record o) = false →
       startAction (loadJSON options (world (dolphinPlayer app)))
       = startAction (world (dolphinPlayer app))
       ∧ endAction (loadJSON options (world (dolphinPlayer app)))
         = endAction (world (dolphinPlayer app))).
Proof.
  intros o. split_and!.
  - intros Hk. unfold loadSlpFilesInDolphin. rewrite Hk. reflexivity.
  - intros Hw. unfold loadQueueIntoDolphin, loadSlpFilesInDolphin, loadPayloadIntoDolphin.
    rewrite Hw. split_and!; try reflexivity.
    intros Hk. destruct (filter _ filenames); [congruence|]. reflexivity.
  - unfold loadJSON. fold o. destruct (truthy (record o)); reflexivity.
  - intros Hr. unfold loadJSON. fold o. rewrite Hr. split; reflexivity.
  - intros Hr. unfold loadJSON. fold o. rewrite Hr. split; reflexivity.
Qed.

(** ** Version update messages *)

(** X18.  [sendLatestVersion] hands over exactly one message after those
    already sent.  The version it reports is the version it asked
    [needsUpdate] about: the cleaned version whenever [clean] yields a
    non-empty string, and the raw input when [clean] yields null or the
    empty string, so it is not empty unless the input is.  The status is
    UPDATE_AVAILABLE exactly when [needsUpdate] holds of that version, and
    NO_UPDATE otherwise. *)
Theorem latest_version_reports_the_version_it_tested env version outbox :
  ∃ v,
    VersionUpdate.sendLatestVersion env version outbox
    = outbox ++ [(VersionUpdate.VersionUpdateStatus,
                  {| VersionUpdate.status :=
                       if VersionUpdate.needsUpdate env v
                       then VersionUpdate.UPDATE_AVAILABLE else VersionUpdate.NO_UPDATE;
                     VersionUpdate.payload :=
                       VersionUpdate.version_info v (VersionUpdate.toISOString env) |})]
    ∧ (∀ cleaned, VersionUpdate.clean env version = Some cleaned →
                  cleaned ≠ EmptyString → v = cleaned)
    ∧ (VersionUpdate.clean env version = None
       ∨ VersionUpdate.clean env version = Some EmptyString → v = version)
    ∧ (version ≠ EmptyString → v ≠ EmptyString).
Proof.
  exists (VersionUpdate.or_else (VersionUpdate.clean env version) version). split_and!.
  - unfold VersionUpdate.sendLatestVersion.
    destruct (VersionUpdate.needsUpdate env _); reflexivity.
  - intros cleaned -> Hne. unfold VersionUpdate.or_else.
    rewrite bool_decide_eq_false_2 by exact Hne. reflexivity.
  - intros [-> | ->]; reflexivity.
  - intros Hne. unfold VersionUpdate.or_else.
    destruct (VersionUpdate.clean env version) as [s|]; [|exact Hne].
    case_bool_decide; assumption.
Qed.
